(** * soki/binary: the decode engine (decoder.go, decoder_reader.go)

    A shallow embedding of the two decoders of the package: the
    buffer-backed [Decoder] and the stream-backed [decoderReader], with
    their varint codec, bool-sequence codec, reflection-driven value
    decoder, fast-path dispatcher and skip engine.

    Go's [int], [uint] are taken as 64-bit.  Bytes are [Byte.byte];
    fixed-width integers are [Z] with the wrap-around written out. *)

From Stdlib Require Import ZArith List Lia Bool.
From Stdlib Require Import Strings.Byte.
Import ListNotations.
Open Scope Z_scope.
Set Warnings "-register-all".

(** ** Machine integers *)

Definition byte := Byte.byte.

Definition byte_to_Z (b : byte) : Z := Z.of_N (Byte.to_N b).

Definition byte_of_Z (z : Z) : byte :=
  match Byte.of_N (Z.to_N z) with
  | Some b => b
  | None => Byte.x00
  end.

(** [uint64(x)]: truncation to 64 bits. *)
Definition to_uint64 (x : Z) : Z := x mod 2 ^ 64.

(** Conversion of an unsigned [w]-bit pattern to the signed type of the
    same width: [int8(u)], [int16(u)], [int32(u)], [int64(u)], [int(u)]. *)
Definition to_signed (w : Z) (x : Z) : Z :=
  (x + 2 ^ (w - 1)) mod 2 ^ w - 2 ^ (w - 1).

Definition to_int (x : Z) : Z := to_signed 64 x.

(** Go's [/] on [int] truncates toward zero. *)
Definition go_div (a b : Z) : Z := Z.quot a b.

(** [int] multiplication and addition wrap at 64 bits. *)
Definition int_mul (a b : Z) : Z := to_int (a * b).
Definition int_add (a b : Z) : Z := to_int (a + b).
Definition int_sub (a b : Z) : Z := to_int (a - b).

Definition len {A} (l : list A) : Z := Z.of_nat (length l).

(** ** Faults and results

    A Go [panic] unwinds the call chain; [Ret] carries the result and the
    state the call leaves behind. *)

Inductive panicval : Type :=
| PanicUnexpectedEOF          (* panic(io.ErrUnexpectedEOF) *)
| PanicRuntime.               (* index or slice bounds out of range, negative make *)

Inductive res (S A : Type) : Type :=
| Ret (a : A) (s : S)
| Panic (p : panicval).
Arguments Ret {S A} a s.
Arguments Panic {S A} p.

Definition M (S A : Type) : Type := S -> res S A.

Definition ret {S A} (a : A) : M S A := fun s => Ret a s.

Definition bind {S A B} (m : M S A) (k : A -> M S B) : M S B :=
  fun s => match m s with
           | Ret a s' => k a s'
           | Panic p => Panic p
           end.

Definition panic {S A} (p : panicval) : M S A := fun _ => Panic p.

Declare Scope go_scope.
Delimit Scope go_scope with go.
Notation "x <- m ;; k" := (bind m (fun x => k))
  (at level 61, m at next level, right associativity) : go_scope.
Notation "' pat <- m ;; k" := (bind m (fun x => match x with pat => k end))
  (at level 61, pat pattern, m at next level, right associativity) : go_scope.
Notation "m ;;; k" := (bind m (fun _ => k))
  (at level 61, right associativity) : go_scope.
Open Scope go_scope.

(** [for i := i0; i < i0 + n; i++ { a = body(i, a) }] *)
Fixpoint for_loop {S A} (n : nat) (i : Z) (body : Z -> A -> M S A) (a : A) : M S A :=
  match n with
  | O => ret a
  | S n' => a' <- body i a ;; for_loop n' (i + 1) body a'
  end.

(** ** Errors returned through the normal call chain *)

Inductive error : Type :=
| ErrUnexpectedEOF            (* io.ErrUnexpectedEOF *)
| ErrUnsupportedType          (* "unsupported type %s" *)
| ErrNonPointer.              (* "non-pointer type %s" *)

(** ** Byte order

    [Endian] is declared outside the two files; the decoders only call its
    three readers on a slice of exactly 2, 4 and 8 bytes. *)

Record Endian : Type := {
  Uint16 : list byte -> Z;
  Uint32 : list byte -> Z;
  Uint64 : list byte -> Z
}.

Fixpoint le_bytes (bs : list byte) : Z :=
  match bs with
  | [] => 0
  | b :: bs' => byte_to_Z b + 256 * le_bytes bs'
  end.

Definition LittleEndian : Endian :=
  {| Uint16 := le_bytes; Uint32 := le_bytes; Uint64 := le_bytes |}.

Definition BigEndian : Endian :=
  {| Uint16 := fun b => le_bytes (rev b);
     Uint32 := fun b => le_bytes (rev b);
     Uint64 := fun b => le_bytes (rev b) |}.

(** ** Constants and helpers of the package that the two files use *)

(** Modelled from the spec: [MaxVarintLen64] is declared outside the two
    files; a varint "encodes with at most 10 bytes". *)
Definition MaxVarintLen64 : Z := 10.

(** Modelled from the spec: [ToVarint] is declared outside the two files;
    the spec only asks for "a reversible signed<->unsigned transform".  The
    zig-zag mapping is taken: [x := int64(ux >> 1); if ux&1 != 0 { x = ^x }]. *)
Definition ToVarint (ux : Z) : Z :=
  let x := to_signed 64 (Z.shiftr ux 1) in
  if Z.eqb (Z.land ux 1) 0 then x else Z.lnot x.

(** Modelled from the spec: [SizeofUvarint] is declared outside the two
    files; the length of the minimal varint of [ux], "between 1 and 10
    bytes". *)
Fixpoint SizeofUvarint_loop (fuel : nat) (n : Z) (i : Z) : Z :=
  match fuel with
  | O => i + 1
  | S f => if n >=? 128 then SizeofUvarint_loop f (Z.shiftr n 7) (i + 1) else i + 1
  end.

Definition SizeofUvarint (ux : Z) : Z := SizeofUvarint_loop 9 ux 0.

(** Modelled from the spec: [sizeofBoolArray] is declared outside the two
    files; "[ceil(count/8)] plus the already-consumed uvarint prefix
    length". *)
Definition sizeofBoolArray (_len : Z) : Z :=
  int_add (SizeofUvarint (to_uint64 _len)) (go_div (_len + 8 - 1) 8).

(** ** Shapes ([reflect.Type]) and destinations ([reflect.Value])

    A struct field carries the answer of [validField] for it (the
    type-descriptor collaborator, declared outside the two files): [true]
    when the field is included on the wire. *)

Inductive rtype : Type :=
| TBool | TInt | TInt8 | TInt16 | TInt32 | TInt64
| TUint | TUint8 | TUint16 | TUint32 | TUint64
| TFloat32 | TFloat64 | TComplex64 | TComplex128
| TString
| TSlice (e : rtype)
| TArray (n : nat) (e : rtype)
| TMap (k v : rtype)
| TStruct (fields : list (bool * rtype))
| TPtr (e : rtype)
| TOther.                     (* chan, func, interface, uintptr, unsafe pointer *)

(** The content of a destination.  A float is carried as the bit pattern
    it was read from: the decoders do no float arithmetic.  A map is carried
    as the sequence of its [SetMapIndex] calls, oldest first. *)
Inductive rvalue : Type :=
| VBool (b : bool)
| VInt (n : Z)
| VUint (n : Z)
| VFloat32 (bits : Z)
| VFloat64 (bits : Z)
| VComplex64 (re im : Z)
| VComplex128 (re im : Z)
| VString (s : list byte)
| VSlice (l : list rvalue)
| VArray (l : list rvalue)
| VMap (m : list (rvalue * rvalue))
| VStruct (fs : list rvalue)
| VPtr (p : option rvalue)
| VOther.

(** [reflect.New(t).Elem()], [reflect.Zero(t)]: the zero value of a shape. *)
Fixpoint zero (t : rtype) : rvalue :=
  match t with
  | TBool => VBool false
  | TInt | TInt8 | TInt16 | TInt32 | TInt64 => VInt 0
  | TUint | TUint8 | TUint16 | TUint32 | TUint64 => VUint 0
  | TFloat32 => VFloat32 0
  | TFloat64 => VFloat64 0
  | TComplex64 => VComplex64 0 0
  | TComplex128 => VComplex128 0 0
  | TString => VString []
  | TSlice _ => VSlice []
  | TArray n e => VArray (repeat (zero e) n)
  | TMap _ _ => VMap []
  | TStruct fields => VStruct (map (fun f => zero (snd f)) fields)
  | TPtr _ => VPtr None
  | TOther => VOther
  end.

(** [v.Len()] *)
Definition Len (v : rvalue) : Z :=
  match v with
  | VSlice l | VArray l => len l
  | VString s => len s
  | VMap m => len m
  | _ => 0
  end.

(** The elements behind [v.Index(i)]. *)
Definition elems (v : rvalue) : list rvalue :=
  match v with
  | VSlice l | VArray l => l
  | _ => []
  end.

Definition with_elems (v : rvalue) (l : list rvalue) : rvalue :=
  match v with
  | VArray _ => VArray l
  | _ => VSlice l
  end.

Fixpoint set_nth {A} (n : nat) (x : A) (l : list A) : list A :=
  match l, n with
  | [], _ => []
  | _ :: l', O => x :: l'
  | y :: l', S n' => y :: set_nth n' x l'
  end.

(** [v.Index(i)] faults when [i] is out of range. *)
Definition Index {S} (v : rvalue) (i : Z) : M S rvalue :=
  if (0 <=? i) && (i <? Len v)
  then match nth_error (elems v) (Z.to_nat i) with
       | Some x => ret x
       | None => panic PanicRuntime
       end
  else panic PanicRuntime.

(** Writing through [v.Index(i)]. *)
Definition SetIndex (v : rvalue) (i : Z) (x : rvalue) : rvalue :=
  with_elems v (set_nth (Z.to_nat i) x (elems v)).

(** [reflect.MakeSlice(t, n, n)] faults on a negative length. *)
Definition MakeSlice {S} (e : rtype) (n : Z) : M S rvalue :=
  if n <? 0 then panic PanicRuntime
  else ret (VSlice (repeat (zero e) (Z.to_nat n))).

(** [make([]T, n)] *)
Definition make {S A} (n : Z) (x : A) : M S (list A) :=
  if n <? 0 then panic PanicRuntime
  else ret (repeat x (Z.to_nat n)).

(** Modelled from the spec: [_fixTypeSize] is declared outside the two
    files; "for shapes with a statically fixed wire size (bool, fixed-width
    scalar kinds), the size is looked up"; every other shape has none. *)
Definition _fixTypeSize (t : rtype) : Z :=
  match t with
  | TBool | TInt8 | TUint8 => 1
  | TInt16 | TUint16 => 2
  | TInt32 | TUint32 | TFloat32 => 4
  | TInt64 | TUint64 | TFloat64 | TComplex64 => 8
  | TComplex128 => 16
  | _ => -1
  end.

Definition is_Bool (t : rtype) : bool :=
  match t with TBool => true | _ => false end.

(** ** io.Reader

    The stream is the list of the bytes it has not delivered yet;
    [Read(p)] delivers [min(len(p), remaining)] of them. *)

Definition Reader : Type := list byte.

Definition Read (r : Reader) (n : Z) : list byte * Reader :=
  (firstn (Z.to_nat n) r, skipn (Z.to_nat n) r).

(** The top-level argument [x interface{}] of [Value]. *)
Inductive iface : Type :=
| PtrTo (t : rtype) (v : rvalue)     (* a non-nil *T *)
| NonPtr (t : rtype) (v : rvalue).   (* a T passed by value *)

(** [for i, n := 0, cnt; i < n; i++ { s := body(); if s < 0 { return -1 }; sum += s }; return sum] *)
Fixpoint skip_loop {S} (n : nat) (body : M S Z) (sum : Z) : M S Z :=
  match n with
  | O => ret sum
  | S n' => s <- body ;;
            if s <? 0 then ret (-1) else skip_loop n' body (int_add sum s)
  end.

(** [b[0]] *)
Definition first_byte {S} (b : list byte) : M S Z :=
  match b with
  | x :: _ => ret (byte_to_Z x)
  | [] => panic PanicRuntime
  end.

(** A [complex64] or [complex128] read as a pair of floats. *)
Definition VComplex64' (c : Z * Z) : rvalue := VComplex64 (fst c) (snd c).
Definition VComplex128' (c : Z * Z) : rvalue := VComplex128 (fst c) (snd c).

Definition struct_fields (v : rvalue) : list rvalue :=
  match v with
  | VStruct fs => fs
  | _ => []
  end.

(** * The buffer-backed decoder (decoder.go) *)

Module Decoder.

Record t : Type := mk {
  buff : list byte;
  pos : Z;
  endian : Endian;
  reader : option Reader      (* for decode from reader only *)
}.

(** Modelled from the spec: [coder.reserve] is declared outside the two
    files; "[reserve(n)] returns the next n bytes and advances position by
    n, or fails with EndOfData if fewer than n bytes are available".  A
    negative [n] is a slice-bounds fault. *)
Definition coder_reserve (size : Z) : M t (list byte) := fun d =>
  if size <? 0 then Panic PanicRuntime
  else if pos d + size <=? len (buff d)
  then Ret (firstn (Z.to_nat size) (skipn (Z.to_nat (pos d)) (buff d)))
           (mk (buff d) (pos d + size) (endian d) (reader d))
  else Panic PanicUnexpectedEOF.

Definition reserve (size : Z) : M t (list byte) := fun d =>
  match reader d with
  | Some r => (* decode from reader *)
      let buff1 := if size >? len (buff d)
                   then repeat Byte.x00 (Z.to_nat size) else buff d in
      if size <? 0 then Panic PanicRuntime       (* this.buff[:size] *)
      else
        let (got, r') := Read r size in
        let buff2 := got ++ skipn (length got) buff1 in
        if len got <? size then Panic PanicUnexpectedEOF
        else Ret (firstn (Z.to_nat size) buff2)
                 (mk buff2 (pos d) (endian d) (Some r'))
  | None => (* decode from bytes buffer *)
      coder_reserve size d
  end.

(** [reserve] hands out a non-nil slice whenever it returns, so the [-1]
    branch of [Skip] is not taken. *)
Definition Skip (size : Z) : M t Z :=
  _ <- reserve size ;; ret size.

Definition Init (buffer : list byte) (e : Endian) (d : t) : t :=
  mk buffer 0 e (reader d).

(** A decoder over a byte buffer that has consumed [pre] and has [bs]
    left: every decoder with [reader = nil] and [0 <= pos <= len(buff)]. *)
Definition cursor (pre bs : list byte) (e : Endian) : t :=
  mk (pre ++ bs) (len pre) e None.

Definition NewDecoderEndian (buffer : list byte) (e : Endian) : t :=
  Init buffer e (mk [] 0 e None).

Definition Bool : M t bool :=
  b <- reserve 1 ;; x <- first_byte b ;; ret (negb (x =? 0)).

Definition Uint8 : M t Z :=
  b <- reserve 1 ;; first_byte b.

Definition Int8 : M t Z := x <- Uint8 ;; ret (to_signed 8 x).

Definition Uint16 : M t Z :=
  b <- reserve 2 ;; fun d => Ret (Uint16 (endian d) b) d.

Definition Int16 : M t Z := x <- Uint16 ;; ret (to_signed 16 x).

Definition Uint32 : M t Z :=
  b <- reserve 4 ;; fun d => Ret (Uint32 (endian d) b) d.

Definition Int32 : M t Z := x <- Uint32 ;; ret (to_signed 32 x).

Definition Uint64 : M t Z :=
  b <- reserve 8 ;; fun d => Ret (Uint64 (endian d) b) d.

Definition Int64 : M t Z := x <- Uint64 ;; ret (to_signed 64 x).

Definition Float32 : M t Z := Uint32.

Definition Float64 : M t Z := Uint64.

Definition Complex64 : M t (Z * Z) :=
  re <- Float32 ;; im <- Float32 ;; ret (re, im).

Definition Complex128 : M t (Z * Z) :=
  re <- Float64 ;; im <- Float64 ;; ret (re, im).

(** The loop of [Uvarint], [n] iterations left, at index [i]. *)
Fixpoint Uvarint_loop (n : nat) (i x bit : Z) : M t (Z * Z) :=
  match n with
  | O => ret (0, 0)
  | S n' =>
      b <- Uint8 ;;
      let x := Z.lor x (to_uint64 (Z.shiftl (Z.land b 127) bit)) in
      if b <? 128 then
        if (i >? 9) || ((i =? 9) && (b >? 1))
        then ret (0, - (i + 1))                  (* overflow *)
        else ret (x, i + 1)
      else Uvarint_loop n' (i + 1) x (bit + 7)
  end.

Definition Uvarint : M t (Z * Z) :=
  Uvarint_loop (Z.to_nat MaxVarintLen64) 0 0 0.

Definition Varint : M t (Z * Z) :=
  '(ux, n) <- Uvarint ;; ret (ToVarint ux, n).

Definition String : M t (list byte) :=
  '(s, _) <- Uvarint ;;
  let size := to_int s in
  reserve size.

Definition Int : M t Z := '(n, _) <- Varint ;; ret n.

Definition Uint : M t Z := '(n, _) <- Uvarint ;; ret n.

(** The loop shared by [boolArray] and the [*[]bool] fast path: element
    [i] is bit [i%8] of the data byte read when [i%8 == 0].  The loop state
    is the current data byte slice [b] and the destination. *)
Definition bool_step {D} (set : D -> Z -> bool -> M t D)
    (i : Z) (st : list byte * D) : M t (list byte * D) :=
  let '(b, d) := st in
  let bit := Z.rem i 8 in
  let mask := Z.shiftl 1 bit mod 256 in
  b <- (if bit =? 0 then reserve 1 else ret b) ;;
  b0 <- first_byte b ;;
  let x := negb (Z.land b0 mask =? 0) in
  d' <- set d i x ;;
  ret (b, d').

(** [v.Index(i).SetBool(x)] *)
Definition set_bool_at (v : rvalue) (i : Z) (x : bool) : M t rvalue :=
  _ <- Index v i ;; ret (SetIndex v i (VBool x)).

(** decode bool array *)
Definition boolArray (ty : rtype) (v : rvalue) : M t (Z * rvalue) :=
  match ty with
  | TSlice TBool | TArray _ TBool =>
      '(_l, _) <- Uvarint ;;
      let l := to_int _l in
      v1 <- (match ty with
             | TSlice _ => if l >? 0 then MakeSlice TBool l else ret v
             | _ => ret v
             end) ;;
      '(_, v2) <- for_loop (Z.to_nat l) 0 (bool_step set_bool_at) ([], v1) ;;
      ret (sizeofBoolArray l, v2)
  | _ => ret (-1, v)
  end.

Fixpoint skipByType (ty : rtype) : M t Z :=
  if 0 <? _fixTypeSize ty then
    _ <- Skip (_fixTypeSize ty) ;; ret (_fixTypeSize ty)
  else
  match ty with
  | TInt => '(_, n) <- Varint ;; ret n
  | TUint => '(_, n) <- Uvarint ;; ret n
  | TString =>
      '(s, n) <- Uvarint ;;
      let size := to_int s in                    (* string length and data *)
      _ <- Skip size ;;
      ret (int_add size n)
  | TSlice e | TArray _ e =>
      '(s, sLen) <- Uvarint ;;
      let cnt := to_int s in
      let s := _fixTypeSize e in
      if 0 <? s then
        if is_Bool e then                        (* compressed bool array *)
          let totalSize := sizeofBoolArray cnt in
          let size := int_sub totalSize (SizeofUvarint (to_uint64 cnt)) in
          _ <- Skip size ;;
          ret totalSize
        else
          let size := int_mul cnt s in
          _ <- Skip size ;;
          ret size
      else
        skip_loop (Z.to_nat cnt) (skipByType e) sLen
  | TMap kt vt =>
      '(s, sLen) <- Uvarint ;;
      let cnt := to_int s in
      for_loop (Z.to_nat cnt) 0
        (fun _ sum =>
           sk <- skipByType kt ;;
           sv <- skipByType vt ;;
           ret (int_add (int_add sum sk) sv))
        sLen
  | TStruct fields =>
      (fix fields_loop (fs : list (bool * rtype)) (sum : Z) : M t Z :=
         match fs with
         | [] => ret sum
         | f :: fs' =>
             s <- skipByType (snd f) ;;
             if s <? 0 then ret (-1) else fields_loop fs' (int_add sum s)
         end) fields 0
  | _ => ret (-1)
  end.

Section Value.

(** [newPtr] is a function of the package declared outside the two files:
    it reports whether the destination is a pointer it could make ready for
    decoding, and the destination as it leaves it. *)
Variable newPtr : rtype -> rvalue -> bool * rvalue.

Fixpoint value (ty : rtype) (v : rvalue) : M t (rvalue * option error) :=
  match ty with
  | TInt => x <- Int ;; ret (VInt x, None)
  | TUint => x <- Uint ;; ret (VUint x, None)
  | TBool => x <- Bool ;; ret (VBool x, None)
  | TInt8 => x <- Int8 ;; ret (VInt x, None)
  | TInt16 => x <- Int16 ;; ret (VInt x, None)
  | TInt32 => x <- Int32 ;; ret (VInt x, None)
  | TInt64 => x <- Int64 ;; ret (VInt x, None)
  | TUint8 => x <- Uint8 ;; ret (VUint x, None)
  | TUint16 => x <- Uint16 ;; ret (VUint x, None)
  | TUint32 => x <- Uint32 ;; ret (VUint x, None)
  | TUint64 => x <- Uint64 ;; ret (VUint x, None)
  | TFloat32 => x <- Float32 ;; ret (VFloat32 x, None)
  | TFloat64 => x <- Float64 ;; ret (VFloat64 x, None)
  | TComplex64 => '(re, im) <- Complex64 ;; ret (VComplex64 re im, None)
  | TComplex128 => '(re, im) <- Complex128 ;; ret (VComplex128 re im, None)
  | TString => s <- String ;; ret (VString s, None)
  | TSlice e | TArray _ e =>
      '(r, v1) <- boolArray ty v ;;
      if r <? 0 then                             (* deal with bool array first *)
        '(s, _) <- Uvarint ;;
        let size := to_int s in
        v2 <- (match ty with
               | TSlice _ => MakeSlice e size    (* make a new slice *)
               | _ => ret v1
               end) ;;
        let l := Len v2 in
        v3 <- for_loop (Z.to_nat size) 0
                (fun i w =>
                   if i <? l then
                     x <- Index w i ;;
                     '(x', _) <- value e x ;;
                     ret (SetIndex w i x')
                   else
                     _ <- skipByType e ;; ret w)
                v2 ;;
        ret (v3, None)
      else ret (v1, None)
  | TMap kt vt =>
      '(s, _) <- Uvarint ;;
      let size := to_int s in
      m <- for_loop (Z.to_nat size) 0
             (fun _ m =>
                '(key, _) <- value kt (zero kt) ;;
                '(val, _) <- value vt (zero vt) ;;
                ret (m ++ [(key, val)]))
             [] ;;
      ret (VMap m, None)
  | TStruct fields =>
      fs <- (fix fields_loop (fs : list (bool * rtype)) (vs : list rvalue)
               : M t (list rvalue) :=
               match fs with
               | [] => ret vs
               | f :: fs' =>
                   match vs with
                   | [] => panic PanicRuntime
                   | x :: vs' =>
                       x' <- (if fst f
                              then '(x', _) <- value (snd f) x ;; ret x'
                              else ret x) ;;
                       rest <- fields_loop fs' vs' ;;
                       ret (x' :: rest)
                   end
               end) fields (struct_fields v) ;;
      ret (VStruct fs, None)
  | TPtr e =>
      let (ok, v1) := newPtr ty v in
      if ok then
        match v1 with
        | VPtr (Some p) => '(p', err) <- value e p ;; ret (VPtr (Some p'), err)
        | _ => panic PanicRuntime                (* v.Elem() is the zero Value *)
        end
      else ret (v, Some ErrUnsupportedType)
  | TOther =>
      let (ok, v1) := newPtr ty v in
      if ok then panic PanicRuntime              (* v.Elem() of a non-pointer *)
      else ret (v, Some ErrUnsupportedType)
  end.

End Value.

(** The cases [*[]T] of [fastValue] other than [*[]bool]:
    read the count [l], make a slice of [l] elements, read element
    [0], ..., [l-1] with the accessor of [T]. *)
Definition fast_slice {A} (read : M t A) (z : A) (inj : A -> rvalue)
  : M t rvalue :=
  '(s, _) <- Uvarint ;;
  let l := to_int s in
  d <- make l z ;;
  d' <- for_loop (Z.to_nat l) 0
          (fun i d => x <- read ;; ret (set_nth (Z.to_nat i) x d)) d ;;
  ret (VSlice (map inj d')).

(** [fastValue] on a [*T]: [Some] of the new pointee when the type switch
    has a case for [*T]. *)
Definition fast (ty : rtype) : option (M t rvalue) :=
  match ty with
  | TInt => Some (x <- Int ;; ret (VInt x))
  | TUint => Some (x <- Uint ;; ret (VUint x))
  | TBool => Some (x <- Bool ;; ret (VBool x))
  | TInt8 => Some (x <- Int8 ;; ret (VInt x))
  | TUint8 => Some (x <- Uint8 ;; ret (VUint x))
  | TInt16 => Some (x <- Int16 ;; ret (VInt x))
  | TUint16 => Some (x <- Uint16 ;; ret (VUint x))
  | TInt32 => Some (x <- Int32 ;; ret (VInt x))
  | TUint32 => Some (x <- Uint32 ;; ret (VUint x))
  | TFloat32 => Some (x <- Float32 ;; ret (VFloat32 x))
  | TInt64 => Some (x <- Int64 ;; ret (VInt x))
  | TUint64 => Some (x <- Uint64 ;; ret (VUint x))
  | TFloat64 => Some (x <- Float64 ;; ret (VFloat64 x))
  | TComplex64 => Some (x <- Complex64 ;; ret (VComplex64' x))
  | TComplex128 => Some (x <- Complex128 ;; ret (VComplex128' x))
  | TString => Some (x <- String ;; ret (VString x))
  | TSlice TBool =>
      Some ('(s, _) <- Uvarint ;;
            let l := to_int s in
            d <- make l false ;;
            '(_, d') <- for_loop (Z.to_nat l) 0
                          (bool_step (fun d i x => ret (set_nth (Z.to_nat i) x d)))
                          ([], d) ;;
            ret (VSlice (map VBool d')))
  | TSlice TInt => Some (fast_slice Int 0 VInt)
  | TSlice TUint => Some (fast_slice Uint 0 VUint)
  | TSlice TInt8 => Some (fast_slice Int8 0 VInt)
  | TSlice TUint8 => Some (fast_slice Uint8 0 VUint)
  | TSlice TInt16 => Some (fast_slice Int16 0 VInt)
  | TSlice TUint16 => Some (fast_slice Uint16 0 VUint)
  | TSlice TInt32 => Some (fast_slice Int32 0 VInt)
  | TSlice TUint32 => Some (fast_slice Uint32 0 VUint)
  | TSlice TInt64 => Some (fast_slice Int64 0 VInt)
  | TSlice TUint64 => Some (fast_slice Uint64 0 VUint)
  | TSlice TFloat32 => Some (fast_slice Float32 0 VFloat32)
  | TSlice TFloat64 => Some (fast_slice Float64 0 VFloat64)
  | TSlice TComplex64 => Some (fast_slice Complex64 (0, 0) VComplex64')
  | TSlice TComplex128 => Some (fast_slice Complex128 (0, 0) VComplex128')
  | TSlice TString => Some (fast_slice String [] VString)
  | _ => None
  end.

Definition fastValue (x : iface) : M t (bool * iface) :=
  match x with
  | PtrTo ty _ =>
      match fast ty with
      | Some m => v <- m ;; ret (true, PtrTo ty v)
      | None => ret (false, x)
      end
  | NonPtr _ _ => ret (false, x)
  end.

Section Entry.

Variable newPtr : rtype -> rvalue -> bool * rvalue.

(** The body of [Value], before the deferred [recover]. *)
Definition Value_body (x : iface) : M t (iface * option error) :=
  '(ok, x1) <- fastValue x ;;
  if ok then ret (x1, None)                      (* fast value path *)
  else
    match x with
    | PtrTo ty v =>                   (* only support decode for pointer interface *)
        '(v', err) <- value newPtr (TPtr ty) (VPtr (Some v)) ;;
        match v' with
        | VPtr (Some p) => ret (PtrTo ty p, err)
        | _ => ret (x, err)
        end
    | NonPtr _ _ => ret (x, Some ErrNonPointer)
    end.

(** What the caller of [Value] sees: a normal return with the error, the
    destination and the decoder, or the return the deferred function forces
    after a fault, [err = io.ErrUnexpectedEOF], with the destination and the
    cursor left as the fault found them. *)
Inductive outcome : Type :=
| Returned (err : option error) (x : iface) (d : t)
| Recovered (err : error).

Definition Value (x : iface) (d : t) : outcome :=
  match Value_body x d with
  | Ret (x', err) d' => Returned err x' d'
  | Panic _ => Recovered ErrUnexpectedEOF
  end.

End Entry.

End Decoder.

(** * The stream-backed decoder (decoder_reader.go) *)

Module decoderReader.

Record t : Type := mk {
  r : Reader;
  endian : Endian;
  buff : list byte
}.

Definition Init (rd : Reader) (e : Endian) : t :=
  mk rd e (repeat Byte.x00 16).

Definition reserve (size : Z) : M t (list byte) := fun d =>
  let buff1 := if size >? len (buff d)
               then repeat Byte.x00 (Z.to_nat size) else buff d in
  if size <? 0 then Panic PanicRuntime           (* this.buff[:size] *)
  else
    let (got, r') := Read (r d) size in
    let buff2 := got ++ skipn (length got) buff1 in
    if len got <? size then Panic PanicUnexpectedEOF
    else Ret (firstn (Z.to_nat size) buff2) (mk r' (endian d) buff2).

(** [reserve] hands out a non-nil slice whenever it returns, so the [-1]
    branch of [Skip] is not taken. *)
Definition Skip (size : Z) : M t Z :=
  _ <- reserve size ;; ret size.

Definition Bool : M t bool :=
  b <- reserve 1 ;; x <- first_byte b ;; ret (negb (x =? 0)).

Definition Uint8 : M t Z :=
  b <- reserve 1 ;; first_byte b.

Definition Int8 : M t Z := x <- Uint8 ;; ret (to_signed 8 x).

Definition Uint16 : M t Z :=
  b <- reserve 2 ;; fun d => Ret (Uint16 (endian d) b) d.

Definition Int16 : M t Z := x <- Uint16 ;; ret (to_signed 16 x).

Definition Uint32 : M t Z :=
  b <- reserve 4 ;; fun d => Ret (Uint32 (endian d) b) d.

Definition Int32 : M t Z := x <- Uint32 ;; ret (to_signed 32 x).

Definition Uint64 : M t Z :=
  b <- reserve 8 ;; fun d => Ret (Uint64 (endian d) b) d.

Definition Int64 : M t Z := x <- Uint64 ;; ret (to_signed 64 x).

Definition Float32 : M t Z := Uint32.

Definition Float64 : M t Z := Uint64.

Definition Complex64 : M t (Z * Z) :=
  re <- Float32 ;; im <- Float32 ;; ret (re, im).

Definition Complex128 : M t (Z * Z) :=
  re <- Float64 ;; im <- Float64 ;; ret (re, im).

(** The loop of [Uvarint], [n] iterations left, at index [i]. *)
Fixpoint Uvarint_loop (n : nat) (i x bit : Z) : M t (Z * Z) :=
  match n with
  | O => ret (0, 0)
  | S n' =>
      b <- Uint8 ;;
      if b <? 128 then
        if (i >? 9) || ((i =? 9) && (b >? 1))
        then ret (0, - (i + 1))                  (* overflow *)
        else ret (Z.lor x (to_uint64 (Z.shiftl b bit)), i + 1)
      else
        let x := Z.lor x (to_uint64 (Z.shiftl (Z.land b 127) bit)) in
        Uvarint_loop n' (i + 1) x (bit + 7)
  end.

Definition Uvarint : M t (Z * Z) :=
  Uvarint_loop (Z.to_nat MaxVarintLen64) 0 0 0.

Definition Varint : M t (Z * Z) :=
  '(ux, n) <- Uvarint ;; ret (ToVarint ux, n).

Definition String : M t (list byte) :=
  '(s, _) <- Uvarint ;;
  let size := to_int s in
  reserve size.

(** The loop shared by [boolArray] and the [*[]bool] fast path. *)
Definition bool_step {D} (set : D -> Z -> bool -> M t D)
    (i : Z) (st : list byte * D) : M t (list byte * D) :=
  let '(b, d) := st in
  let bit := Z.rem i 8 in
  let mask := Z.shiftl 1 bit mod 256 in
  b <- (if bit =? 0 then reserve 1 else ret b) ;;
  b0 <- first_byte b ;;
  let x := negb (Z.land b0 mask =? 0) in
  d' <- set d i x ;;
  ret (b, d').

(** [v.Index(i).SetBool(x)] *)
Definition set_bool_at (v : rvalue) (i : Z) (x : bool) : M t rvalue :=
  _ <- Index v i ;; ret (SetIndex v i (VBool x)).

(** decode bool array *)
Definition boolArray (ty : rtype) (v : rvalue) : M t (Z * rvalue) :=
  match ty with
  | TSlice TBool | TArray _ TBool =>
      '(_l, _) <- Uvarint ;;
      let l := to_int _l in
      v1 <- (match ty with
             | TSlice _ => if l >? 0 then MakeSlice TBool l else ret v
             | _ => ret v
             end) ;;
      '(_, v2) <- for_loop (Z.to_nat l) 0 (bool_step set_bool_at) ([], v1) ;;
      ret (sizeofBoolArray l, v2)
  | _ => ret (-1, v)
  end.

Fixpoint skipByType (ty : rtype) : M t Z :=
  if 0 <? _fixTypeSize ty then
    _ <- Skip (_fixTypeSize ty) ;; ret (_fixTypeSize ty)
  else
  match ty with
  | TString =>
      '(s, _) <- Uvarint ;;
      let size := to_int s in                    (* string length and data *)
      _ <- Skip size ;;
      ret size
  | TSlice e | TArray _ e =>
      '(s, sLen) <- Uvarint ;;
      let cnt := to_int s in
      let s := _fixTypeSize e in
      if 0 <? s then
        if is_Bool e then                        (* compressed bool array *)
          let totalSize := sizeofBoolArray cnt in
          let size := int_sub totalSize sLen in  (* cnt has been read *)
          _ <- Skip size ;;
          ret totalSize
        else
          let size := int_mul cnt s in
          _ <- Skip size ;;
          ret size
      else
        skip_loop (Z.to_nat cnt) (skipByType e) sLen
  | TMap kt vt =>
      '(s, sLen) <- Uvarint ;;
      let cnt := to_int s in
      for_loop (Z.to_nat cnt) 0
        (fun _ sum =>
           sk <- skipByType kt ;;
           sv <- skipByType vt ;;
           ret (int_add (int_add sum sk) sv))
        sLen
  | TStruct fields =>
      (fix fields_loop (fs : list (bool * rtype)) (sum : Z) : M t Z :=
         match fs with
         | [] => ret sum
         | f :: fs' =>
             s <- skipByType (snd f) ;;
             if s <? 0 then ret (-1) else fields_loop fs' (int_add sum s)
         end) fields 0
  | _ => ret (-1)
  end.

(** [newPtr]: a nil pointer to a supported kind is set to fresh zeroed
    storage; anything else is refused. *)
Definition newPtr (ty : rtype) (v : rvalue) : bool * rvalue :=
  match ty, v with
  | TPtr e, VPtr None =>
      match e with
      | TBool | TInt8 | TUint8 | TInt16
      | TUint16 | TInt32 | TUint32 | TInt64
      | TUint64 | TFloat32 | TFloat64 | TComplex64
      | TComplex128 | TString | TArray _ _ | TStruct _ | TSlice _ | TMap _ _ =>
          (true, VPtr (Some (zero e)))
      | _ => (false, v)
      end
  | _, _ => (false, v)
  end.

(** The [default] case of [value]. *)
Definition value_default (value_e : option (rvalue -> M t (rvalue * option error)))
    (ty : rtype) (v : rvalue) : M t (rvalue * option error) :=
  let (ok, v1) := newPtr ty v in
  if ok then
    match value_e, v1 with
    | Some dec, VPtr (Some p) => '(p', err) <- dec p ;; ret (VPtr (Some p'), err)
    | _, _ => panic PanicRuntime
    end
  else ret (v, Some ErrUnsupportedType).

Fixpoint value (ty : rtype) (v : rvalue) : M t (rvalue * option error) :=
  match ty with
  | TBool => x <- Bool ;; ret (VBool x, None)
  | TInt8 => x <- Int8 ;; ret (VInt x, None)
  | TInt16 => x <- Int16 ;; ret (VInt x, None)
  | TInt32 => x <- Int32 ;; ret (VInt x, None)
  | TInt64 => x <- Int64 ;; ret (VInt x, None)
  | TUint8 => x <- Uint8 ;; ret (VUint x, None)
  | TUint16 => x <- Uint16 ;; ret (VUint x, None)
  | TUint32 => x <- Uint32 ;; ret (VUint x, None)
  | TUint64 => x <- Uint64 ;; ret (VUint x, None)
  | TFloat32 => x <- Float32 ;; ret (VFloat32 x, None)
  | TFloat64 => x <- Float64 ;; ret (VFloat64 x, None)
  | TComplex64 => re <- Float32 ;; im <- Float32 ;; ret (VComplex64 re im, None)
  | TComplex128 => re <- Float64 ;; im <- Float64 ;; ret (VComplex128 re im, None)
  | TString => s <- String ;; ret (VString s, None)
  | TSlice e | TArray _ e =>
      '(n, v1) <- boolArray ty v ;;
      if n <? 0 then                             (* deal with bool array first *)
        '(s, _) <- Uvarint ;;
        let size := to_int s in
        v2 <- (match ty with
               | TSlice _ => MakeSlice e size    (* make a new slice *)
               | _ => ret v1
               end) ;;
        let l := Len v2 in
        v3 <- for_loop (Z.to_nat size) 0
                (fun i w =>
                   if i <? l then
                     x <- Index w i ;;
                     '(x', _) <- value e x ;;
                     ret (SetIndex w i x')
                   else
                     _ <- skipByType e ;; ret w)
                v2 ;;
        ret (v3, None)
      else ret (v1, None)
  | TMap kt vt =>
      '(s, _) <- Uvarint ;;
      let size := to_int s in
      m <- for_loop (Z.to_nat size) 0
             (fun _ m =>
                '(key, _) <- value kt (zero kt) ;;
                '(val, _) <- value vt (zero vt) ;;
                ret (m ++ [(key, val)]))
             [] ;;
      ret (VMap m, None)
  | TStruct fields =>
      fs <- (fix fields_loop (fs : list (bool * rtype)) (vs : list rvalue)
               : M t (list rvalue) :=
               match fs with
               | [] => ret vs
               | f :: fs' =>
                   match vs with
                   | [] => panic PanicRuntime
                   | x :: vs' =>
                       x' <- (if fst f
                              then '(x', _) <- value (snd f) x ;; ret x'
                              else ret x) ;;
                       rest <- fields_loop fs' vs' ;;
                       ret (x' :: rest)
                   end
               end) fields (struct_fields v) ;;
      ret (VStruct fs, None)
  | TPtr e => value_default (Some (value e)) ty v
  | TInt | TUint | TOther => value_default None ty v
  end.

(** The cases [*[]T] of [fastValue] other than [*[]bool]:
    read the count [l], make a slice of [l] elements, read element
    [0], ..., [l-1] with the accessor of [T]. *)
Definition fast_slice {A} (read : M t A) (z : A) (inj : A -> rvalue)
  : M t rvalue :=
  '(s, _) <- Uvarint ;;
  let l := to_int s in
  d <- make l z ;;
  d' <- for_loop (Z.to_nat l) 0
          (fun i d => x <- read ;; ret (set_nth (Z.to_nat i) x d)) d ;;
  ret (VSlice (map inj d')).

(** [fastValue] on a [*T]: [Some] of the new pointee when the type switch
    has a case for [*T]. *)
Definition fast (ty : rtype) : option (M t rvalue) :=
  match ty with
  | TBool => Some (x <- Bool ;; ret (VBool x))
  | TInt8 => Some (x <- Int8 ;; ret (VInt x))
  | TUint8 => Some (x <- Uint8 ;; ret (VUint x))
  | TInt16 => Some (x <- Int16 ;; ret (VInt x))
  | TUint16 => Some (x <- Uint16 ;; ret (VUint x))
  | TInt32 => Some (x <- Int32 ;; ret (VInt x))
  | TUint32 => Some (x <- Uint32 ;; ret (VUint x))
  | TFloat32 => Some (x <- Float32 ;; ret (VFloat32 x))
  | TInt64 => Some (x <- Int64 ;; ret (VInt x))
  | TUint64 => Some (x <- Uint64 ;; ret (VUint x))
  | TFloat64 => Some (x <- Float64 ;; ret (VFloat64 x))
  | TComplex64 => Some (x <- Complex64 ;; ret (VComplex64' x))
  | TComplex128 => Some (x <- Complex128 ;; ret (VComplex128' x))
  | TString => Some (x <- String ;; ret (VString x))
  | TSlice TBool =>
      Some ('(s, _) <- Uvarint ;;
            let l := to_int s in
            d <- make l false ;;
            '(_, d') <- for_loop (Z.to_nat l) 0
                          (bool_step (fun d i x => ret (set_nth (Z.to_nat i) x d)))
                          ([], d) ;;
            ret (VSlice (map VBool d')))
  | TSlice TInt8 => Some (fast_slice Int8 0 VInt)
  | TSlice TUint8 => Some (fast_slice Uint8 0 VUint)
  | TSlice TInt16 => Some (fast_slice Int16 0 VInt)
  | TSlice TUint16 => Some (fast_slice Uint16 0 VUint)
  | TSlice TInt32 => Some (fast_slice Int32 0 VInt)
  | TSlice TUint32 => Some (fast_slice Uint32 0 VUint)
  | TSlice TInt64 => Some (fast_slice Int64 0 VInt)
  | TSlice TUint64 => Some (fast_slice Uint64 0 VUint)
  | TSlice TFloat32 => Some (fast_slice Float32 0 VFloat32)
  | TSlice TFloat64 => Some (fast_slice Float64 0 VFloat64)
  | TSlice TComplex64 => Some (fast_slice Complex64 (0, 0) VComplex64')
  | TSlice TComplex128 => Some (fast_slice Complex128 (0, 0) VComplex128')
  | TSlice TString => Some (fast_slice String [] VString)
  | _ => None
  end.

Definition fastValue (x : iface) : M t (bool * iface) :=
  match x with
  | PtrTo ty _ =>
      match fast ty with
      | Some m => v <- m ;; ret (true, PtrTo ty v)
      | None => ret (false, x)
      end
  | NonPtr _ _ => ret (false, x)
  end.

(** [Value] has no deferred function: a fault leaves it as a fault. *)
Definition Value (x : iface) : M t (iface * option error) :=
  '(ok, x1) <- fastValue x ;;
  if ok then ret (x1, None)                      (* fast value path *)
  else
    match x with
    | PtrTo ty v =>                   (* only support decode for pointer interface *)
        '(v', err) <- value ty v ;;   (* reflect.Indirect(v) *)
        ret (PtrTo ty v', err)
    | NonPtr _ _ => ret (x, Some ErrNonPointer)
    end.

End decoderReader.

(** * The encoder's side of the wire format *)

(** Modelled from the spec: the encoder is not part of the two files.  The
    minimal "unsigned-LEB128-style varint": 7 payload bits per byte, least
    significant group first, the high bit set on every byte but the last,
    "no redundant continuation bytes". *)
Fixpoint PutUvarint_loop (fuel : nat) (x : Z) : list byte :=
  match fuel with
  | O => [byte_of_Z x]
  | S f =>
      if x >=? 128
      then byte_of_Z (Z.lor (x mod 256) 128) :: PutUvarint_loop f (Z.shiftr x 7)
      else [byte_of_Z x]
  end.

Definition PutUvarint (x : Z) : list byte := PutUvarint_loop 9 x.

(** The number the bytes of a varint stand for: the low 7 bits of each
    byte, least significant group first. *)
Fixpoint varint_value (bs : list byte) : Z :=
  match bs with
  | [] => 0
  | b :: bs' => Z.land (byte_to_Z b) 127 + 128 * varint_value bs'
  end.

(** Modelled from the spec: the encoder's bit-packing of a bool sequence
    is not part of the two files.  "Bit [i] of the sequence is stored at
    byte [i/8], bit position [i%8] (least-significant-bit-first within each
    byte), value 1 = true." *)
Definition bool_at (data : list byte) (i : nat) : bool :=
  Z.testbit (byte_to_Z (nth (i / 8) data Byte.x00)) (Z.of_nat (i mod 8)).

Definition unpack_bools (data : list byte) (l : nat) : list bool :=
  map (bool_at data) (seq 0 l).

(** The data byte the bool loop holds in [b] after [k] elements. *)
Definition held (data : list byte) (k : nat) : list byte :=
  match k with
  | O => []
  | S k' => [nth (k' / 8) data Byte.x00]
  end.

(** Modelled from the spec: the wire format of a shape (the encoder is not
    part of the two files).  Fixed-width scalars are their raw bytes;
    natural int and uint the minimal varint; text a uvarint byte length and
    the bytes; a bool sequence a uvarint count and [ceil(count/8)] packed
    bytes; any other sequence a uvarint count and the elements' encodings;
    a mapping a uvarint count and the (key, value) encodings; a record the
    encodings of its included fields in declaration order, "excluded fields
    contribute zero bytes"; a reference "the pointee's encoding directly".
    Counts fit a non-negative [int]. *)
Fixpoint wire (ty : rtype) (bs : list byte) : Prop :=
  match ty with
  | TInt | TUint => exists x, 0 <= x < 2 ^ 64 /\ bs = PutUvarint x
  | TString => exists data, bs = PutUvarint (len data) ++ data
  | TSlice e | TArray _ e =>
      if is_Bool e
      then exists c data,
             0 <= c < 2 ^ 63 /\ len data = (c + 7) / 8 /\
             bs = PutUvarint c ++ data
      else exists bss,
             len bss < 2 ^ 63 /\ Forall (wire e) bss /\
             bs = PutUvarint (len bss) ++ concat bss
  | TMap kt vt =>
      exists kvs,
        len kvs < 2 ^ 63 /\
        Forall (fun p => wire kt (fst p) /\ wire vt (snd p)) kvs /\
        bs = PutUvarint (len kvs) ++ concat (map (fun p => fst p ++ snd p) kvs)
  | TStruct fields =>
      (fix fields_wire (fs : list (bool * rtype)) (bs : list byte) : Prop :=
         match fs with
         | [] => bs = []
         | f :: fs' =>
             if fst f
             then exists b1 b2,
                    bs = b1 ++ b2 /\ wire (snd f) b1 /\ fields_wire fs' b2
             else fields_wire fs' bs
         end) fields bs
  | TPtr e => wire e bs
  | TOther => False
  | _ => len bs = _fixTypeSize ty
  end.

(** Shapes the skip engine follows the decoder on: no pointer and no
    unsupported kind (the skip engine has no case for them), every record
    field included (the skip engine walks all fields), no fixed-capacity
    bool array (its decode indexes the destination without a capacity
    check). *)
Fixpoint skippable (ty : rtype) : bool :=
  match ty with
  | TPtr _ | TOther => false
  | TSlice e => skippable e
  | TArray _ e => skippable e && negb (is_Bool e)
  | TMap kt vt => skippable kt && skippable vt
  | TStruct fields => forallb (fun f => fst f && skippable (snd f)) fields
  | _ => true
  end.

(** Shapes on which the skip engine counts every byte it consumes: no
    sequence of fixed-width non-bool elements (for them it returns
    [cnt * s] without the length of the count). *)
Fixpoint exact_count (ty : rtype) : bool :=
  match ty with
  | TSlice e | TArray _ e =>
      if 0 <? _fixTypeSize e then is_Bool e else exact_count e
  | TMap kt vt => exact_count kt && exact_count vt
  | TStruct fields => forallb (fun f => exact_count (snd f)) fields
  | _ => true
  end.

(** The destination has the storage its shape declares: an array is an
    array and a record a record, with fitting slots. *)
Fixpoint fits (ty : rtype) (v : rvalue) : Prop :=
  match ty with
  | TArray _ e => exists l, v = VArray l /\ Forall (fits e) l
  | TStruct fields =>
      exists vs,
        v = VStruct vs /\
        (fix fields_fit (fs : list (bool * rtype)) (vs : list rvalue) : Prop :=
           match fs, vs with
           | [], _ => True
           | f :: fs', x :: vs' => fits (snd f) x /\ fields_fit fs' vs'
           | _ :: _, [] => False
           end) fields vs
  | _ => True
  end.

(** The skip engine passes exactly [enc] and returns [n]. *)
Definition skips (ty : rtype) (enc : list byte) (n : Z) : Prop :=
  forall pre rest e,
    Decoder.skipByType ty (Decoder.cursor pre (enc ++ rest) e)
    = Ret n (Decoder.cursor (pre ++ enc) rest e).

(** Under byte order [e] the decoder turns destination [v] into [v'],
    passing exactly [enc], and returns no error. *)
Definition decodes (newPtr : rtype -> rvalue -> bool * rvalue) (e : Endian)
    (ty : rtype) (v : rvalue) (enc : list byte) (v' : rvalue) : Prop :=
  forall pre rest,
    Decoder.value newPtr ty v (Decoder.cursor pre (enc ++ rest) e)
    = Ret (v', None) (Decoder.cursor (pre ++ enc) rest e).

(** Under byte order [e] the accessor [m] passes exactly [n] bytes, with
    a result that depends on those bytes only. *)
Definition reads {A} (m : M Decoder.t A) (e : Endian) (n : Z) : Prop :=
  forall enc, len enc = n ->
  exists a, forall pre rest,
    m (Decoder.cursor pre (enc ++ rest) e)
    = Ret a (Decoder.cursor (pre ++ enc) rest e).

(** The body of the element loop of [Decoder.value] on a slice or an
    array whose destination has [cap] slots. *)
Definition seq_body (newPtr : rtype -> rvalue -> bool * rvalue) (e : rtype)
    (cap : Z) (i : Z) (w : rvalue) : M Decoder.t rvalue :=
  if i <? cap then
    x <- Index w i ;;
    '(x', _) <- Decoder.value newPtr e x ;;
    ret (SetIndex w i x')
  else
    _ <- Decoder.skipByType e ;; ret w.

(** What is proved of the skip engine on a shape: on a well-formed
    encoding shorter than [2^63] bytes it passes exactly the encoding, and
    the count it returns is at most the bytes passed, equal to them on the
    shapes of [exact_count]. *)
Definition skip_ok (ty : rtype) : Prop :=
  skippable ty = true ->
  forall enc, wire ty enc -> len enc < 2 ^ 63 ->
  exists n, skips ty enc n /\ 0 <= n <= len enc /\
            (exact_count ty = true -> n = len enc).

(** What is proved of the decoder on a shape: on a well-formed encoding
    it passes exactly the encoding, into any fitting destination. *)
Definition decode_ok (newPtr : rtype -> rvalue -> bool * rvalue) (e0 : Endian)
    (ty : rtype) : Prop :=
  skippable ty = true ->
  forall enc, wire ty enc -> len enc < 2 ^ 63 ->
  forall v, fits ty v -> exists v', decodes newPtr e0 ty v enc v'.

(** * The two backends on the same bytes *)

(** The buffer decoder has in front of it the bytes the stream has not
    delivered, and both use the same byte order. *)
Definition same_input (d : Decoder.t) (s : decoderReader.t) : Prop :=
  exists pre,
    d = Decoder.cursor pre (decoderReader.r s) (decoderReader.endian s).

(** Two runs agree: the same result from the same consumed bytes, or the
    same fault. *)
Definition agree {A} (x : res Decoder.t A) (y : res decoderReader.t A) : Prop :=
  match x, y with
  | Ret a d, Ret b s => a = b /\ same_input d s
  | Panic p, Panic q => p = q
  | _, _ => False
  end.

Definition sim {A} (m1 : M Decoder.t A) (m2 : M decoderReader.t A) : Prop :=
  forall d s, same_input d s -> agree (m1 d) (m2 s).

(** Shapes on which the two skip engines are the same code: no text (the
    stream engine leaves the prefix length out of its result), no natural
    int or uint (the stream engine has no case for them), no bool sequence
    (the two engines subtract different prefix lengths). *)
Fixpoint skip_same (ty : rtype) : bool :=
  match ty with
  | TInt | TUint | TString => false
  | TSlice e | TArray _ e =>
      if 0 <? _fixTypeSize e then negb (is_Bool e) else skip_same e
  | TMap kt vt => skip_same kt && skip_same vt
  | TStruct fields => forallb (fun f => skip_same (snd f)) fields
  | _ => true
  end.

Definition is_String (ty : rtype) : bool :=
  match ty with TString => true | _ => false end.

(** Shapes both decoders have a decode rule for that does not go through
    [newPtr]: no natural int or uint, no pointer, no unsupported kind, in
    any decoded position; a fixed-capacity array has elements on which the
    two skip engines consume alike. *)
Fixpoint common (ty : rtype) : bool :=
  match ty with
  | TInt | TUint | TPtr _ | TOther => false
  | TSlice e => common e
  | TArray _ e => common e && (skip_same e || is_String e)
  | TMap kt vt => common kt && common vt
  | TStruct fields => forallb (fun f => negb (fst f) || common (snd f)) fields
  | _ => true
  end.

(** The pointee kinds outside the list of [decoderReader.newPtr]: natural
    int and uint, pointers, and the kinds with no decode rule. *)
Definition ptr_kind_supported (e : rtype) : bool :=
  match e with
  | TInt | TUint | TPtr _ | TOther => false
  | _ => true
  end.

(** * What every operation keeps *)

(** Every run of [m] that returns has taken a [step]. *)
Definition preserves {St A} (step : St -> St -> Prop) (m : M St A) : Prop :=
  forall s a s', m s = Ret a s' -> step s s'.

(** Every result of [m] satisfies [P]. *)
Definition yields {St A} (P : A -> Prop) (m : M St A) : Prop :=
  forall s a s', m s = Ret a s' -> P a.

(** A step of the buffer-backed decoder.  The byte order stays.  Without a
    reader the buffer stays and [pos] moves forward, and not past the end of
    the buffer; with a reader [pos] stays, the scratch buffer does not
    shrink and the reader has delivered a prefix of what it held. *)
Definition Decoder_step (d d' : Decoder.t) : Prop :=
  Decoder.endian d' = Decoder.endian d /\
  match Decoder.reader d with
  | None =>
      Decoder.reader d' = None /\ Decoder.buff d' = Decoder.buff d /\
      Decoder.pos d <= Decoder.pos d'
      <= Z.max (Decoder.pos d) (len (Decoder.buff d))
  | Some r =>
      Decoder.pos d' = Decoder.pos d /\
      len (Decoder.buff d) <= len (Decoder.buff d') /\
      exists used r', r = used ++ r' /\ Decoder.reader d' = Some r'
  end.

(** A step of the stream-backed decoder: the byte order stays, the scratch
    buffer does not shrink and the stream has delivered a prefix of what it
    held. *)
Definition decoderReader_step (s s' : decoderReader.t) : Prop :=
  decoderReader.endian s' = decoderReader.endian s /\
  len (decoderReader.buff s) <= len (decoderReader.buff s') /\
  exists used, decoderReader.r s = used ++ decoderReader.r s'.

(** A run of the buffer-backed decoder is framed: when it returns from a
    cursor it has passed a prefix [used] of the unread bytes; from any other
    cursor that has [used] in front of it, whatever precedes and follows, it
    returns the same result having passed [used]; and from a cursor that
    has only a proper prefix of [used] left it faults with
    [io.ErrUnexpectedEOF]. *)
Definition framed {A} (m : M Decoder.t A) : Prop :=
  forall pre bs e a d',
    m (Decoder.cursor pre bs e) = Ret a d' ->
    exists used rest,
      bs = used ++ rest /\ d' = Decoder.cursor (pre ++ used) rest e /\
      (forall pre' rest',
         m (Decoder.cursor pre' (used ++ rest') e)
         = Ret a (Decoder.cursor (pre' ++ used) rest' e)) /\
      (forall pre' t more,
         used = t ++ more -> more <> [] ->
         m (Decoder.cursor pre' t e) = Panic PanicUnexpectedEOF).

(** Two runs of the stream decoder end alike: the same result with the
    same bytes left on the stream and the same byte order, or the same
    fault. *)
Definition same_outcome {A} (x y : res decoderReader.t A) : Prop :=
  match x, y with
  | Ret a s, Ret a' s' =>
      a = a' /\ decoderReader.r s = decoderReader.r s' /\
      decoderReader.endian s = decoderReader.endian s'
  | Panic p, Panic q => p = q
  | _, _ => False
  end.

(** * The fast path against the general decoder *)

(** Two runs from the same decoder end alike: results related by [R] from
    the same final decoder, or the same fault. *)
Definition rel_res {St A B} (R : A -> B -> Prop) (x : res St A) (y : res St B)
  : Prop :=
  match x, y with
  | Ret a s1, Ret b s2 => R a b /\ s1 = s2
  | Panic p, Panic q => p = q
  | _, _ => False
  end.

(** A run of a fast-path case and a run of [value] on the same pointee end
    alike: the same destination value and no error from the same final
    decoder, or the same fault. *)
Definition same_decode {St} (x : res St rvalue) (y : res St (rvalue * option error))
  : Prop :=
  rel_res (fun a b => b = (a, None)) x y.

(** ** Induction on shapes, through the field lists *)

Section rtype_induction.
Variable P : rtype -> Prop.
Hypothesis Hscalar : forall ty,
  match ty with
  | TSlice _ | TArray _ _ | TMap _ _ | TStruct _ | TPtr _ => True
  | _ => P ty
  end.
Hypothesis Hslice : forall e, P e -> P (TSlice e).
Hypothesis Harray : forall n e, P e -> P (TArray n e).
Hypothesis Hmap : forall k v, P k -> P v -> P (TMap k v).
Hypothesis Hstruct : forall fs, Forall (fun f => P (snd f)) fs -> P (TStruct fs).
Hypothesis Hptr : forall e, P e -> P (TPtr e).

Fixpoint rtype_induction (ty : rtype) : P ty :=
  match ty with
  | TSlice e => Hslice e (rtype_induction e)
  | TArray n e => Harray n e (rtype_induction e)
  | TMap k v => Hmap k v (rtype_induction k) (rtype_induction v)
  | TStruct fs =>
      Hstruct fs
        ((fix go (l : list (bool * rtype)) : Forall (fun f => P (snd f)) l :=
            match l with
            | [] => Forall_nil _
            | f :: l' => Forall_cons f (rtype_induction (snd f)) (go l')
            end) fs)
  | TPtr e => Hptr e (rtype_induction e)
  | TBool => Hscalar TBool | TInt => Hscalar TInt | TInt8 => Hscalar TInt8
  | TInt16 => Hscalar TInt16 | TInt32 => Hscalar TInt32 | TInt64 => Hscalar TInt64
  | TUint => Hscalar TUint | TUint8 => Hscalar TUint8 | TUint16 => Hscalar TUint16
  | TUint32 => Hscalar TUint32 | TUint64 => Hscalar TUint64
  | TFloat32 => Hscalar TFloat32 | TFloat64 => Hscalar TFloat64
  | TComplex64 => Hscalar TComplex64 | TComplex128 => Hscalar TComplex128
  | TString => Hscalar TString | TOther => Hscalar TOther
  end.
End rtype_induction.

(** * Properties *)

Lemma byte_to_Z_range (b : byte) : 0 <= byte_to_Z b < 256.
Proof.
  unfold byte_to_Z. pose proof (Byte.to_N_bounded b). lia.
Qed.

Lemma byte_to_of_Z (z : Z) : 0 <= z < 256 -> byte_to_Z (byte_of_Z z) = z.
Proof.
  intros H. unfold byte_to_Z, byte_of_Z.
  destruct (Byte.of_N (Z.to_N z)) as [b|] eqn:E.
  - apply Byte.to_of_N in E. rewrite E. lia.
  - rewrite Byte.of_N_None_iff in E. lia.
Qed.

Lemma lor_shiftl_add (a c k : Z) :
  0 <= k -> 0 <= a < 2 ^ k -> Z.lor a (Z.shiftl c k) = a + c * 2 ^ k.
Proof.
  intros Hk Ha.
  assert (Hl : Z.land a (Z.shiftl c k) = 0).
  { apply Z.bits_inj'. intros n Hn. rewrite Z.land_spec, Z.bits_0.
    destruct (Z.lt_ge_cases n k) as [Hlt|Hge].
    - rewrite Z.shiftl_spec_low by lia. apply andb_false_r.
    - destruct (Z.eq_dec a 0) as [->|Hz]; [now rewrite Z.bits_0|].
      rewrite (Z.bits_above_log2 a n); [reflexivity|lia|].
      assert (Z.log2 a < k) by (apply Z.log2_lt_pow2; lia). lia. }
  rewrite <- Z.lxor_lor by exact Hl.
  rewrite <- Z.add_nocarry_lxor by exact Hl.
  now rewrite Z.shiftl_mul_pow2.
Qed.

Lemma land_127 (b : Z) : 0 <= b -> Z.land b 127 = b mod 128.
Proof.
  intros. change 127 with (Z.ones 7). rewrite Z.land_ones by lia. reflexivity.
Qed.

Lemma len_app {A} (a b : list A) : len (a ++ b) = len a + len b.
Proof. unfold len. rewrite length_app. lia. Qed.

Lemma len_nonneg {A} (a : list A) : 0 <= len a.
Proof. unfold len. lia. Qed.

Lemma len_cons {A} (x : A) (a : list A) : len (x :: a) = 1 + len a.
Proof. unfold len. simpl length. lia. Qed.

Lemma to_nat_len {A} (a : list A) : Z.to_nat (len a) = length a.
Proof. unfold len. lia. Qed.

(** ** The buffer cursor *)

Lemma Decoder_reserve_cursor pre x rest e n :
  n = len x ->
  Decoder.reserve n (Decoder.cursor pre (x ++ rest) e)
  = Ret x (Decoder.cursor (pre ++ x) rest e).
Proof.
  intros ->. unfold Decoder.reserve, Decoder.cursor, Decoder.coder_reserve.
  cbn [Decoder.reader Decoder.pos Decoder.buff Decoder.endian].
  pose proof (len_nonneg x). pose proof (len_nonneg rest).
  destruct (Z.ltb_spec (len x) 0); [lia|].
  rewrite !len_app.
  destruct (Z.leb_spec (len pre + len x) (len pre + (len x + len rest))); [|lia].
  rewrite !to_nat_len, skipn_app, skipn_all, Nat.sub_diag. cbn [skipn app].
  rewrite firstn_app, firstn_all, Nat.sub_diag. cbn [firstn]. rewrite app_nil_r.
  rewrite <- app_assoc. reflexivity.
Qed.

Lemma Decoder_reserve_short pre bs e n :
  len bs < n ->
  Decoder.reserve n (Decoder.cursor pre bs e) = Panic PanicUnexpectedEOF.
Proof.
  intros H. unfold Decoder.reserve, Decoder.cursor, Decoder.coder_reserve.
  cbn [Decoder.reader Decoder.pos Decoder.buff Decoder.endian].
  pose proof (len_nonneg bs).
  destruct (Z.ltb_spec n 0); [lia|].
  rewrite len_app.
  destruct (Z.leb_spec (len pre + n) (len pre + len bs)); [lia|reflexivity].
Qed.

Lemma Decoder_reserve_negative d n :
  n < 0 -> Decoder.reader d = None -> Decoder.reserve n d = Panic PanicRuntime.
Proof.
  intros H Hr. unfold Decoder.reserve, Decoder.coder_reserve. rewrite Hr.
  destruct (Z.ltb_spec n 0); [reflexivity|lia].
Qed.

Lemma Decoder_Uint8_cursor pre b rest e :
  Decoder.Uint8 (Decoder.cursor pre (b :: rest) e)
  = Ret (byte_to_Z b) (Decoder.cursor (pre ++ [b]) rest e).
Proof.
  unfold Decoder.Uint8, bind. change (b :: rest) with ([b] ++ rest).
  rewrite (Decoder_reserve_cursor pre [b] rest e 1 eq_refl). reflexivity.
Qed.

Lemma Decoder_Uint8_empty pre e :
  Decoder.Uint8 (Decoder.cursor pre [] e) = Panic PanicUnexpectedEOF.
Proof.
  unfold Decoder.Uint8, bind. rewrite Decoder_reserve_short; [reflexivity|].
  unfold len; simpl; lia.
Qed.

(** ** Varint arithmetic *)

Lemma lor_128 (z : Z) : 0 <= z < 256 -> Z.lor z 128 = z mod 128 + 128.
Proof.
  intros Hz.
  assert (Hr : 0 <= z mod 128 < 2 ^ 7) by (apply Z.mod_pos_bound; lia).
  assert (E : Z.lor (z mod 128) 128 = z mod 128 + 128).
  { change 128 with (Z.shiftl 1 7) at 2. rewrite lor_shiftl_add by lia. lia. }
  destruct (Z.lt_ge_cases z 128) as [Hlt|Hge].
  - rewrite Z.mod_small in * by lia. exact E.
  - assert (Hz' : z = z mod 128 + 128).
    { pose proof (Z.div_mod z 128 ltac:(lia)).
      assert (z / 128 = 1) by (symmetry; apply Z.div_unique with (r := z - 128); lia).
      lia. }
    rewrite Hz' at 1. rewrite <- E, <- Z.lor_assoc, Z.lor_diag. reflexivity.
Qed.

Lemma lor_mul_add (a c k : Z) :
  0 <= k -> 0 <= a < 2 ^ k -> Z.lor a (c * 2 ^ k) = a + c * 2 ^ k.
Proof.
  intros. rewrite <- lor_shiftl_add by assumption.
  now rewrite Z.shiftl_mul_pow2.
Qed.

Lemma shiftl_small (r bit : Z) :
  0 <= bit -> 0 <= r -> r * 2 ^ bit < 2 ^ 64 ->
  to_uint64 (Z.shiftl r bit) = r * 2 ^ bit.
Proof.
  intros. unfold to_uint64. rewrite Z.shiftl_mul_pow2 by lia.
  apply Z.mod_small. split; [|assumption].
  apply Z.mul_nonneg_nonneg; [lia|]. apply Z.pow_nonneg; lia.
Qed.

Lemma pow_split (bit : Z) :
  0 <= bit <= 57 -> 2 ^ (64 - bit) = 128 * 2 ^ (64 - (bit + 7)) /\
                   2 ^ (bit + 7) = 2 ^ bit * 128 /\
                   2 ^ 64 = 2 ^ bit * 128 * 2 ^ (64 - (bit + 7)) /\
                   0 < 2 ^ bit /\ 0 < 2 ^ (64 - (bit + 7)).
Proof.
  intros H.
  assert (0 < 2 ^ bit) by (apply Z.pow_pos_nonneg; lia).
  assert (0 < 2 ^ (64 - (bit + 7))) by (apply Z.pow_pos_nonneg; lia).
  assert (E1 : 2 ^ (bit + 7) = 2 ^ bit * 128)
    by (rewrite Z.pow_add_r by lia; reflexivity).
  assert (E2 : 2 ^ (64 - bit) = 128 * 2 ^ (64 - (bit + 7))).
  { replace (64 - bit) with (7 + (64 - (bit + 7))) by lia.
    rewrite Z.pow_add_r by lia. reflexivity. }
  assert (E3 : 2 ^ 64 = 2 ^ bit * 2 ^ (64 - bit)).
  { rewrite <- Z.pow_add_r by lia. f_equal. lia. }
  repeat split; try assumption. rewrite E3, E2. ring.
Qed.

(** One continuing step of the varint: the byte the encoder writes for
    [y >= 128], and what the accumulator becomes. *)
Lemma varint_step (acc y bit : Z) :
  0 <= bit <= 57 -> 0 <= acc < 2 ^ bit -> 128 <= y < 2 ^ (64 - bit) ->
  let b := Z.lor (y mod 256) 128 in
  0 <= b < 256 /\ 128 <= b /\
  let acc' := Z.lor acc (to_uint64 (Z.shiftl (Z.land b 127) bit)) in
  0 <= acc' < 2 ^ (bit + 7) /\
  0 <= Z.shiftr y 7 < 2 ^ (64 - (bit + 7)) /\
  acc' + Z.shiftr y 7 * 2 ^ (bit + 7) = acc + y * 2 ^ bit.
Proof.
  intros Hb Ha Hy b.
  destruct (pow_split bit Hb) as (E2 & E1 & E3 & P1 & P2).
  assert (Hm : 0 <= y mod 256 < 256) by (apply Z.mod_pos_bound; lia).
  assert (Eb : b = y mod 128 + 128).
  { unfold b. rewrite lor_128 by lia.
    rewrite (Z.mod_mod_divide y 256 128); [reflexivity|].
    exists 2. reflexivity. }
  assert (Hr : 0 <= y mod 128 < 128) by (apply Z.mod_pos_bound; lia).
  assert (El : Z.land b 127 = y mod 128).
  { rewrite land_127 by lia. rewrite Eb.
    replace (y mod 128 + 128) with (y mod 128 + 1 * 128) by lia.
    rewrite Z.mod_add by lia. apply Z.mod_mod. lia. }
  split; [lia|]. split; [lia|]. intros acc'.
  assert (Ea : acc' = acc + y mod 128 * 2 ^ bit).
  { unfold acc'. rewrite El.
    rewrite shiftl_small; [apply lor_mul_add; lia | lia | lia |].
    rewrite E3. nia. }
  rewrite Z.shiftr_div_pow2 by lia. change (2 ^ 7) with 128.
  pose proof (Z.div_mod y 128 ltac:(lia)) as Hdm.
  assert (0 <= y / 128) by (apply Z.div_pos; lia).
  assert (y / 128 < 2 ^ (64 - (bit + 7))) by (apply Z.div_lt_upper_bound; lia).
  rewrite Ea, E1. repeat split; try lia; try nia.
Qed.

(** The last step: the byte the encoder writes for [y < 128]. *)
Lemma varint_last (acc y bit : Z) :
  0 <= bit <= 63 -> 0 <= acc < 2 ^ bit -> 0 <= y < 128 -> y < 2 ^ (64 - bit) ->
  Z.lor acc (to_uint64 (Z.shiftl (Z.land y 127) bit)) = acc + y * 2 ^ bit /\
  Z.lor acc (to_uint64 (Z.shiftl y bit)) = acc + y * 2 ^ bit.
Proof.
  intros Hb Ha Hy Hy'.
  assert (P1 : 0 < 2 ^ bit) by (apply Z.pow_pos_nonneg; lia).
  assert (E3 : 2 ^ 64 = 2 ^ bit * 2 ^ (64 - bit)).
  { rewrite <- Z.pow_add_r by lia. f_equal. lia. }
  rewrite land_127, Z.mod_small by lia.
  rewrite shiftl_small; [| lia | lia | rewrite E3; nia].
  split; apply lor_mul_add; lia.
Qed.

Lemma PutUvarint_loop_len (f : nat) (y : Z) :
  1 <= len (PutUvarint_loop f y) <= Z.of_nat f + 1.
Proof.
  revert y. induction f as [|f IH]; intros y; cbn [PutUvarint_loop].
  - unfold len; simpl; lia.
  - destruct (y >=? 128).
    + rewrite len_cons. specialize (IH (Z.shiftr y 7)). lia.
    + unfold len; simpl; lia.
Qed.

Lemma Decoder_Uvarint_loop_Put (f : nat) :
  forall i acc y bit pre rest e,
    i = 9 - Z.of_nat f -> 0 <= i -> bit = 7 * i ->
    0 <= acc < 2 ^ bit -> 0 <= y < 2 ^ (64 - bit) ->
    Decoder.Uvarint_loop (S f) i acc bit
      (Decoder.cursor pre (PutUvarint_loop f y ++ rest) e)
    = Ret (acc + y * 2 ^ bit, i + len (PutUvarint_loop f y))
          (Decoder.cursor (pre ++ PutUvarint_loop f y) rest e).
Proof.
  induction f as [|f IH]; intros i acc y bit pre rest e Hi Hi0 Hbit Hacc Hy.
  - (* the tenth byte *)
    change (9 - Z.of_nat 0) with 9 in Hi. subst i bit.
    change (7 * 9) with 63 in *. change (2 ^ (64 - 63)) with 2 in Hy.
    destruct (varint_last acc y 63) as [E _]; try lia.
    cbn [PutUvarint_loop Decoder.Uvarint_loop app]. unfold bind.
    rewrite Decoder_Uint8_cursor, byte_to_of_Z by lia. cbv zeta.
    rewrite E. destruct (Z.ltb_spec y 128); [|lia].
    change (9 >? 9) with false. change (9 =? 9) with true. cbn [orb andb].
    destruct (Z.gtb_spec y 1); [lia|]. reflexivity.
  - cbn [PutUvarint_loop].
    assert (Hb57 : 0 <= bit <= 57) by lia.
    destruct (Z.geb_spec y 128) as [Hge|Hlt].
    + (* a continuation byte *)
      destruct (varint_step acc y bit Hb57 Hacc ltac:(lia))
        as (Hbr & Hb128 & Hacc' & Hy' & Esum).
      cbn [app]. 
      change (Decoder.Uvarint_loop (S (S f)) i acc bit) with
        (b <- Decoder.Uint8 ;;
         let x := Z.lor acc (to_uint64 (Z.shiftl (Z.land b 127) bit)) in
         if b <? 128 then
           if (i >? 9) || ((i =? 9) && (b >? 1))
           then ret (0, - (i + 1))
           else ret (x, i + 1)
         else Decoder.Uvarint_loop (S f) (i + 1) x (bit + 7)).
      unfold bind at 1. rewrite Decoder_Uint8_cursor, byte_to_of_Z by lia.
      cbv zeta.
      destruct (Z.ltb_spec (Z.lor (y mod 256) 128) 128); [lia|].
      rewrite (IH (i + 1) _ (Z.shiftr y 7) (bit + 7)); try lia.
      rewrite Esum, len_cons, <- app_assoc. cbn [app].
      f_equal. f_equal. lia.
    + (* the last byte *)
      destruct (varint_last acc y bit) as [E _]; try lia.
      cbn [app].
      change (Decoder.Uvarint_loop (S (S f)) i acc bit) with
        (b <- Decoder.Uint8 ;;
         let x := Z.lor acc (to_uint64 (Z.shiftl (Z.land b 127) bit)) in
         if b <? 128 then
           if (i >? 9) || ((i =? 9) && (b >? 1))
           then ret (0, - (i + 1))
           else ret (x, i + 1)
         else Decoder.Uvarint_loop (S f) (i + 1) x (bit + 7)).
      unfold bind at 1. rewrite Decoder_Uint8_cursor, byte_to_of_Z by lia.
      cbv zeta. rewrite E.
      destruct (Z.ltb_spec y 128); [|lia].
      destruct (Z.gtb_spec i 9); [lia|].
      destruct (Z.eqb_spec i 9); [lia|]. cbn [orb andb].
      reflexivity.
Qed.

(** ** Simulation between the two backends *)

Lemma sim_ret {A} (a : A) : sim (ret a) (ret a).
Proof. intros d s H. split; [reflexivity|exact H]. Qed.

Lemma sim_panic {A} (p : panicval) : sim (A := A) (panic p) (panic p).
Proof. intros d s H. reflexivity. Qed.

Lemma sim_bind {A B} m1 m2 (k1 : A -> M _ B) k2 :
  sim m1 m2 -> (forall a, sim (k1 a) (k2 a)) -> sim (bind m1 k1) (bind m2 k2).
Proof.
  intros Hm Hk d s H. unfold bind. specialize (Hm d s H). unfold agree in Hm.
  destruct (m1 d) as [a d'|p], (m2 s) as [b s'|q]; try contradiction.
  - destruct Hm as [-> Hs]. apply Hk, Hs.
  - exact Hm.
Qed.

Lemma sim_for_loop {A} (n : nat) :
  forall i (b1 : Z -> A -> M _ A) b2 a,
    (forall j x, sim (b1 j x) (b2 j x)) ->
    sim (for_loop n i b1 a) (for_loop n i b2 a).
Proof.
  induction n as [|n IH]; intros i b1 b2 a Hb; cbn [for_loop].
  - apply sim_ret.
  - apply sim_bind; [apply Hb|]. intros a'. apply IH, Hb.
Qed.

Lemma sim_skip_loop (n : nat) :
  forall b1 b2 sum, sim b1 b2 -> sim (skip_loop n b1 sum) (skip_loop n b2 sum).
Proof.
  induction n as [|n IH]; intros b1 b2 sum Hb; cbn [skip_loop].
  - apply sim_ret.
  - apply sim_bind; [exact Hb|]. intros x.
    destruct (x <? 0); [apply sim_ret|apply IH, Hb].
Qed.

Lemma sim_if {A} (c : bool) (a1 b1 : M _ A) a2 b2 :
  sim a1 a2 -> sim b1 b2 -> sim (if c then a1 else b1) (if c then a2 else b2).
Proof. destruct c; auto. Qed.

Lemma Decoder_reserve_firstn pre bs e n :
  0 <= n <= len bs ->
  Decoder.reserve n (Decoder.cursor pre bs e)
  = Ret (firstn (Z.to_nat n) bs)
        (Decoder.cursor (pre ++ firstn (Z.to_nat n) bs) (skipn (Z.to_nat n) bs) e).
Proof.
  intros H. rewrite <- (firstn_skipn (Z.to_nat n) bs) at 1.
  apply Decoder_reserve_cursor. unfold len in *.
  rewrite length_firstn. lia.
Qed.

Lemma sim_reserve (n : Z) : sim (Decoder.reserve n) (decoderReader.reserve n).
Proof.
  intros d [bs e b] [pre ->]. cbn [decoderReader.r decoderReader.endian].
  unfold decoderReader.reserve. cbn [decoderReader.r decoderReader.endian decoderReader.buff].
  destruct (Z.ltb_spec n 0) as [Hneg|Hpos].
  - rewrite Decoder_reserve_negative; [reflexivity|lia|reflexivity].
  - unfold Read.
    assert (Hgot : len (firstn (Z.to_nat n) bs) = Z.min n (len bs)).
    { unfold len. rewrite length_firstn. lia. }
    destruct (Z.ltb_spec (len (firstn (Z.to_nat n) bs)) n) as [Hshort|Hok].
    + rewrite Decoder_reserve_short by lia. reflexivity.
    + rewrite Decoder_reserve_firstn by lia. split.
      * rewrite firstn_app.
        replace (Z.to_nat n - length (firstn (Z.to_nat n) bs))%nat with 0%nat
          by (unfold len in *; lia).
        cbn [firstn]. rewrite app_nil_r. symmetry. apply firstn_all2.
        unfold len in *. lia.
      * exists (pre ++ firstn (Z.to_nat n) bs). reflexivity.
Qed.

Lemma sim_first_byte (b : list byte) : sim (first_byte b) (first_byte b).
Proof. destruct b; [apply sim_panic|apply sim_ret]. Qed.

Lemma sim_Uint8 : sim Decoder.Uint8 decoderReader.Uint8.
Proof. apply sim_bind; [apply sim_reserve|apply sim_first_byte]. Qed.

(** A byte read is in range: the continuation only has to agree there. *)
Lemma sim_Uint8_bind {B} (k1 : Z -> M _ B) k2 :
  (forall b, 0 <= b < 256 -> sim (k1 b) (k2 b)) ->
  sim (bind Decoder.Uint8 k1) (bind decoderReader.Uint8 k2).
Proof.
  intros Hk d s H. unfold Decoder.Uint8, decoderReader.Uint8, bind.
  pose proof (sim_reserve 1 d s H) as Hr. unfold agree in Hr.
  destruct (Decoder.reserve 1 d) as [a d'|p], (decoderReader.reserve 1 s) as [b s'|q];
    try contradiction; [|exact Hr].
  destruct Hr as [<- Hs]. destruct a as [|x a]; cbn [first_byte]; unfold panic, ret.
  - reflexivity.
  - apply Hk; [apply byte_to_Z_range|exact Hs].
Qed.

Lemma sim_endian {A} (f : Endian -> A) :
  sim (fun d => Ret (f (Decoder.endian d)) d)
      (fun s => Ret (f (decoderReader.endian s)) s).
Proof.
  intros d s H. split; [|exact H]. destruct H as [pre ->]. reflexivity.
Qed.

Lemma sim_Uint16 : sim Decoder.Uint16 decoderReader.Uint16.
Proof.
  apply sim_bind; [apply sim_reserve|]. intros b.
  apply (sim_endian (fun e => Uint16 e b)).
Qed.

Lemma sim_Uint32 : sim Decoder.Uint32 decoderReader.Uint32.
Proof.
  apply sim_bind; [apply sim_reserve|]. intros b.
  apply (sim_endian (fun e => Uint32 e b)).
Qed.

Lemma sim_Uint64 : sim Decoder.Uint64 decoderReader.Uint64.
Proof.
  apply sim_bind; [apply sim_reserve|]. intros b.
  apply (sim_endian (fun e => Uint64 e b)).
Qed.

Lemma sim_Bool : sim Decoder.Bool decoderReader.Bool.
Proof.
  apply sim_bind; [apply sim_reserve|]. intros b.
  apply sim_bind; [apply sim_first_byte|]. intros x. apply sim_ret.
Qed.

Lemma sim_Int8 : sim Decoder.Int8 decoderReader.Int8.
Proof. apply sim_bind; [apply sim_Uint8|]. intros; apply sim_ret. Qed.

Lemma sim_Int16 : sim Decoder.Int16 decoderReader.Int16.
Proof. apply sim_bind; [apply sim_Uint16|]. intros; apply sim_ret. Qed.

Lemma sim_Int32 : sim Decoder.Int32 decoderReader.Int32.
Proof. apply sim_bind; [apply sim_Uint32|]. intros; apply sim_ret. Qed.

Lemma sim_Int64 : sim Decoder.Int64 decoderReader.Int64.
Proof. apply sim_bind; [apply sim_Uint64|]. intros; apply sim_ret. Qed.

Lemma sim_Complex64 : sim Decoder.Complex64 decoderReader.Complex64.
Proof.
  apply sim_bind; [apply sim_Uint32|]. intros re.
  apply sim_bind; [apply sim_Uint32|]. intros im. apply sim_ret.
Qed.

Lemma sim_Complex128 : sim Decoder.Complex128 decoderReader.Complex128.
Proof.
  apply sim_bind; [apply sim_Uint64|]. intros re.
  apply sim_bind; [apply sim_Uint64|]. intros im. apply sim_ret.
Qed.

Lemma sim_Skip (n : Z) : sim (Decoder.Skip n) (decoderReader.Skip n).
Proof. apply sim_bind; [apply sim_reserve|]. intros; apply sim_ret. Qed.

(** The two [Uvarint] loops differ in where the payload is or-ed in; they
    compute the same. *)
Lemma sim_Uvarint_loop (n : nat) :
  forall i x bit,
    sim (Decoder.Uvarint_loop n i x bit) (decoderReader.Uvarint_loop n i x bit).
Proof.
  induction n as [|n IH]; intros i x bit;
    cbn [Decoder.Uvarint_loop decoderReader.Uvarint_loop].
  - apply sim_ret.
  - apply sim_Uint8_bind. intros b Hb. cbv zeta.
    destruct (Z.ltb_spec b 128) as [Hlt|Hge].
    + rewrite land_127, Z.mod_small by lia.
      destruct ((i >? 9) || (i =? 9) && (b >? 1)); apply sim_ret.
    + apply IH.
Qed.

Lemma sim_Uvarint : sim Decoder.Uvarint decoderReader.Uvarint.
Proof. apply sim_Uvarint_loop. Qed.

Lemma sim_Varint : sim Decoder.Varint decoderReader.Varint.
Proof.
  apply sim_bind; [apply sim_Uvarint|]. intros [ux n]. apply sim_ret.
Qed.

Lemma sim_String : sim Decoder.String decoderReader.String.
Proof.
  apply sim_bind; [apply sim_Uvarint|]. intros [s n]. apply sim_reserve.
Qed.

Lemma sim_Index (v : rvalue) (i : Z) : sim (Index v i) (Index v i).
Proof.
  unfold Index. destruct ((0 <=? i) && (i <? Len v)); [|apply sim_panic].
  destruct (nth_error (elems v) (Z.to_nat i)); [apply sim_ret|apply sim_panic].
Qed.

Lemma sim_MakeSlice (e : rtype) (n : Z) : sim (MakeSlice e n) (MakeSlice e n).
Proof. unfold MakeSlice. destruct (n <? 0); [apply sim_panic|apply sim_ret]. Qed.

Lemma sim_make {A} (n : Z) (x : A) : sim (make n x) (make n x).
Proof. unfold make. destruct (n <? 0); [apply sim_panic|apply sim_ret]. Qed.

Lemma sim_bool_step {D} (set1 : D -> Z -> bool -> M _ D) set2 i st :
  (forall d j x, sim (set1 d j x) (set2 d j x)) ->
  sim (Decoder.bool_step set1 i st) (decoderReader.bool_step set2 i st).
Proof.
  intros Hset. destruct st as [b d]. unfold Decoder.bool_step, decoderReader.bool_step.
  apply sim_bind.
  { destruct (Z.rem i 8 =? 0); [apply sim_reserve|apply sim_ret]. }
  intros b'. apply sim_bind; [apply sim_first_byte|]. intros b0.
  apply sim_bind; [apply Hset|]. intros d'. apply sim_ret.
Qed.

Lemma sim_set_bool_at v i x :
  sim (Decoder.set_bool_at v i x) (decoderReader.set_bool_at v i x).
Proof. apply sim_bind; [apply sim_Index|]. intros; apply sim_ret. Qed.

Lemma sim_boolArray (ty : rtype) (v : rvalue) :
  sim (Decoder.boolArray ty v) (decoderReader.boolArray ty v).
Proof.
  assert (Hbody : forall (tyk : rtype),
    sim ('(_l, _) <- Decoder.Uvarint ;;
         let l := to_int _l in
         v1 <- (match tyk with
                | TSlice _ => if l >? 0 then MakeSlice TBool l else ret v
                | _ => ret v
                end) ;;
         '(_, v2) <- for_loop (Z.to_nat l) 0 (Decoder.bool_step Decoder.set_bool_at) ([], v1) ;;
         ret (sizeofBoolArray l, v2))
        ('(_l, _) <- decoderReader.Uvarint ;;
         let l := to_int _l in
         v1 <- (match tyk with
                | TSlice _ => if l >? 0 then MakeSlice TBool l else ret v
                | _ => ret v
                end) ;;
         '(_, v2) <- for_loop (Z.to_nat l) 0 (decoderReader.bool_step decoderReader.set_bool_at) ([], v1) ;;
         ret (sizeofBoolArray l, v2))).
  { intros tyk. apply sim_bind; [apply sim_Uvarint|]. intros [_l n]. cbv zeta.
    apply sim_bind.
    { destruct tyk; try apply sim_ret.
      destruct (to_int _l >? 0); [apply sim_MakeSlice|apply sim_ret]. }
    intros v1. apply sim_bind.
    { apply sim_for_loop. intros j st. apply sim_bool_step.
      intros; apply sim_set_bool_at. }
    intros [b v2]. apply sim_ret. }
  destruct ty; try apply sim_ret; destruct ty; try apply sim_ret; apply Hbody.
Qed.

Lemma sim_for_loop_range {A} (n : nat) :
  forall i (b1 : Z -> A -> M _ A) b2 a,
    (forall j x, i <= j < i + Z.of_nat n -> sim (b1 j x) (b2 j x)) ->
    sim (for_loop n i b1 a) (for_loop n i b2 a).
Proof.
  induction n as [|n IH]; intros i b1 b2 a Hb; cbn [for_loop].
  - apply sim_ret.
  - apply sim_bind; [apply Hb; lia|]. intros a'. apply IH.
    intros j x Hj. apply Hb. lia.
Qed.

Lemma sim_fixed (ty : rtype) :
  sim (_ <- Decoder.Skip (_fixTypeSize ty) ;; ret (_fixTypeSize ty))
      (_ <- decoderReader.Skip (_fixTypeSize ty) ;; ret (_fixTypeSize ty)).
Proof. apply sim_bind; [apply sim_Skip|]. intros; apply sim_ret. Qed.

Lemma sim_skipByType : forall ty,
  skip_same ty = true -> sim (Decoder.skipByType ty) (decoderReader.skipByType ty).
Proof.
  intros ty. pattern ty. apply rtype_induction; clear ty;
    [intros ty|intros e IH|intros n e IH|intros k v IHk IHv|intros fs IH|intros e IH].
  - destruct ty; try exact I; intros H; try discriminate H;
      cbn [Decoder.skipByType decoderReader.skipByType];
      try apply sim_fixed.
    apply sim_ret.
  - intros H. cbn [skip_same] in H.
    cbn [Decoder.skipByType decoderReader.skipByType _fixTypeSize].
    change (0 <? -1) with false. cbv iota.
    apply sim_bind; [apply sim_Uvarint|]. intros [s sLen]. cbv zeta.
    destruct (0 <? _fixTypeSize e).
    + destruct (is_Bool e); [discriminate H|].
      apply sim_bind; [apply sim_Skip|]. intros; apply sim_ret.
    + apply sim_skip_loop. apply IH, H.
  - intros H. cbn [skip_same] in H.
    cbn [Decoder.skipByType decoderReader.skipByType _fixTypeSize].
    change (0 <? -1) with false. cbv iota.
    apply sim_bind; [apply sim_Uvarint|]. intros [s sLen]. cbv zeta.
    destruct (0 <? _fixTypeSize e).
    + destruct (is_Bool e); [discriminate H|].
      apply sim_bind; [apply sim_Skip|]. intros; apply sim_ret.
    + apply sim_skip_loop. apply IH, H.
  - intros H. cbn [skip_same] in H. apply andb_true_iff in H as [H1 H2].
    cbn [Decoder.skipByType decoderReader.skipByType _fixTypeSize].
    change (0 <? -1) with false. cbv iota.
    apply sim_bind; [apply sim_Uvarint|]. intros [s sLen]. cbv zeta.
    apply sim_for_loop. intros j sum.
    apply sim_bind; [apply IHk, H1|]. intros sk.
    apply sim_bind; [apply IHv, H2|]. intros sv. apply sim_ret.
  - intros H. cbn [skip_same] in H.
    cbn [Decoder.skipByType decoderReader.skipByType _fixTypeSize].
    change (0 <? -1) with false. cbv iota.
    generalize 0 at 2 4 as sum.
    induction IH as [|f fs Hf _ IHfs]; intros sum.
    + apply sim_ret.
    + cbn [forallb] in H. apply andb_true_iff in H as [H1 H2].
      apply sim_bind; [apply Hf, H1|]. intros x.
      destruct (x <? 0); [apply sim_ret|]. apply IHfs, H2.
  - intros _. cbn [Decoder.skipByType decoderReader.skipByType _fixTypeSize].
    apply sim_ret.
Qed.

Lemma sim_MakeSlice_bind {B} (e : rtype) (n : Z) (k1 : rvalue -> M _ B) k2 :
  (forall v, Len v = n -> sim (k1 v) (k2 v)) ->
  sim (bind (MakeSlice e n) k1) (bind (MakeSlice e n) k2).
Proof.
  intros Hk d s H. unfold MakeSlice, bind.
  destruct (Z.ltb_spec n 0); [reflexivity|].
  unfold ret. apply Hk; [|exact H].
  cbn [Len]. unfold len. rewrite repeat_length. lia.
Qed.

(** On text the two skip engines return different counts and consume
    alike. *)
Lemma sim_skip_String {A} (w : A) :
  sim (_ <- Decoder.skipByType TString ;; ret w)
      (_ <- decoderReader.skipByType TString ;; ret w).
Proof.
  intros d s H. cbn [Decoder.skipByType decoderReader.skipByType _fixTypeSize].
  change (0 <? -1) with false. cbv iota. unfold bind.
  pose proof (sim_Uvarint d s H) as Hu. unfold agree in Hu.
  destruct (Decoder.Uvarint d) as [[x n] d'|p], (decoderReader.Uvarint s) as [[y m] s'|q];
    try contradiction; [|exact Hu].
  destruct Hu as [E Hs]. injection E as <- <-.
  pose proof (sim_Skip (to_int x) d' s' Hs) as Hk. unfold agree in Hk.
  destruct (Decoder.Skip (to_int x) d') as [a d''|p],
           (decoderReader.Skip (to_int x) s') as [b s''|q];
    try contradiction; [|exact Hk].
  destruct Hk as [_ Hs']. split; [reflexivity|exact Hs'].
Qed.

Lemma sim_skip_surplus {A} (e : rtype) (w : A) :
  skip_same e || is_String e = true ->
  sim (_ <- Decoder.skipByType e ;; ret w)
      (_ <- decoderReader.skipByType e ;; ret w).
Proof.
  intros H. apply orb_true_iff in H as [H|H].
  - apply sim_bind; [apply sim_skipByType, H|]. intros; apply sim_ret.
  - destruct e; try discriminate H. apply sim_skip_String.
Qed.

Lemma sim_ext_l {A} (m1 m1' : M Decoder.t A) m2 :
  (forall d, m1 d = m1' d) -> sim m1' m2 -> sim m1 m2.
Proof. intros E H d s Hds. rewrite E. apply H, Hds. Qed.

Lemma bind_assoc {S A B C} (m : M S A) (k : A -> M S B) (h : B -> M S C) d :
  bind (bind m k) h d = bind m (fun a => bind (k a) h) d.
Proof. unfold bind. destruct (m d); reflexivity. Qed.

Ltac sim_scalar lem :=
  apply sim_bind; [apply lem|]; intros; apply sim_ret.

Lemma sim_value_fields (newPtr : rtype -> rvalue -> bool * rvalue) fs :
  Forall (fun f => common (snd f) = true ->
                   forall v, sim (Decoder.value newPtr (snd f) v)
                                 (decoderReader.value (snd f) v)) fs ->
  forallb (fun f => negb (fst f) || common (snd f)) fs = true ->
  forall vs,
  sim ((fix fields_loop (fs : list (bool * rtype)) (vs : list rvalue)
          : M Decoder.t (list rvalue) :=
          match fs with
          | [] => ret vs
          | f :: fs' =>
              match vs with
              | [] => panic PanicRuntime
              | x :: vs' =>
                  x' <- (if fst f
                         then '(x', _) <- Decoder.value newPtr (snd f) x ;; ret x'
                         else ret x) ;;
                  rest <- fields_loop fs' vs' ;;
                  ret (x' :: rest)
              end
          end) fs vs)
      ((fix fields_loop (fs : list (bool * rtype)) (vs : list rvalue)
          : M decoderReader.t (list rvalue) :=
          match fs with
          | [] => ret vs
          | f :: fs' =>
              match vs with
              | [] => panic PanicRuntime
              | x :: vs' =>
                  x' <- (if fst f
                         then '(x', _) <- decoderReader.value (snd f) x ;; ret x'
                         else ret x) ;;
                  rest <- fields_loop fs' vs' ;;
                  ret (x' :: rest)
              end
          end) fs vs).
Proof.
  intros IH. induction IH as [|f fs Hf _ IHfs]; intros H vs.
  - apply sim_ret.
  - cbn [forallb] in H. apply andb_true_iff in H as [H1 H2].
    destruct vs as [|x vs]; [apply sim_panic|].
    apply sim_bind.
    { destruct (fst f); [|apply sim_ret]. cbn [negb orb] in H1.
      apply sim_bind; [apply Hf, H1|]. intros [x' err]. apply sim_ret. }
    intros x'. apply sim_bind; [apply IHfs, H2|]. intros rest. apply sim_ret.
Qed.

Lemma sim_value (newPtr : rtype -> rvalue -> bool * rvalue) : forall ty,
  common ty = true ->
  forall v, sim (Decoder.value newPtr ty v) (decoderReader.value ty v).
Proof.
  intros ty. pattern ty. apply rtype_induction; clear ty;
    [intros ty|intros e IH|intros n e IH|intros k vt IHk IHv|intros fs IH|intros e IH].
  - destruct ty; try exact I; intros H v; try discriminate H;
      cbn [Decoder.value decoderReader.value].
    + sim_scalar sim_Bool.
    + sim_scalar sim_Int8.
    + sim_scalar sim_Int16.
    + sim_scalar sim_Int32.
    + sim_scalar sim_Int64.
    + sim_scalar sim_Uint8.
    + sim_scalar sim_Uint16.
    + sim_scalar sim_Uint32.
    + sim_scalar sim_Uint64.
    + sim_scalar sim_Uint32.
    + sim_scalar sim_Uint64.
    + eapply sim_ext_l; [intros d; apply bind_assoc|].
      apply sim_bind; [apply sim_Uint32|]. intros re.
      eapply sim_ext_l; [intros d; apply bind_assoc|].
      apply sim_bind; [apply sim_Uint32|]. intros im. apply sim_ret.
    + eapply sim_ext_l; [intros d; apply bind_assoc|].
      apply sim_bind; [apply sim_Uint64|]. intros re.
      eapply sim_ext_l; [intros d; apply bind_assoc|].
      apply sim_bind; [apply sim_Uint64|]. intros im. apply sim_ret.
    + sim_scalar sim_String.
  - (* slice *)
    intros H v. cbn [common] in H. cbn [Decoder.value decoderReader.value].
    apply sim_bind; [apply sim_boolArray|]. intros [r v1].
    destruct (r <? 0); [|apply sim_ret].
    apply sim_bind; [apply sim_Uvarint|]. intros [s n]. cbv zeta.
    apply sim_MakeSlice_bind. intros v2 Hlen.
    apply sim_bind; [|intros; apply sim_ret].
    apply sim_for_loop_range. intros j w Hj. rewrite Hlen.
    destruct (Z.ltb_spec j (to_int s)); [|lia].
    apply sim_bind; [apply sim_Index|]. intros x.
    apply sim_bind; [apply IH, H|]. intros [x' err]. apply sim_ret.
  - (* array *)
    intros H v. cbn [common] in H. apply andb_true_iff in H as [H1 H2].
    cbn [Decoder.value decoderReader.value].
    apply sim_bind; [apply sim_boolArray|]. intros [r v1].
    destruct (r <? 0); [|apply sim_ret].
    apply sim_bind; [apply sim_Uvarint|]. intros [s m]. cbv zeta.
    apply sim_bind; [apply sim_ret|]. intros v2.
    apply sim_bind; [|intros; apply sim_ret].
    apply sim_for_loop. intros j w.
    destruct (j <? Len v2).
    + apply sim_bind; [apply sim_Index|]. intros x.
      apply sim_bind; [apply IH, H1|]. intros [x' err]. apply sim_ret.
    + apply sim_skip_surplus, H2.
  - (* map *)
    intros H v. cbn [common] in H. apply andb_true_iff in H as [H1 H2].
    cbn [Decoder.value decoderReader.value].
    apply sim_bind; [apply sim_Uvarint|]. intros [s m]. cbv zeta.
    apply sim_bind; [|intros; apply sim_ret].
    apply sim_for_loop. intros j w.
    apply sim_bind; [apply IHk, H1|]. intros [key e1].
    apply sim_bind; [apply IHv, H2|]. intros [val e2]. apply sim_ret.
  - (* struct *)
    intros H v. cbn [common] in H. cbn [Decoder.value decoderReader.value].
    apply sim_bind; [|intros; apply sim_ret].
    apply sim_value_fields; assumption.
  - intros H. discriminate H.
Qed.

(** ** From the buffer decoder to the stream decoder *)

Lemma app_inv_length {A} (a a' b b' : list A) :
  length a = length a' -> a ++ b = a' ++ b' -> a = a' /\ b = b'.
Proof.
  revert a'. induction a as [|x a IH]; intros [|x' a'] Hl H; try discriminate Hl.
  - split; [reflexivity|exact H].
  - injection H as -> H. injection Hl as Hl.
    destruct (IH a' Hl H) as [-> ->]. split; reflexivity.
Qed.

Lemma cursor_inj pre rest e pre' r' e' :
  Decoder.cursor pre rest e = Decoder.cursor pre' r' e' ->
  pre' = pre /\ r' = rest /\ e' = e.
Proof.
  unfold Decoder.cursor. intros H. injection H as Hb Hp He.
  assert (Hl : length pre = length pre') by (unfold len in Hp; lia).
  destruct (app_inv_length _ _ _ _ Hl Hb) as [-> ->]. repeat split. 
  symmetry; exact He.
Qed.

(** What the buffer decoder does on [x ++ rest], the stream decoder does
    on a stream that delivers [x ++ rest], whatever its scratch buffer. *)
Lemma sim_transfer {A} (m1 : M Decoder.t A) m2 (a : A) x rest e :
  sim m1 m2 ->
  m1 (Decoder.cursor [] (x ++ rest) e) = Ret a (Decoder.cursor x rest e) ->
  forall b, exists b', m2 (decoderReader.mk (x ++ rest) e b)
                       = Ret a (decoderReader.mk rest e b').
Proof.
  intros Hsim H b.
  specialize (Hsim (Decoder.cursor [] (x ++ rest) e)
                   (decoderReader.mk (x ++ rest) e b)).
  rewrite H in Hsim. unfold agree in Hsim.
  destruct (m2 _) as [a' [r' e' b']|q].
  - destruct Hsim as [<- [pre' Hc]]; [exists []; reflexivity|].
    cbn [decoderReader.r decoderReader.endian] in Hc.
    apply cursor_inj in Hc as (_ & -> & ->). exists b'. reflexivity.
  - exfalso. apply Hsim. exists []. reflexivity.
Qed.

Lemma sim_transfer_panic {A} (m1 : M Decoder.t A) m2 p bs e :
  sim m1 m2 ->
  m1 (Decoder.cursor [] bs e) = Panic p ->
  forall b, m2 (decoderReader.mk bs e b) = Panic p.
Proof.
  intros Hsim H b.
  specialize (Hsim (Decoder.cursor [] bs e) (decoderReader.mk bs e b)).
  rewrite H in Hsim. unfold agree in Hsim.
  destruct (m2 _) as [a' s'|q].
  - exfalso. apply Hsim. exists []. reflexivity.
  - f_equal. symmetry. apply Hsim. exists []. reflexivity.
Qed.

(** ** Varint round trip *)

Lemma PutUvarint_loop_last (f : nat) : forall y,
  0 <= y -> (Z.of_nat f <= 9)%Z -> y < 2 ^ (7 * (Z.of_nat f + 1)) ->
  exists front l, PutUvarint_loop f y = front ++ [l] /\
                  Forall (fun b => 128 <= byte_to_Z b) front /\
                  byte_to_Z l < 128 /\
                  (front <> [] -> byte_to_Z l <> 0).
Proof.
  induction f as [|f IH]; intros y Hy Hf Hb; cbn [PutUvarint_loop].
  - change (2 ^ (7 * (Z.of_nat 0 + 1))) with 128 in Hb.
    exists [], (byte_of_Z y). rewrite byte_to_of_Z by lia.
    repeat split; [constructor|lia|congruence].
  - destruct (Z.geb_spec y 128) as [Hge|Hlt].
    + assert (E : 2 ^ (7 * (Z.of_nat (S f) + 1)) = 128 * 2 ^ (7 * (Z.of_nat f + 1))).
      { replace (7 * (Z.of_nat (S f) + 1)) with (7 + 7 * (Z.of_nat f + 1)) by lia.
        rewrite Z.pow_add_r by lia. reflexivity. }
      assert (Hs : Z.shiftr y 7 = y / 128)
        by (rewrite Z.shiftr_div_pow2 by lia; reflexivity).
      assert (Hq : 1 <= y / 128) by (apply Z.div_le_lower_bound; lia).
      assert (Hq' : y / 128 < 2 ^ (7 * (Z.of_nat f + 1)))
        by (apply Z.div_lt_upper_bound; lia).
      destruct (IH (Z.shiftr y 7)) as (front & l & E' & Hfront & Hl & Hnz);
        try (rewrite Hs; lia); [lia|].
      assert (Hm : 0 <= y mod 256 < 256) by (apply Z.mod_pos_bound; lia).
      assert (Hr : 0 <= (y mod 256) mod 128 < 128) by (apply Z.mod_pos_bound; lia).
      exists (byte_of_Z (Z.lor (y mod 256) 128) :: front), l.
      rewrite E'. repeat split; try assumption.
      * constructor; [|assumption].
        rewrite byte_to_of_Z; rewrite lor_128 by lia; lia.
      * intros _. destruct front as [|b front].
        -- cbn [app] in E'. destruct f; cbn [PutUvarint_loop] in E'.
           ++ injection E' as <-. rewrite byte_to_of_Z; rewrite Hs; lia.
           ++ destruct (Z.geb_spec (Z.shiftr y 7) 128).
              ** injection E' as _ E'.
                 pose proof (PutUvarint_loop_len f (Z.shiftr (Z.shiftr y 7) 7)) as Hlen.
                 rewrite E' in Hlen. unfold len in Hlen. simpl in Hlen. lia.
              ** injection E' as <-. rewrite byte_to_of_Z; rewrite Hs; lia.
        -- apply Hnz. discriminate.
    + exists [], (byte_of_Z y). rewrite byte_to_of_Z by lia.
      repeat split; [constructor|lia|congruence].
Qed.

Lemma SizeofUvarint_loop_Put (f : nat) : forall n i,
  SizeofUvarint_loop f n i = i + len (PutUvarint_loop f n).
Proof.
  induction f as [|f IH]; intros n i;
    cbn [SizeofUvarint_loop PutUvarint_loop].
  - unfold len; simpl; lia.
  - destruct (n >=? 128).
    + rewrite IH, len_cons. lia.
    + unfold len; simpl; lia.
Qed.

Lemma Uvarint_Put_roundtrip (x : Z) :
  0 <= x < 2 ^ 64 ->
  (forall pre rest e,
     Decoder.Uvarint (Decoder.cursor pre (PutUvarint x ++ rest) e)
     = Ret (x, len (PutUvarint x))
           (Decoder.cursor (pre ++ PutUvarint x) rest e)) /\
  (forall rest e b, exists b',
     decoderReader.Uvarint (decoderReader.mk (PutUvarint x ++ rest) e b)
     = Ret (x, len (PutUvarint x)) (decoderReader.mk rest e b')) /\
  1 <= len (PutUvarint x) <= 10 /\
  len (PutUvarint x) = SizeofUvarint x /\
  (exists front l,
     PutUvarint x = front ++ [l] /\
     Forall (fun b => 128 <= byte_to_Z b) front /\
     byte_to_Z l < 128 /\
     (front <> [] -> byte_to_Z l <> 0)).
Proof.
  intros Hx.
  assert (HD : forall pre rest e,
     Decoder.Uvarint (Decoder.cursor pre (PutUvarint x ++ rest) e)
     = Ret (x, len (PutUvarint x))
           (Decoder.cursor (pre ++ PutUvarint x) rest e)).
  { intros pre rest e. unfold Decoder.Uvarint, PutUvarint.
    change (Z.to_nat MaxVarintLen64) with 10%nat.
    assert (Ha : 0 <= 0 < 2 ^ 0) by (change (2 ^ 0) with 1; lia).
    rewrite (Decoder_Uvarint_loop_Put 9 0 0 x 0 pre rest e
               eq_refl (Z.le_refl 0) eq_refl Ha Hx).
    do 2 f_equal. change (2 ^ 0) with 1. lia. }
  split; [exact HD|]. split.
  { intros rest e b.
    apply (sim_transfer Decoder.Uvarint decoderReader.Uvarint);
      [apply sim_Uvarint|apply (HD [])]. }
  split.
  { pose proof (PutUvarint_loop_len 9 x). unfold PutUvarint. lia. }
  split.
  { unfold SizeofUvarint, PutUvarint. rewrite SizeofUvarint_loop_Put. lia. }
  apply PutUvarint_loop_last; lia.
Qed.

(** C3: for every unsigned 64-bit value [x], [Uvarint] on the minimal
    varint of [x] returns [x] and the number of bytes of that varint, which
    is between 1 and 10; it consumes exactly those bytes.  This holds for the
    buffer decoder and for the stream decoder.  The varint is minimal: it is
    [SizeofUvarint x] bytes long, every byte but the last has the
    continuation bit, and the last byte is not a redundant zero. *)
Theorem Uvarint_PutUvarint (x : Z) :
  0 <= x < 2 ^ 64 ->
  (forall pre rest e,
     Decoder.Uvarint (Decoder.cursor pre (PutUvarint x ++ rest) e)
     = Ret (x, len (PutUvarint x))
           (Decoder.cursor (pre ++ PutUvarint x) rest e)) /\
  (forall rest e b, exists b',
     decoderReader.Uvarint (decoderReader.mk (PutUvarint x ++ rest) e b)
     = Ret (x, len (PutUvarint x)) (decoderReader.mk rest e b')) /\
  1 <= len (PutUvarint x) <= 10 /\
  len (PutUvarint x) = SizeofUvarint x /\
  (exists front l,
     PutUvarint x = front ++ [l] /\
     Forall (fun b => 128 <= byte_to_Z b) front /\
     byte_to_Z l < 128 /\
     (front <> [] -> byte_to_Z l <> 0)).
Proof.
  intros Hx.
  destruct (Uvarint_Put_roundtrip x Hx) as (H1 & H2 & H3 & H4 & H5).
  exact (conj H1 (conj H2 (conj H3 (conj H4 H5)))).
Qed.

Lemma Uvarint_PutUvarint_witness :
  0 <= 300 < 2 ^ 64 /\
  Decoder.Uvarint (Decoder.cursor [] (PutUvarint 300 ++ []) LittleEndian)
  = Ret (300, len (PutUvarint 300))
        (Decoder.cursor ([] ++ PutUvarint 300) [] LittleEndian).
Proof.
  assert (H : 0 <= 300 < 2 ^ 64) by (split; [lia|reflexivity]).
  split; [exact H|]. apply (proj1 (Uvarint_PutUvarint 300 H)).
Defined.

(** ** Varint failure *)

Lemma Decoder_Uvarint_loop_unfold n i x bit d :
  Decoder.Uvarint_loop (S n) i x bit d =
  (b <- Decoder.Uint8 ;;
   let x := Z.lor x (to_uint64 (Z.shiftl (Z.land b 127) bit)) in
   if b <? 128 then
     if (i >? 9) || ((i =? 9) && (b >? 1))
     then ret (0, - (i + 1))
     else ret (x, i + 1)
   else Decoder.Uvarint_loop n (i + 1) x (bit + 7)) d.
Proof. reflexivity. Qed.

(** Bytes with the continuation bit only advance the loop. *)
Lemma Decoder_Uvarint_loop_cont front : forall n i x bit pre rest e,
  Forall (fun b => 128 <= byte_to_Z b) front ->
  exists x',
    Decoder.Uvarint_loop (length front + n) i x bit
      (Decoder.cursor pre (front ++ rest) e)
    = Decoder.Uvarint_loop n (i + len front) x' (bit + 7 * len front)
        (Decoder.cursor (pre ++ front) rest e).
Proof.
  induction front as [|b front IH]; intros n i x bit pre rest e Hc.
  - exists x. cbn [length app Nat.add]. rewrite app_nil_r.
    unfold len; cbn [length]. change (Z.of_nat 0) with 0.
    rewrite Z.mul_0_r, !Z.add_0_r. reflexivity.
  - inversion Hc as [|? ? Hb Hc']; subst.
    cbn [length app Nat.add]. rewrite Decoder_Uvarint_loop_unfold.
    unfold bind at 1. rewrite Decoder_Uint8_cursor. cbv zeta.
    destruct (Z.ltb_spec (byte_to_Z b) 128); [lia|].
    destruct (IH n (i + 1) (Z.lor x (to_uint64 (Z.shiftl (Z.land (byte_to_Z b) 127) bit)))
                (bit + 7) (pre ++ [b]) rest e Hc') as [x' E].
    exists x'. rewrite E, <- app_assoc, len_cons. cbn [app].
    replace (i + (1 + len front)) with (i + 1 + len front) by lia.
    replace (bit + 7 * (1 + len front)) with (bit + 7 + 7 * len front) by lia.
    reflexivity.
Qed.

Lemma Decoder_Uvarint_loop_fail (n : nat) : forall i x bit pre bs e v m d',
  i + Z.of_nat n = 10 -> 0 <= i ->
  Decoder.Uvarint_loop n i x bit (Decoder.cursor pre bs e) = Ret (v, m) d' ->
  m <= 0 ->
  v = 0 /\
  exists front rest,
    bs = front ++ rest /\ length front = n /\
    d' = Decoder.cursor (pre ++ front) rest e /\
    ((Forall (fun b => 128 <= byte_to_Z b) front /\ m = 0) \/
     (exists front' b, front = front' ++ [b] /\
        Forall (fun b => 128 <= byte_to_Z b) front' /\
        1 < byte_to_Z b < 128 /\ m = -10)).
Proof.
  induction n as [|n IH]; intros i x bit pre bs e v m d' Hi Hi0 H Hm.
  - cbn [Decoder.Uvarint_loop] in H. unfold ret in H. injection H as <- <- <-.
    split; [reflexivity|]. exists [], bs. rewrite app_nil_r.
    repeat split. left. split; [constructor|reflexivity].
  - rewrite Decoder_Uvarint_loop_unfold in H. unfold bind at 1 in H.
    destruct bs as [|b bs].
    { rewrite Decoder_Uint8_empty in H. discriminate H. }
    rewrite Decoder_Uint8_cursor in H. cbv zeta in H.
    destruct (Z.ltb_spec (byte_to_Z b) 128) as [Hlt|Hge].
    + destruct (Z.gtb_spec i 9); [lia|]. cbn [orb] in H.
      destruct (Z.eqb_spec i 9) as [Ei|Ei]; cbn [andb] in H.
      * destruct (Z.gtb_spec (byte_to_Z b) 1) as [Hb|Hb];
          unfold ret in H; injection H as <- <- <-; [|lia].
        split; [reflexivity|]. exists [b], bs.
        assert (n = 0%nat) by lia. subst n i.
        repeat split. right. exists [], b.
        repeat split; [constructor|lia|lia].
      * unfold ret in H. injection H as <- <- <-. lia.
    + assert (Hi' : i + 1 + Z.of_nat n = 10) by lia.
      assert (Hi0' : 0 <= i + 1) by lia.
      destruct (IH _ _ _ _ _ _ _ _ _ Hi' Hi0' H Hm)
        as (-> & front & rest & -> & Hl & -> & Hcase).
      split; [reflexivity|]. exists (b :: front), rest.
      rewrite <- app_assoc. cbn [app length]. repeat split; [lia|].
      destruct Hcase as [[Hc ->]|(front' & c & -> & Hc & Hcb & ->)].
      * left. split; [constructor; [lia|assumption]|reflexivity].
      * right. exists (b :: front'), c. repeat split; try lia.
        constructor; [lia|assumption].
Qed.

Lemma Decoder_Uvarint_tenth front b rest pre e :
  length front = 9%nat -> Forall (fun c => 128 <= byte_to_Z c) front ->
  (1 < byte_to_Z b < 128 ->
   Decoder.Uvarint (Decoder.cursor pre (front ++ b :: rest) e)
   = Ret (0, -10) (Decoder.cursor (pre ++ front ++ [b]) rest e)) /\
  (128 <= byte_to_Z b ->
   Decoder.Uvarint (Decoder.cursor pre (front ++ b :: rest) e)
   = Ret (0, 0) (Decoder.cursor (pre ++ front ++ [b]) rest e)).
Proof.
  intros Hl Hc.
  destruct (Decoder_Uvarint_loop_cont front 1 0 0 0 pre (b :: rest) e Hc)
    as [x' E].
  assert (Hstep :
    Decoder.Uvarint (Decoder.cursor pre (front ++ b :: rest) e)
    = if byte_to_Z b <? 128
      then if byte_to_Z b >? 1
           then Ret (0, -10) (Decoder.cursor (pre ++ front ++ [b]) rest e)
           else Ret (Z.lor x' (to_uint64 (Z.shiftl (Z.land (byte_to_Z b) 127) 63)), 10)
                    (Decoder.cursor (pre ++ front ++ [b]) rest e)
      else Ret (0, 0) (Decoder.cursor (pre ++ front ++ [b]) rest e)).
  { unfold Decoder.Uvarint. change (Z.to_nat MaxVarintLen64) with (9 + 1)%nat.
    rewrite <- Hl, E. unfold len. rewrite Hl.
    change (0 + Z.of_nat 9) with 9. change (0 + 7 * Z.of_nat 9) with 63.
    rewrite Decoder_Uvarint_loop_unfold. unfold bind at 1.
    rewrite Decoder_Uint8_cursor. cbv zeta. cbn [Decoder.Uvarint_loop].
    rewrite (app_assoc pre front [b]).
    destruct (byte_to_Z b <? 128); [|reflexivity].
    change (9 >? 9) with false. change (9 =? 9) with true. cbn [orb andb].
    destruct (byte_to_Z b >? 1); reflexivity. }
  rewrite Hstep. split; intros Hb.
  - destruct (Z.ltb_spec (byte_to_Z b) 128); [|lia].
    destruct (Z.gtb_spec (byte_to_Z b) 1); [|lia]. reflexivity.
  - destruct (Z.ltb_spec (byte_to_Z b) 128); [lia|]. reflexivity.
Qed.

Lemma Uvarint_failure_cases (pre bs : list byte) (e : Endian) :
  (forall v m d',
     Decoder.Uvarint (Decoder.cursor pre bs e) = Ret (v, m) d' -> m <= 0 ->
     v = 0 /\
     exists front b rest,
       bs = front ++ b :: rest /\ length front = 9%nat /\
       Forall (fun c => 128 <= byte_to_Z c) front /\
       d' = Decoder.cursor (pre ++ front ++ [b]) rest e /\
       ((1 < byte_to_Z b < 128 /\ m = -10) \/ (128 <= byte_to_Z b /\ m = 0))) /\
  (forall front b rest,
     bs = front ++ b :: rest -> length front = 9%nat ->
     Forall (fun c => 128 <= byte_to_Z c) front ->
     (1 < byte_to_Z b < 128 ->
      Decoder.Uvarint (Decoder.cursor pre bs e)
      = Ret (0, -10) (Decoder.cursor (pre ++ front ++ [b]) rest e) /\
      forall sb, exists sb',
        decoderReader.Uvarint (decoderReader.mk bs e sb)
        = Ret (0, -10) (decoderReader.mk rest e sb')) /\
     (128 <= byte_to_Z b ->
      Decoder.Uvarint (Decoder.cursor pre bs e)
      = Ret (0, 0) (Decoder.cursor (pre ++ front ++ [b]) rest e) /\
      forall sb, exists sb',
        decoderReader.Uvarint (decoderReader.mk bs e sb)
        = Ret (0, 0) (decoderReader.mk rest e sb'))).
Proof.
  split.
  - intros v m d' H Hm. unfold Decoder.Uvarint in H.
    change (Z.to_nat MaxVarintLen64) with 10%nat in H.
    destruct (Decoder_Uvarint_loop_fail 10 0 0 0 pre bs e v m d' eq_refl
                (Z.le_refl 0) H Hm)
      as (-> & front & rest & -> & Hl & -> & Hcase).
    split; [reflexivity|].
    destruct Hcase as [[Hc ->]|(front' & b & -> & Hc & Hb & ->)].
    + destruct (exists_last (l := front)) as (front' & b & ->).
      { intros ->. discriminate Hl. }
      apply Forall_app in Hc as [Hc Hb]. inversion Hb as [|? ? Hb' _]; subst.
      rewrite length_app in Hl. cbn [length] in Hl.
      exists front', b, rest. rewrite <- !app_assoc. cbn [app].
      repeat split; [lia|assumption|]. right. split; [assumption|reflexivity].
    + rewrite length_app in Hl. cbn [length] in Hl.
      exists front', b, rest. rewrite <- !app_assoc. cbn [app].
      repeat split; [lia|assumption|]. left. split; [assumption|reflexivity].
  - intros front b rest -> Hl Hc.
    destruct (Decoder_Uvarint_tenth front b rest pre e Hl Hc) as [H1 H2].
    destruct (Decoder_Uvarint_tenth front b rest [] e Hl Hc) as [H1' H2'].
    cbn [app] in H1', H2'.
    split; intros Hb; (split; [auto|]); intros sb.
    + change (front ++ b :: rest) with (front ++ [b] ++ rest).
      rewrite app_assoc.
      apply (sim_transfer Decoder.Uvarint decoderReader.Uvarint);
        [apply sim_Uvarint|].
      rewrite <- app_assoc. apply H1', Hb.
    + change (front ++ b :: rest) with (front ++ [b] ++ rest).
      rewrite app_assoc.
      apply (sim_transfer Decoder.Uvarint decoderReader.Uvarint);
        [apply sim_Uvarint|].
      rewrite <- app_assoc. apply H2', Hb.
Qed.

(** C4, as the code has it: [Uvarint] fails (returns a byte count [<= 0])
    in exactly two ways, both after consuming 10 bytes and both with value
    0.  When the 10th byte ends the varint with a payload above 1 the count
    is [-10], the negation of the bytes consumed; when the 10th byte still
    has its continuation bit the count is [0].  A 10-byte sequence whose
    final byte's low 7 bits exceed 1 is rejected with the negative count in
    the buffer decoder and in the stream decoder. *)
Theorem Uvarint_failure (pre bs : list byte) (e : Endian) :
  (forall v m d',
     Decoder.Uvarint (Decoder.cursor pre bs e) = Ret (v, m) d' -> m <= 0 ->
     v = 0 /\
     exists front b rest,
       bs = front ++ b :: rest /\ length front = 9%nat /\
       Forall (fun c => 128 <= byte_to_Z c) front /\
       d' = Decoder.cursor (pre ++ front ++ [b]) rest e /\
       ((1 < byte_to_Z b < 128 /\ m = -10) \/ (128 <= byte_to_Z b /\ m = 0))) /\
  (forall front b rest,
     bs = front ++ b :: rest -> length front = 9%nat ->
     Forall (fun c => 128 <= byte_to_Z c) front ->
     (1 < byte_to_Z b < 128 ->
      Decoder.Uvarint (Decoder.cursor pre bs e)
      = Ret (0, -10) (Decoder.cursor (pre ++ front ++ [b]) rest e) /\
      forall sb, exists sb',
        decoderReader.Uvarint (decoderReader.mk bs e sb)
        = Ret (0, -10) (decoderReader.mk rest e sb')) /\
     (128 <= byte_to_Z b ->
      Decoder.Uvarint (Decoder.cursor pre bs e)
      = Ret (0, 0) (Decoder.cursor (pre ++ front ++ [b]) rest e) /\
      forall sb, exists sb',
        decoderReader.Uvarint (decoderReader.mk bs e sb)
        = Ret (0, 0) (decoderReader.mk rest e sb'))).
Proof.
  destruct (Uvarint_failure_cases pre bs e) as [H1 H2].
  split; [exact H1|exact H2].
Qed.

(** C4 fails as stated: on ten bytes that all carry the continuation bit,
    [Uvarint] consumes 10 bytes and reports the byte count 0, not -10. *)
Lemma Uvarint_count_not_negated :
  Decoder.Uvarint
    (Decoder.cursor [] (repeat Byte.x80 10 ++ [Byte.x01]) LittleEndian)
  = Ret (0, 0) (Decoder.cursor (repeat Byte.x80 10) [Byte.x01] LittleEndian) /\
  Decoder.pos (Decoder.cursor (repeat Byte.x80 10) [Byte.x01] LittleEndian)
  - Decoder.pos
      (Decoder.cursor [] (repeat Byte.x80 10 ++ [Byte.x01]) LittleEndian)
  = 10 /\
  0 <> - 10.
Proof. repeat split. intros H. discriminate H. Qed.

Lemma Uvarint_failure_witness :
  Forall (fun c => 128 <= byte_to_Z c) (repeat Byte.x80 9) /\
  1 < byte_to_Z Byte.x02 < 128 /\
  Decoder.Uvarint
    (Decoder.cursor [] (repeat Byte.x80 9 ++ Byte.x02 :: [Byte.x07]) LittleEndian)
  = Ret (0, -10)
        (Decoder.cursor ([] ++ repeat Byte.x80 9 ++ [Byte.x02]) [Byte.x07]
           LittleEndian).
Proof.
  assert (Hc : Forall (fun c => 128 <= byte_to_Z c) (repeat Byte.x80 9))
    by (repeat constructor; discriminate).
  assert (Hb : 1 < byte_to_Z Byte.x02 < 128) by (split; reflexivity).
  split; [exact Hc|]. split; [exact Hb|].
  exact (proj1 (proj1 (proj2 (Uvarint_failure [] _ LittleEndian)
                         (repeat Byte.x80 9) Byte.x02 [Byte.x07]
                         eq_refl eq_refl Hc) Hb)).
Defined.

(** ** Pointers in the stream decoder *)

(** C10: in the stream decoder a pointer destination is given fresh zeroed
    storage only when it is nil and its pointee kind is in the supported
    list, and decoding then goes into that storage; a pointer that is
    already non-nil is refused with the unsupported-type error, its pointee
    left as it was and no byte consumed; so is a nil pointer to a kind
    outside the list. *)
Theorem decoderReader_pointer_only_nil (e : rtype) :
  (forall v, fst (decoderReader.newPtr (TPtr e) v) = true <->
             v = VPtr None /\ ptr_kind_supported e = true) /\
  (forall v, fst (decoderReader.newPtr (TPtr e) v) = true ->
             snd (decoderReader.newPtr (TPtr e) v) = VPtr (Some (zero e))) /\
  (forall p s,
     decoderReader.value (TPtr e) (VPtr (Some p)) s
     = Ret (VPtr (Some p), Some ErrUnsupportedType) s) /\
  (forall s,
     decoderReader.value (TPtr e) (VPtr None) s
     = if ptr_kind_supported e
       then ('(p', err) <- decoderReader.value e (zero e) ;;
             ret (VPtr (Some p'), err)) s
       else Ret (VPtr None, Some ErrUnsupportedType) s).
Proof.
  split; [|split; [|split]].
  - intros v. split.
    + destruct v as [| | | | | | | | | | | |[p|]|]; cbn; try discriminate;
        destruct e; cbn; intros H; try discriminate H; split; reflexivity.
    + intros [-> H]. destruct e; try discriminate H; reflexivity.
  - intros v H.
    destruct v as [| | | | | | | | | | | |[p|]|]; try discriminate H;
      destruct e; try discriminate H; reflexivity.
  - intros p s. reflexivity.
  - intros s. destruct e; reflexivity.
Qed.

(** ** Faults and the entry points *)






(** ** A failed varint inside a decode *)

Lemma Decoder_reserve_zero pre bs e :
  Decoder.reserve 0 (Decoder.cursor pre bs e) = Ret [] (Decoder.cursor pre bs e).
Proof.
  change bs with ([] ++ bs) at 1.
  rewrite (Decoder_reserve_cursor pre [] bs e 0 eq_refl), app_nil_r. reflexivity.
Qed.

(** C7, as the code has it: the decoders drop the byte count of every
    length and count varint ([s, _ := this.Uvarint()]).  When that varint
    fails the value 0 it yields is taken as the length or count and the
    decode goes on as a success: [String] returns the empty string,
    [Value] on a [*string] returns no error, a map is decoded as empty and
    a slice of non-bool elements as empty. *)
Theorem varint_failure_is_dropped (pre bs : list byte) (e : Endian)
    (v m : Z) (d' : Decoder.t) :
  Decoder.Uvarint (Decoder.cursor pre bs e) = Ret (v, m) d' ->
  m <= 0 ->
  Decoder.String (Decoder.cursor pre bs e) = Ret [] d' /\
  (forall newPtr x0,
     Decoder.Value newPtr (PtrTo TString x0) (Decoder.cursor pre bs e)
     = Decoder.Returned None (PtrTo TString (VString [])) d') /\
  (forall newPtr kt vt x0,
     Decoder.value newPtr (TMap kt vt) x0 (Decoder.cursor pre bs e)
     = Ret (VMap [], None) d') /\
  (forall newPtr el x0,
     is_Bool el = false ->
     Decoder.value newPtr (TSlice el) x0 (Decoder.cursor pre bs e)
     = Ret (VSlice [], None) d').
Proof.
  intros H Hm.
  destruct (proj1 (Uvarint_failure_cases pre bs e) v m d' H Hm)
    as (-> & front & b & rest & -> & _ & _ & -> & _).
  assert (HS : Decoder.String (Decoder.cursor pre (front ++ b :: rest) e)
               = Ret [] (Decoder.cursor (pre ++ front ++ [b]) rest e)).
  { unfold Decoder.String, bind. rewrite H. change (to_int 0) with 0.
    apply Decoder_reserve_zero. }
  split; [exact HS|]. split; [|split].
  - intros newPtr x0.
    unfold Decoder.Value, Decoder.Value_body, Decoder.fastValue.
    cbn [Decoder.fast]. unfold bind at 1 2 3. rewrite HS. reflexivity.
  - intros newPtr kt vt x0. cbn [Decoder.value]. unfold bind at 1.
    rewrite H. reflexivity.
  - intros newPtr el x0 Hb.
    assert (HB : forall d, Decoder.boolArray (TSlice el) x0 d = Ret (-1, x0) d)
      by (intros d; destruct el; try discriminate Hb; reflexivity).
    cbn [Decoder.value]. unfold bind at 1. rewrite HB.
    change (-1 <? 0) with true. cbv iota. unfold bind at 1. rewrite H.
    reflexivity.
Qed.

Lemma varint_failure_is_dropped_witness :
  - 10 <= 0 /\
  Decoder.String
    (Decoder.cursor [] (repeat Byte.x80 9 ++ [Byte.x02; Byte.x07]) LittleEndian)
  = Ret [] (Decoder.cursor (repeat Byte.x80 9 ++ [Byte.x02]) [Byte.x07]
              LittleEndian).
Proof.
  assert (H : - 10 <= 0) by (intros C; discriminate C).
  split; [exact H|].
  exact (proj1 (varint_failure_is_dropped []
                  (repeat Byte.x80 9 ++ [Byte.x02; Byte.x07]) LittleEndian 0 (-10)
                  (Decoder.cursor (repeat Byte.x80 9 ++ [Byte.x02]) [Byte.x07]
                     LittleEndian)
                  eq_refl H)).
Defined.

(** C7 fails as stated: the length prefix of this string is a 10-byte
    varint whose last byte has payload 2; [Uvarint] reports -10 on it, and
    [Value] on a [*string] still returns without an error, the string
    empty. *)
Lemma String_prefix_failure_not_propagated :
  Decoder.Uvarint
    (Decoder.cursor [] (repeat Byte.x80 9 ++ [Byte.x02; Byte.x07]) LittleEndian)
  = Ret (0, -10)
        (Decoder.cursor (repeat Byte.x80 9 ++ [Byte.x02]) [Byte.x07] LittleEndian) /\
  Decoder.Value (fun _ v => (false, v)) (PtrTo TString (VString [Byte.x41]))
    (Decoder.cursor [] (repeat Byte.x80 9 ++ [Byte.x02; Byte.x07]) LittleEndian)
  = Decoder.Returned None (PtrTo TString (VString []))
      (Decoder.cursor (repeat Byte.x80 9 ++ [Byte.x02]) [Byte.x07] LittleEndian).
Proof. split; reflexivity. Qed.

(** ** Backend equivalence *)

Lemma sim_fast_slice {A} (r1 : M _ A) r2 (z : A) (inj : A -> rvalue) :
  sim r1 r2 ->
  sim (Decoder.fast_slice r1 z inj) (decoderReader.fast_slice r2 z inj).
Proof.
  intros Hr. unfold Decoder.fast_slice, decoderReader.fast_slice.
  apply sim_bind; [apply sim_Uvarint|]. intros [s n]. cbv zeta.
  apply sim_bind; [apply sim_make|]. intros d0.
  apply sim_bind; [|intros; apply sim_ret].
  apply sim_for_loop. intros j d1.
  apply sim_bind; [exact Hr|]. intros; apply sim_ret.
Qed.

Lemma sim_fast (ty : rtype) m1 m2 :
  Decoder.fast ty = Some m1 -> decoderReader.fast ty = Some m2 -> sim m1 m2.
Proof.
  intros H1 H2.
  destruct ty; try discriminate H2;
    try (injection H1 as <-; injection H2 as <-).
  - sim_scalar sim_Bool.
  - sim_scalar sim_Int8.
  - sim_scalar sim_Int16.
  - sim_scalar sim_Int32.
  - sim_scalar sim_Int64.
  - sim_scalar sim_Uint8.
  - sim_scalar sim_Uint16.
  - sim_scalar sim_Uint32.
  - sim_scalar sim_Uint64.
  - sim_scalar sim_Uint32.
  - sim_scalar sim_Uint64.
  - sim_scalar sim_Complex64.
  - sim_scalar sim_Complex128.
  - sim_scalar sim_String.
  - destruct ty; try discriminate H2; injection H1 as <-; injection H2 as <-;
      try (apply sim_fast_slice;
           first [apply sim_Int8|apply sim_Int16|apply sim_Int32|apply sim_Int64
                 |apply sim_Uint8|apply sim_Uint16|apply sim_Uint32|apply sim_Uint64
                 |apply sim_Complex64|apply sim_Complex128|apply sim_String]).
    apply sim_bind; [apply sim_Uvarint|]. intros [s n]. cbv zeta.
    apply sim_bind; [apply sim_make|]. intros d0.
    apply sim_bind; [|intros [b d1]; apply sim_ret].
    apply sim_for_loop. intros j st. apply sim_bool_step.
    intros; apply sim_ret.
Qed.




(** ** The fast path and the general decoder *)

Lemma set_nth_length {A} (n : nat) (x : A) (l : list A) :
  length (set_nth n x l) = length l.
Proof.
  revert n. induction l as [|y l IH]; intros [|n]; cbn [set_nth length];
    try reflexivity. now rewrite IH.
Qed.

Lemma map_set_nth {A B} (f : A -> B) (n : nat) (x : A) (l : list A) :
  map f (set_nth n x l) = set_nth n (f x) (map f l).
Proof.
  revert n. induction l as [|y l IH]; intros [|n]; cbn [set_nth map];
    try reflexivity. now rewrite IH.
Qed.

(** Two loops over the same decoder, kept in step by a relation. *)
Lemma for_loop_rel {St A B} (R : Z -> A -> B -> Prop) (k : nat) :
  forall i (b1 : Z -> A -> M St A) (b2 : Z -> B -> M St B) a b st,
    (forall j a b st, i <= j < i + Z.of_nat k -> R j a b ->
       rel_res (R (j + 1)) (b1 j a st) (b2 j b st)) ->
    R i a b ->
    rel_res (R (i + Z.of_nat k)) (for_loop k i b1 a st) (for_loop k i b2 b st).
Proof.
  induction k as [|k IH]; intros i b1 b2 a b st Hb HR; cbn [for_loop].
  - unfold ret, rel_res. rewrite Z.add_0_r. split; [exact HR|reflexivity].
  - unfold bind.
    pose proof (Hb i a b st ltac:(lia) HR) as H1. unfold rel_res in H1.
    destruct (b1 i a st) as [a' s1|p], (b2 i b st) as [b' s2|q];
      try contradiction; [|exact H1].
    destruct H1 as [HR' <-].
    replace (i + Z.of_nat (S k)) with (i + 1 + Z.of_nat k) by lia.
    apply IH; [|exact HR']. intros j a0 b0 st0 Hj. apply Hb. lia.
Qed.

Lemma rel_bind_same {St C A B} (R : A -> B -> Prop) (m : M St C)
    (k1 : C -> M St A) (k2 : C -> M St B) st :
  (forall c s, rel_res R (k1 c s) (k2 c s)) ->
  rel_res R (bind m k1 st) (bind m k2 st).
Proof.
  intros H. unfold bind. destruct (m st) as [c s|p]; [apply H|reflexivity].
Qed.

Lemma rel_bind {St A B A' B'} (R : A -> B -> Prop) (R' : A' -> B' -> Prop)
    (m1 : M St A) (m2 : M St B) (k1 : A -> M St A') (k2 : B -> M St B') st :
  rel_res R (m1 st) (m2 st) ->
  (forall a b s, R a b -> rel_res R' (k1 a s) (k2 b s)) ->
  rel_res R' (bind m1 k1 st) (bind m2 k2 st).
Proof.
  intros Hm Hk. unfold bind. unfold rel_res in Hm.
  destruct (m1 st) as [a s1|p], (m2 st) as [b s2|q]; try contradiction.
  - destruct Hm as [HR <-]. apply Hk, HR.
  - exact Hm.
Qed.

Lemma Index_slice_map {S A} (inj : A -> rvalue) (d : list A) (i : Z) (st : S) :
  0 <= i < len d ->
  exists x, nth_error d (Z.to_nat i) = Some x /\
            Index (VSlice (map inj d)) i st = Ret (inj x) st.
Proof.
  intros Hi. unfold Index. cbn [Len elems]. unfold len in *.
  rewrite length_map.
  destruct (Z.leb_spec 0 i); [|lia]. destruct (Z.ltb_spec i (Z.of_nat (length d))); [|lia].
  cbn [andb]. rewrite nth_error_map.
  destruct (nth_error d (Z.to_nat i)) as [x|] eqn:E.
  - exists x. split; reflexivity.
  - apply nth_error_None in E. lia.
Qed.

Lemma bind_Ret {St A B} (m : M St A) (k : A -> M St B) d a d' :
  m d = Ret a d' -> bind m k d = k a d'.
Proof. intros H. unfold bind. now rewrite H. Qed.

Lemma bind_Panic {St A B} (m : M St A) (k : A -> M St B) d p :
  m d = Panic p -> bind m k d = Panic p.
Proof. intros H. unfold bind. now rewrite H. Qed.

Lemma bind_assoc_eq {St A B} (m m' : M St A) (k : A -> M St B) d :
  m d = m' d -> bind m k d = bind m' k d.
Proof. intros H. unfold bind. now rewrite H. Qed.

Lemma bind_ret_l {St A B} (a : A) (k : A -> M St B) d :
  bind (ret a) k d = k a d.
Proof. reflexivity. Qed.

Section FastSlice.

Variable newPtr : rtype -> rvalue -> bool * rvalue.
Variable A : Type.
Variable read : M Decoder.t A.
Variable z : A.
Variable inj : A -> rvalue.
Variable e : rtype.
Hypothesis value_e : forall x d,
  Decoder.value newPtr e x d = (y <- read ;; ret (inj y, None)) d.
Hypothesis zero_e : zero e = inj z.
Hypothesis not_bool : forall v d, Decoder.boolArray (TSlice e) v d = Ret (-1, v) d.

Lemma fast_slice_value (v : rvalue) (d : Decoder.t) :
  same_decode (Decoder.fast_slice read z inj d)
              (Decoder.value newPtr (TSlice e) v d).
Proof.
  cbn [Decoder.value]. unfold Decoder.fast_slice.
  rewrite (bind_Ret _ _ _ _ _ (not_bool v d)).
  change (-1 <? 0) with true. cbv iota.
  destruct (Decoder.Uvarint d) as [[s n] d1|p] eqn:EU.
  2: { rewrite !(bind_Panic _ _ _ _ EU). reflexivity. }
  rewrite !(bind_Ret _ _ _ _ _ EU). cbv zeta.
  unfold make, MakeSlice.
  destruct (Z.ltb_spec (to_int s) 0) as [Hneg|Hpos]; [reflexivity|].
  rewrite !bind_ret_l. cbn [Len]. unfold len at 1.
  rewrite repeat_length, zero_e, Z2Nat.id by lia.
  apply (rel_bind (fun (a : list A) (b : rvalue) => b = VSlice (map inj a))).
  2: { intros a b s0 ->. split; reflexivity. }
  pose proof (for_loop_rel
    (fun (j : Z) (a : list A) (b : rvalue) =>
       0 <= j /\ b = VSlice (map inj a) /\ len a = to_int s)
    (Z.to_nat (to_int s)) 0
    (fun i d0 => x <- read ;; ret (set_nth (Z.to_nat i) x d0))
    (fun i w =>
       if i <? to_int s
       then x <- Index w i ;;
            '(x', _) <- Decoder.value newPtr e x ;; ret (SetIndex w i x')
       else _ <- Decoder.skipByType e ;; ret w)
    (repeat z (Z.to_nat (to_int s)))
    (VSlice (repeat (inj z) (Z.to_nat (to_int s)))) d1) as Hloop.
  cbv beta in Hloop.
  lapply Hloop; [clear Hloop; intros Hloop; lapply Hloop; [clear Hloop; intros Hloop|]|].
  2: { split; [lia|]. split.
       - now rewrite map_repeat.
       - unfold len. rewrite repeat_length. lia. }
  2: { intros j a b st Hj (Hj0 & -> & Hlen).
       destruct (Z.ltb_spec j (to_int s)); [|lia].
       destruct (Index_slice_map (S := Decoder.t) inj a j st ltac:(lia)) as (x & Hx & HI).
       rewrite (bind_Ret _ _ _ _ _ HI).
       rewrite (bind_assoc_eq _ _ _ _ (value_e (inj x) st)).
       unfold rel_res, bind. destruct (read st) as [y st'|p]; [|reflexivity].
       unfold ret. split; [|reflexivity]. split; [lia|]. split.
       - unfold SetIndex. cbn [elems with_elems]. now rewrite map_set_nth.
       - unfold len in *. now rewrite set_nth_length. }
  unfold rel_res in *.
  destruct (for_loop _ _ _ (repeat z _) d1) as [a' s1|p],
           (for_loop _ _ _ (VSlice _) d1) as [b' s2|q];
    try contradiction; [|exact Hloop].
  destruct Hloop as [(_ & -> & _) <-]. split; reflexivity.
Qed.

End FastSlice.

Lemma to_int_range (x : Z) : - 2 ^ 63 <= to_int x < 2 ^ 63.
Proof.
  unfold to_int, to_signed. change (64 - 1) with 63.
  pose proof (Z.mod_pos_bound (x + 2 ^ 63) (2 ^ 64) eq_refl) as H.
  change (2 ^ 64) with 18446744073709551616 in *.
  change (2 ^ 63) with 9223372036854775808 in *. lia.
Qed.

Lemma to_int_small (x : Z) : - 2 ^ 63 <= x < 2 ^ 63 -> to_int x = x.
Proof.
  intros H. unfold to_int, to_signed. change (64 - 1) with 63.
  change (2 ^ 64) with 18446744073709551616 in *.
  change (2 ^ 63) with 9223372036854775808 in *.
  rewrite Z.mod_small; lia.
Qed.

Lemma SizeofUvarint_range (x : Z) : 1 <= SizeofUvarint x <= 10.
Proof.
  unfold SizeofUvarint. rewrite SizeofUvarint_loop_Put.
  pose proof (PutUvarint_loop_len 9 x). lia.
Qed.

Lemma sizeofBoolArray_small (l : Z) :
  0 <= l < 2 ^ 63 ->
  sizeofBoolArray l = SizeofUvarint l + (l + 7) / 8 /\ 0 < sizeofBoolArray l.
Proof.
  intros H. unfold sizeofBoolArray, int_add, go_div, to_uint64.
  pose proof (SizeofUvarint_range l).
  assert (0 <= (l + 7) / 8) by (apply Z.div_pos; lia).
  assert ((l + 7) / 8 <= l + 7) by (apply Z.div_le_upper_bound; lia).
  assert ((l + 7) / 8 < 2 ^ 60 + 1).
  { apply Z.div_lt_upper_bound; [lia|].
    change (2 ^ 63) with 9223372036854775808 in H.
    change (2 ^ 60) with 1152921504606846976. lia. }
  rewrite (Z.mod_small l)
    by (change (2 ^ 64) with 18446744073709551616;
        change (2 ^ 63) with 9223372036854775808 in H; lia).
  replace (l + 8 - 1) with (l + 7) by lia.
  rewrite Z.quot_div_nonneg by lia.
  rewrite to_int_small; [lia|].
  change (2 ^ 63) with 9223372036854775808 in *.
  change (2 ^ 60) with 1152921504606846976 in *. lia.
Qed.

Lemma bool_loop_rel (l : Z) (k : nat) (i : Z) (b : list byte) (d : list bool)
    (st : Decoder.t) :
  len d = l -> 0 <= i -> i + Z.of_nat k <= l ->
  rel_res (fun (x : list byte * list bool) (y : list byte * rvalue) =>
             snd y = VSlice (map VBool (snd x)))
    (for_loop k i
       (Decoder.bool_step (fun d i x => ret (set_nth (Z.to_nat i) x d))) (b, d) st)
    (for_loop k i (Decoder.bool_step Decoder.set_bool_at)
       (b, VSlice (map VBool d)) st).
Proof.
  intros Hlen Hi Hk.
  pose proof (for_loop_rel
    (fun (j : Z) (x : list byte * list bool) (y : list byte * rvalue) =>
       0 <= j /\ fst x = fst y /\ snd y = VSlice (map VBool (snd x)) /\
       len (snd x) = l)
    k i
    (Decoder.bool_step (fun d i x => ret (set_nth (Z.to_nat i) x d)))
    (Decoder.bool_step Decoder.set_bool_at)
    (b, d) (b, VSlice (map VBool d)) st) as Hloop.
  cbv beta in Hloop.
  lapply Hloop; [clear Hloop; intros Hloop; lapply Hloop; [clear Hloop; intros Hloop|]|].
  2: { cbn [fst snd]. repeat split; [lia|exact Hlen]. }
  2: { intros j [b1 d1] [b2 w] s0 Hj (Hj0 & Hb & Hw & Hl). cbn [fst snd] in *.
       subst b2 w. unfold Decoder.bool_step.
       apply rel_bind_same. intros b' s1.
       apply rel_bind_same. intros b0 s2.
       unfold Decoder.set_bool_at.
       destruct (Index_slice_map (S := Decoder.t) VBool d1 j s2 ltac:(lia))
         as (x & Hx & HI).
       unfold bind, ret. rewrite HI. unfold rel_res. cbn [fst snd].
       repeat split; [lia| |].
       - unfold SetIndex. cbn [elems with_elems].
         now rewrite (map_set_nth VBool).
       - unfold len in *. now rewrite set_nth_length. }
  unfold rel_res in *.
  destruct (for_loop k i _ (b, d) st) as [[b1 d1] s1|p],
           (for_loop k i _ (b, VSlice _) st) as [[b2 w] s2|q];
    try contradiction; [|exact Hloop].
  cbn [fst snd] in *. destruct Hloop as [(_ & _ & -> & _) <-].
  split; reflexivity.
Qed.

Lemma fast_bool_slice_value (newPtr : rtype -> rvalue -> bool * rvalue)
    (m : M Decoder.t rvalue) (v : rvalue) (d d1 : Decoder.t) (s n : Z) :
  Decoder.fast (TSlice TBool) = Some m ->
  Decoder.Uvarint d = Ret (s, n) d1 ->
  (0 < to_int s ->
   same_decode (m d) (Decoder.value newPtr (TSlice TBool) v d)) /\
  (to_int s = 0 ->
   m d = Ret (VSlice []) d1 /\
   Decoder.value newPtr (TSlice TBool) v d = Ret (v, None) d1).
Proof.
  intros Hm EU. injection Hm as <-. cbn [Decoder.value]. unfold Decoder.boolArray.
  rewrite bind_assoc. rewrite !(bind_Ret _ _ _ _ _ EU). cbv zeta.
  split.
  - intros Hl. pose proof (to_int_range s) as Hr.
    destruct (sizeofBoolArray_small (to_int s) ltac:(lia)) as [_ Hsz].
    unfold make, MakeSlice.
    destruct (Z.ltb_spec (to_int s) 0); [lia|].
    destruct (Z.gtb_spec (to_int s) 0); [|lia].
    rewrite !bind_ret_l. cbn [zero].
    rewrite (bind_assoc (ret (VSlice (repeat (VBool false) (Z.to_nat (to_int s)))))).
    rewrite !bind_ret_l.
    replace (repeat (VBool false) (Z.to_nat (to_int s)))
      with (map VBool (repeat false (Z.to_nat (to_int s))))
      by apply map_repeat.
    pose proof (bool_loop_rel (to_int s) (Z.to_nat (to_int s)) 0 []
                  (repeat false (Z.to_nat (to_int s))) d1) as Hloop.
    lapply Hloop; [clear Hloop; intros Hloop|unfold len; rewrite repeat_length; lia].
    specialize (Hloop ltac:(lia) ltac:(lia)).
    unfold same_decode, rel_res in *. unfold bind.
    destruct (for_loop _ 0 _ ([], repeat false _) d1) as [[b1 d'] s1|p],
             (for_loop _ 0 _ ([], VSlice _) d1) as [[b2 w] s2|q];
      try contradiction; [|exact Hloop].
    cbn [snd] in Hloop. destruct Hloop as [-> <-]. unfold ret.
    destruct (Z.ltb_spec (sizeofBoolArray (to_int s)) 0); [lia|].
    split; reflexivity.
  - intros ->. split; reflexivity.
Qed.

Ltac fast_scalar :=
  unfold same_decode; apply rel_bind_same; intros; split; reflexivity.

Ltac fast_slice_case newPtr read z inj :=
  apply (fast_slice_value newPtr _ read z inj);
  [intros; reflexivity | reflexivity | intros; reflexivity].

(** The fast-path cases against [value] on the same pointee. *)
Lemma fast_value_cases (newPtr : rtype -> rvalue -> bool * rvalue)
    (ty : rtype) (m : M Decoder.t rvalue) (v : rvalue) (d : Decoder.t) :
  Decoder.fast ty = Some m ->
  (ty <> TSlice TBool ->
   same_decode (m d) (Decoder.value newPtr ty v d)) /\
  (ty = TSlice TBool ->
   forall s n d1,
     Decoder.Uvarint d = Ret (s, n) d1 ->
     (0 < to_int s -> same_decode (m d) (Decoder.value newPtr ty v d)) /\
     (to_int s = 0 ->
      m d = Ret (VSlice []) d1 /\
      Decoder.value newPtr ty v d = Ret (v, None) d1)).
Proof.
  intros Hm. split.
  - intros Hne.
    destruct ty; try discriminate Hm;
      try (injection Hm as <-; cbn [Decoder.value]; fast_scalar).
    + injection Hm as <-. cbn [Decoder.value]. unfold same_decode.
      apply rel_bind_same. intros [re im] s0. split; reflexivity.
    + injection Hm as <-. cbn [Decoder.value]. unfold same_decode.
      apply rel_bind_same. intros [re im] s0. split; reflexivity.
    + destruct ty; try discriminate Hm; [congruence|..]; injection Hm as <-.
      * fast_slice_case newPtr Decoder.Int 0 VInt.
      * fast_slice_case newPtr Decoder.Int8 0 VInt.
      * fast_slice_case newPtr Decoder.Int16 0 VInt.
      * fast_slice_case newPtr Decoder.Int32 0 VInt.
      * fast_slice_case newPtr Decoder.Int64 0 VInt.
      * fast_slice_case newPtr Decoder.Uint 0 VUint.
      * fast_slice_case newPtr Decoder.Uint8 0 VUint.
      * fast_slice_case newPtr Decoder.Uint16 0 VUint.
      * fast_slice_case newPtr Decoder.Uint32 0 VUint.
      * fast_slice_case newPtr Decoder.Uint64 0 VUint.
      * fast_slice_case newPtr Decoder.Float32 0 VFloat32.
      * fast_slice_case newPtr Decoder.Float64 0 VFloat64.
      * apply (fast_slice_value newPtr _ Decoder.Complex64 (0, 0) VComplex64');
          [|reflexivity|intros; reflexivity].
        intros x d0. cbn [Decoder.value]. unfold bind.
        destruct (Decoder.Complex64 d0) as [[re im] s0|p]; reflexivity.
      * apply (fast_slice_value newPtr _ Decoder.Complex128 (0, 0) VComplex128');
          [|reflexivity|intros; reflexivity].
        intros x d0. cbn [Decoder.value]. unfold bind.
        destruct (Decoder.Complex128 d0) as [[re im] s0|p]; reflexivity.
      * fast_slice_case newPtr Decoder.String (@nil byte) VString.
  - intros -> s n d1 EU. apply (fast_bool_slice_value newPtr m v d d1 s n Hm EU).
Qed.




(** ** The bool-sequence codec *)

Lemma mask_test (b0 bit : Z) :
  0 <= bit < 8 ->
  negb (Z.land b0 (Z.shiftl 1 bit mod 256) =? 0) = Z.testbit b0 bit.
Proof.
  intros Hb. rewrite Z.shiftl_mul_pow2, Z.mul_1_l by lia.
  assert (Hp : 0 < 2 ^ bit < 256).
  { split; [apply Z.pow_pos_nonneg; lia|].
    change 256 with (2 ^ 8). apply Z.pow_lt_mono_r; lia. }
  rewrite Z.mod_small by lia.
  destruct (Z.testbit b0 bit) eqn:E.
  - destruct (Z.eqb_spec (Z.land b0 (2 ^ bit)) 0) as [H0|]; [|reflexivity].
    assert (Ht : Z.testbit (Z.land b0 (2 ^ bit)) bit = true)
      by (rewrite Z.land_spec, E, Z.pow2_bits_true by lia; reflexivity).
    rewrite H0, Z.bits_0 in Ht. discriminate Ht.
  - assert (H0 : Z.land b0 (2 ^ bit) = 0).
    { apply Z.bits_inj'. intros m Hm. rewrite Z.land_spec, Z.bits_0.
      rewrite Z.pow2_bits_eqb by lia.
      destruct (Z.eqb_spec bit m) as [<-|]; [now rewrite E|apply andb_false_r]. }
    rewrite H0. reflexivity.
Qed.

Lemma for_loop_S {St A} (n : nat) i (body : Z -> A -> M St A) a :
  for_loop (S n) i body a = (a' <- body i a ;; for_loop n (i + 1) body a').
Proof. reflexivity. Qed.

Lemma bind_ext {St A B} (m : M St A) (k1 k2 : A -> M St B) st :
  (forall a s, k1 a s = k2 a s) -> bind m k1 st = bind m k2 st.
Proof. intros H. unfold bind. destruct (m st); [apply H|reflexivity]. Qed.

Lemma for_loop_snoc {St A} (k : nat) : forall i (body : Z -> A -> M St A) a st,
  for_loop (S k) i body a st
  = (a' <- for_loop k i body a ;; body (i + Z.of_nat k) a') st.
Proof.
  induction k as [|k IH]; intros i body a st.
  - cbn [for_loop]. unfold bind, ret. rewrite Z.add_0_r.
    destruct (body i a st); reflexivity.
  - rewrite (for_loop_S (S k)), (for_loop_S k), bind_assoc.
    apply bind_ext. intros a' s. rewrite IH.
    replace (i + 1 + Z.of_nat k) with (i + Z.of_nat (S k)) by lia.
    reflexivity.
Qed.

Lemma set_nth_app_skipn {A} (k : nat) (x : A) (front d0 : list A) :
  length front = k -> (k < length d0)%nat ->
  set_nth k x (front ++ skipn k d0) = (front ++ [x]) ++ skipn (S k) d0.
Proof.
  revert front d0. induction k as [|k IH]; intros front d0 Hf Hd.
  - destruct front; [|discriminate Hf]. destruct d0; [cbn in Hd; lia|].
    reflexivity.
  - destruct front as [|y front]; [discriminate Hf|].
    destruct d0 as [|z d0]; [cbn in Hd; lia|].
    cbn [app skipn set_nth]. f_equal. apply IH; cbn in *; lia.
Qed.

Lemma unpack_bools_snoc (data : list byte) (k : nat) :
  unpack_bools data (S k) = unpack_bools data k ++ [bool_at data k].
Proof. unfold unpack_bools. rewrite seq_S, map_app. reflexivity. Qed.

Lemma unpack_bools_length (data : list byte) (k : nat) :
  length (unpack_bools data k) = k.
Proof. unfold unpack_bools. now rewrite length_map, length_seq. Qed.

Lemma div8_aligned (k : nat) :
  (k mod 8 = 0 -> (k + 7) / 8 = k / 8 /\ (S k + 7) / 8 = S (k / 8))%nat.
Proof.
  intros H.
  assert (Hz : Z.of_nat k mod 8 = 0)
    by (change 8 with (Z.of_nat 8); rewrite <- Nat2Z.inj_mod, H; reflexivity).
  split; apply Nat2Z.inj;
    rewrite ?Nat2Z.inj_succ, !Nat2Z.inj_div, ?Nat2Z.inj_add, ?Nat2Z.inj_succ;
    change (Z.of_nat 8) with 8; change (Z.of_nat 7) with 7;
    Z.to_euclidean_division_equations; lia.
Qed.

Lemma div8_inside (k : nat) :
  (k mod 8 <> 0 ->
   (k + 7) / 8 = S (k / 8) /\ (S k + 7) / 8 = S (k / 8) /\
   (k - 1) / 8 = k / 8 /\ k <> 0)%nat.
Proof.
  intros H.
  assert (Hz : Z.of_nat k mod 8 <> 0).
  { intros C. apply H. apply Nat2Z.inj. rewrite Nat2Z.inj_mod. exact C. }
  assert (Hk : k <> 0%nat) by (intros ->; apply H; reflexivity).
  repeat split; try assumption; apply Nat2Z.inj;
    rewrite ?Nat2Z.inj_succ, !Nat2Z.inj_div, ?Nat2Z.inj_add, ?Nat2Z.inj_sub,
      ?Nat2Z.inj_succ by lia;
    change (Z.of_nat 8) with 8; change (Z.of_nat 7) with 7;
    change (Z.of_nat 1) with 1;
    Z.to_euclidean_division_equations; lia.
Qed.

Lemma ceil8_lt (k l : nat) : (k < l -> k / 8 < (l + 7) / 8)%nat.
Proof.
  intros H. apply Nat2Z.inj_lt. rewrite !Nat2Z.inj_div, Nat2Z.inj_add.
  change (Z.of_nat 8) with 8; change (Z.of_nat 7) with 7.
  Z.to_euclidean_division_equations; lia.
Qed.

Lemma skipn_nth_cons {A} (c : nat) (l : list A) (d : A) :
  (c < length l)%nat -> skipn c l = nth c l d :: skipn (S c) l.
Proof.
  revert l. induction c as [|c IH]; intros [|x l] H; cbn in H; try lia.
  - reflexivity.
  - cbn [skipn nth]. apply IH. lia.
Qed.

Lemma firstn_S_nth {A} (c : nat) (l : list A) (d : A) :
  (c < length l)%nat -> firstn (S c) l = firstn c l ++ [nth c l d].
Proof.
  revert l. induction c as [|c IH]; intros [|x l] H; cbn in H; try lia.
  - reflexivity.
  - cbn [firstn nth app]. f_equal. apply IH. lia.
Qed.

(** The bool loop after its first [k] iterations: [k] elements set from
    the bits of [data], [ceil(k/8)] data bytes consumed. *)
Lemma fast_bool_loop (data rest pre1 : list byte) (e : Endian)
    (d0 : list bool) (l : nat) :
  length d0 = l -> length data = ((l + 7) / 8)%nat ->
  forall k, (k <= l)%nat ->
  for_loop k 0
    (Decoder.bool_step (fun d i x => ret (set_nth (Z.to_nat i) x d)))
    ([], d0) (Decoder.cursor pre1 (data ++ rest) e)
  = Ret (held data k, unpack_bools data k ++ skipn k d0)
        (Decoder.cursor (pre1 ++ firstn ((k + 7) / 8) data)
           (skipn ((k + 7) / 8) data ++ rest) e).
Proof.
  intros Hd0 Hdata. induction k as [|k IH]; intros Hk.
  - cbn [for_loop held unpack_bools seq map skipn app]. unfold ret.
    change ((0 + 7) / 8)%nat with 0%nat. cbn [firstn skipn].
    now rewrite app_nil_r.
  - rewrite for_loop_snoc, (bind_Ret _ _ _ _ _ (IH ltac:(lia))).
    unfold Decoder.bool_step. rewrite Z.rem_mod_nonneg by lia.
    rewrite Z.add_0_l. change 8 with (Z.of_nat 8) at 1 2.
    rewrite <- Nat2Z.inj_mod.
    assert (Hc : (k / 8 < length data)%nat) by (rewrite Hdata; apply ceil8_lt; lia).
    assert (Hbit : 0 <= Z.of_nat (k mod 8) < 8).
    { pose proof (Nat.mod_upper_bound k 8 ltac:(lia)). lia. }
    assert (Hstep :
      (if Z.of_nat (k mod 8) =? 0
       then Decoder.reserve 1 else ret (held data k))
        (Decoder.cursor (pre1 ++ firstn ((k + 7) / 8) data)
           (skipn ((k + 7) / 8) data ++ rest) e)
      = Ret [nth (k / 8) data Byte.x00]
            (Decoder.cursor (pre1 ++ firstn ((S k + 7) / 8) data)
               (skipn ((S k + 7) / 8) data ++ rest) e)).
    { destruct (Z.eqb_spec (Z.of_nat (k mod 8)) 0) as [E|E].
      - destruct (div8_aligned k ltac:(lia)) as [E1 E2]. rewrite E1, E2.
        rewrite (skipn_nth_cons (k / 8) data Byte.x00 Hc).
        rewrite (firstn_S_nth (k / 8) data Byte.x00 Hc).
        change ((nth (k / 8) data Byte.x00 :: skipn (S (k / 8)) data) ++ rest)
          with ([nth (k / 8) data Byte.x00] ++ skipn (S (k / 8)) data ++ rest).
        rewrite (Decoder_reserve_cursor _ [nth (k / 8) data Byte.x00] _ _ 1 eq_refl).
        rewrite <- app_assoc. reflexivity.
      - destruct (div8_inside k ltac:(lia)) as (E1 & E2 & E3 & E4).
        rewrite E1, E2. destruct k as [|k']; [contradiction|].
        cbn [held]. replace (S k' - 1)%nat with k' in E3 by lia.
        rewrite E3. reflexivity. }
    rewrite (bind_Ret _ _ _ _ _ Hstep). cbn [first_byte].
    rewrite bind_ret_l. cbv zeta. rewrite bind_ret_l. unfold ret.
    rewrite mask_test by exact Hbit.
    rewrite Nat2Z.id, set_nth_app_skipn, unpack_bools_snoc;
      [reflexivity|apply unpack_bools_length|lia].
Qed.


Lemma len_zero_nil {A} (l : list A) : len l = 0 -> l = [].
Proof. destruct l; [reflexivity|]. unfold len. cbn [length]. lia. Qed.

(** What [boolArray] and the [*[]bool] fast path do once the count [c] has
    been read and the [ceil(c/8)] data bytes are in front of the cursor. *)
Lemma bool_sequence_after_prefix (c : Z) (data rest pre1 : list byte)
    (e : Endian) :
  0 <= c -> len data = (c + 7) / 8 ->
  (d <- make c false ;;
   '(_, d') <- for_loop (Z.to_nat c) 0
                 (Decoder.bool_step (fun d i x => ret (set_nth (Z.to_nat i) x d)))
                 ([], d) ;;
   ret (VSlice (map VBool d'))) (Decoder.cursor pre1 (data ++ rest) e)
  = Ret (VSlice (map VBool (unpack_bools data (Z.to_nat c))))
        (Decoder.cursor (pre1 ++ data) rest e) /\
  forall v,
    (v1 <- (if c >? 0 then MakeSlice TBool c else ret v) ;;
     '(_, v2) <- for_loop (Z.to_nat c) 0
                   (Decoder.bool_step Decoder.set_bool_at) ([], v1) ;;
     ret (sizeofBoolArray c, v2)) (Decoder.cursor pre1 (data ++ rest) e)
    = Ret (sizeofBoolArray c,
           if c =? 0 then v
           else VSlice (map VBool (unpack_bools data (Z.to_nat c))))
          (Decoder.cursor (pre1 ++ data) rest e).
Proof.
  intros Hc Hdata.
  assert (Hlen : length data = ((Z.to_nat c + 7) / 8)%nat).
  { apply Nat2Z.inj. rewrite Nat2Z.inj_div, Nat2Z.inj_add, Z2Nat.id by lia.
    exact Hdata. }
  pose proof (fast_bool_loop data rest pre1 e (repeat false (Z.to_nat c))
                (Z.to_nat c) (repeat_length _ _) Hlen (Z.to_nat c) (Nat.le_refl _))
    as Hfast.
  rewrite <- Hlen, firstn_all, skipn_all in Hfast. cbn [app] in Hfast.
  rewrite (skipn_all2 (repeat false (Z.to_nat c))) in Hfast
    by (rewrite repeat_length; lia).
  rewrite app_nil_r in Hfast.
  split.
  - unfold make. destruct (Z.ltb_spec c 0); [lia|].
    rewrite bind_ret_l, (bind_Ret _ _ _ _ _ Hfast). reflexivity.
  - intros v. destruct (Z.eqb_spec c 0) as [->|Hne].
    + apply len_zero_nil in Hdata. subst data. rewrite app_nil_r. reflexivity.
    + destruct (Z.gtb_spec c 0); [|lia]. unfold MakeSlice.
      destruct (Z.ltb_spec c 0); [lia|]. rewrite bind_ret_l. cbn [zero].
      replace (repeat (VBool false) (Z.to_nat c))
        with (map VBool (repeat false (Z.to_nat c))) by apply map_repeat.
      pose proof (bool_loop_rel c (Z.to_nat c) 0 [] (repeat false (Z.to_nat c))
                    (Decoder.cursor pre1 (data ++ rest) e)) as Hrel.
      lapply Hrel; [clear Hrel; intros Hrel|unfold len; rewrite repeat_length; lia].
      specialize (Hrel ltac:(lia) ltac:(lia)).
      rewrite Hfast in Hrel. unfold rel_res in Hrel. unfold bind.
      destruct (for_loop _ 0 (Decoder.bool_step Decoder.set_bool_at) _ _)
        as [[b2 w] s2|q]; [|contradiction].
      cbn [snd] in Hrel. destruct Hrel as [-> <-]. reflexivity.
Qed.



(** ** The skip engine and the decoder on well-formed encodings *)

Lemma pow63 : 2 ^ 63 = 9223372036854775808.
Proof. reflexivity. Qed.

Lemma pow64 : 2 ^ 64 = 18446744073709551616.
Proof. reflexivity. Qed.

Lemma Decoder_Skip_cursor pre x rest e n :
  n = len x ->
  Decoder.Skip n (Decoder.cursor pre (x ++ rest) e)
  = Ret n (Decoder.cursor (pre ++ x) rest e).
Proof.
  intros ->. unfold Decoder.Skip.
  rewrite (bind_Ret _ _ _ _ _ (Decoder_reserve_cursor pre x rest e _ eq_refl)).
  reflexivity.
Qed.

Lemma Decoder_Uvarint_Put (c : Z) pre rest e :
  0 <= c < 2 ^ 63 ->
  Decoder.Uvarint (Decoder.cursor pre (PutUvarint c ++ rest) e)
  = Ret (c, len (PutUvarint c)) (Decoder.cursor (pre ++ PutUvarint c) rest e) /\
  to_int c = c /\ 1 <= len (PutUvarint c) <= 10 /\
  SizeofUvarint (to_uint64 c) = len (PutUvarint c).
Proof.
  intros Hc. rewrite pow63 in Hc.
  assert (Hc64 : 0 <= c < 2 ^ 64) by (rewrite pow64; lia).
  destruct (Uvarint_Put_roundtrip c Hc64) as (HU & _ & Hlen & Hsz & _).
  split; [apply HU|]. split; [apply to_int_small; rewrite pow63; lia|].
  split; [exact Hlen|]. unfold to_uint64. rewrite Z.mod_small by exact Hc64.
  symmetry. exact Hsz.
Qed.

Lemma wire_fixed (e : rtype) (bs : list byte) :
  0 < _fixTypeSize e -> wire e bs -> len bs = _fixTypeSize e.
Proof.
  intros Hf Hw. destruct e; cbn in Hf; try lia; exact Hw.
Qed.

Lemma concat_fixed_len (s : Z) (bss : list (list byte)) :
  Forall (fun bs => len bs = s) bss -> len (concat bss) = len bss * s.
Proof.
  induction 1 as [|bs bss Hbs _ IH]; [reflexivity|].
  cbn [concat]. rewrite len_app, len_cons, IH, Hbs. lia.
Qed.

(** The loop of the skip engine over the elements of a sequence. *)
Lemma skip_loop_wire (e : rtype) (X : Prop) (bss : list (list byte)) :
  Forall (fun bs => exists n, skips e bs n /\ 0 <= n <= len bs /\
                              (X -> n = len bs)) bss ->
  forall sum,
    - 2 ^ 63 <= sum -> sum + len (concat bss) < 2 ^ 63 ->
    exists n,
      (forall pre rest e0,
         skip_loop (length bss) (Decoder.skipByType e) sum
           (Decoder.cursor pre (concat bss ++ rest) e0)
         = Ret n (Decoder.cursor (pre ++ concat bss) rest e0)) /\
      sum <= n <= sum + len (concat bss) /\
      (X -> n = sum + len (concat bss)).
Proof.
  induction 1 as [|bs bss (n0 & Hs & Hn & Hx) _ IH]; intros sum Hsum Hb.
  - exists sum. cbn [length skip_loop concat app]. unfold len. cbn [length].
    repeat split; try lia. intros pre rest e0. now rewrite app_nil_r.
  - cbn [concat] in *. rewrite len_app in Hb.
    pose proof (len_nonneg bs). pose proof (len_nonneg (concat bss)).
    assert (Hadd : int_add sum n0 = sum + n0)
      by (apply to_int_small; lia).
    destruct (IH (sum + n0) ltac:(lia) ltac:(lia)) as (n & Hrun & Hr & Hrx).
    exists n. rewrite len_app. repeat split; try lia.
    + intros pre rest e0. cbn [length skip_loop].
      rewrite <- app_assoc, (bind_Ret _ _ _ _ _ (Hs pre (concat bss ++ rest) e0)).
      destruct (Z.ltb_spec n0 0); [lia|]. rewrite Hadd, Hrun, <- app_assoc.
      reflexivity.
    + intros HX. specialize (Hx HX). specialize (Hrx HX). lia.
Qed.

Lemma len_concat_le {A} (x : list A) (xs : list (list A)) :
  In x xs -> len x <= len (concat xs).
Proof.
  induction xs as [|y xs IH]; [contradiction|].
  pose proof (len_nonneg (concat xs)). pose proof (len_nonneg y).
  intros [->|Hin]; cbn [concat]; rewrite len_app.
  - lia.
  - specialize (IH Hin). lia.
Qed.

(** The sequence case of the skip engine, slices and arrays alike. *)
Lemma skip_seq_wire (ty e : rtype) (enc : list byte) :
  (forall d, Decoder.skipByType ty d =
     ('(s, sLen) <- Decoder.Uvarint ;;
      let cnt := to_int s in
      let s := _fixTypeSize e in
      if 0 <? s then
        if is_Bool e then
          let totalSize := sizeofBoolArray cnt in
          let size := int_sub totalSize (SizeofUvarint (to_uint64 cnt)) in
          _ <- Decoder.Skip size ;; ret totalSize
        else
          let size := int_mul cnt s in
          _ <- Decoder.Skip size ;; ret size
      else skip_loop (Z.to_nat cnt) (Decoder.skipByType e) sLen) d) ->
  (forall bs, wire e bs -> len bs < 2 ^ 63 ->
     exists n, skips e bs n /\ 0 <= n <= len bs /\
               (exact_count e = true -> n = len bs)) ->
  (if is_Bool e
   then exists c data,
          0 <= c < 2 ^ 63 /\ len data = (c + 7) / 8 /\ enc = PutUvarint c ++ data
   else exists bss,
          len bss < 2 ^ 63 /\ Forall (wire e) bss /\
          enc = PutUvarint (len bss) ++ concat bss) ->
  len enc < 2 ^ 63 ->
  exists n, skips ty enc n /\ 0 <= n <= len enc /\
            ((if 0 <? _fixTypeSize e then is_Bool e else exact_count e) = true ->
             n = len enc).
Proof.
  intros Hty IH Hw Hb. destruct (is_Bool e) eqn:Eb.
  - (* packed bools *)
    destruct e; try discriminate Eb. destruct Hw as (c & data & Hc & Hd & ->).
    rewrite len_app in Hb. pose proof (len_nonneg data).
    pose proof (len_nonneg (PutUvarint c)).
    exists (sizeofBoolArray c).
    destruct (sizeofBoolArray_small c Hc) as [Hsz _].
    assert (Hc' := Hc). rewrite pow63 in Hc'.
    assert (Hu : SizeofUvarint c = len (PutUvarint c)).
    { destruct (Uvarint_Put_roundtrip c) as (_ & _ & _ & Hs & _);
        [rewrite pow64; lia|]. symmetry. exact Hs. }
    rewrite Hsz, Hu, len_app, <- Hd. split; [|split; [|intros _]]; try lia.
    intros pre rest e0. rewrite Hty.
    destruct (Decoder_Uvarint_Put c pre (data ++ rest) e0 Hc) as (HU & Hi & Hl & Hs).
    rewrite <- app_assoc, (bind_Ret _ _ _ _ _ HU). cbv zeta. cbn [_fixTypeSize is_Bool].
    change (0 <? 1) with true. cbv iota. rewrite Hi, Hs, Hsz, Hu.
    unfold int_sub.
    replace (len (PutUvarint c) + (c + 7) / 8 - len (PutUvarint c))
      with (len data) by lia.
    rewrite to_int_small by (rewrite pow63 in *; lia).
    rewrite (bind_Ret _ _ _ _ _ (Decoder_Skip_cursor _ data rest e0 _ eq_refl)).
    rewrite <- app_assoc, Hd. reflexivity.
  - destruct Hw as (bss & Hn & Hall & ->).
    rewrite len_app in Hb. pose proof (len_nonneg bss) as Hn0.
    pose proof (len_nonneg (concat bss)) as Hcc.
    assert (Hcnt : 0 <= len bss < 2 ^ 63) by lia.
    destruct (Decoder_Uvarint_Put (len bss) [] [] LittleEndian Hcnt)
      as (_ & Hi & Hl & _).
    destruct (Z.ltb_spec 0 (_fixTypeSize e)) as [Hfix|Hfix].
    + (* fixed-width elements *)
      assert (Hlen : len (concat bss) = len bss * _fixTypeSize e).
      { apply concat_fixed_len.
        eapply Forall_impl; [|exact Hall]. intros bs. apply wire_fixed, Hfix. }
      exists (len bss * _fixTypeSize e). rewrite len_app.
      split; [|split; [nia|intros C; discriminate C]].
      intros pre rest e0. rewrite Hty.
      destruct (Decoder_Uvarint_Put (len bss) pre (concat bss ++ rest) e0 Hcnt)
        as (HU & _).
      rewrite <- app_assoc, (bind_Ret _ _ _ _ _ HU). cbv zeta.
      destruct (Z.ltb_spec 0 (_fixTypeSize e)); [|lia]. rewrite Hi.
      unfold int_mul. rewrite to_int_small by (rewrite pow63 in *; nia).
      rewrite <- Hlen.
      rewrite (bind_Ret _ _ _ _ _ (Decoder_Skip_cursor _ (concat bss) rest e0 _ eq_refl)).
      rewrite <- app_assoc. reflexivity.
    + (* elements skipped one by one *)
      assert (Hel : Forall (fun bs => exists n, skips e bs n /\ 0 <= n <= len bs /\
                                      (exact_count e = true -> n = len bs)) bss).
      { rewrite Forall_forall in *. intros bs Hin. apply IH; [apply Hall, Hin|].
        pose proof (len_concat_le bs bss Hin). lia. }
      destruct (skip_loop_wire e _ bss Hel (len (PutUvarint (len bss))))
        as (n & Hrun & Hr & Hrx); [rewrite pow63; lia|lia|].
      exists n. rewrite len_app. split; [|split; [lia|exact Hrx]].
      intros pre rest e0. rewrite Hty.
      destruct (Decoder_Uvarint_Put (len bss) pre (concat bss ++ rest) e0 Hcnt)
        as (HU & _).
      rewrite <- app_assoc, (bind_Ret _ _ _ _ _ HU). cbv zeta.
      destruct (Z.ltb_spec 0 (_fixTypeSize e)); [lia|].
      rewrite Hi, to_nat_len, Hrun, <- app_assoc. reflexivity.
Qed.

Lemma skip_map_loop (kt vt : rtype) (kvs : list (list byte * list byte)) :
  skip_ok kt -> skip_ok vt -> skippable kt = true -> skippable vt = true ->
  Forall (fun p => wire kt (fst p) /\ wire vt (snd p)) kvs ->
  forall sum i,
    0 <= sum ->
    sum + len (concat (map (fun p => fst p ++ snd p) kvs)) < 2 ^ 63 ->
    exists n,
      (forall pre rest e0,
         for_loop (length kvs) i
           (fun _ sum =>
              sk <- Decoder.skipByType kt ;;
              sv <- Decoder.skipByType vt ;;
              ret (int_add (int_add sum sk) sv))
           sum
           (Decoder.cursor pre
              (concat (map (fun p => fst p ++ snd p) kvs) ++ rest) e0)
         = Ret n (Decoder.cursor
                    (pre ++ concat (map (fun p => fst p ++ snd p) kvs)) rest e0)) /\
      sum <= n <= sum + len (concat (map (fun p => fst p ++ snd p) kvs)) /\
      (exact_count kt && exact_count vt = true ->
       n = sum + len (concat (map (fun p => fst p ++ snd p) kvs))).
Proof.
  intros IHk IHv Sk Sv. induction 1 as [|[kb vb] kvs [Hk Hv] _ IH];
    intros sum i Hsum Hb.
  - exists sum. cbn [length for_loop map concat app]. unfold len. cbn [length].
    repeat split; try lia. intros pre rest e0. now rewrite app_nil_r.
  - cbn [map concat fst snd] in *. rewrite !len_app in Hb.
    pose proof (len_nonneg kb). pose proof (len_nonneg vb).
    pose proof (len_nonneg (concat (map (fun p => fst p ++ snd p) kvs))).
    destruct (IHk Sk kb Hk ltac:(lia)) as (nk & Hsk & Hnk & Hxk).
    destruct (IHv Sv vb Hv ltac:(lia)) as (nv & Hsv & Hnv & Hxv).
    assert (Hadd : int_add (int_add sum nk) nv = sum + nk + nv).
    { unfold int_add. rewrite (to_int_small (sum + nk)) by lia.
      apply to_int_small. lia. }
    destruct (IH (sum + nk + nv) (i + 1) ltac:(lia) ltac:(lia))
      as (n & Hrun & Hr & Hrx).
    exists n. rewrite !len_app. repeat split; try lia.
    + intros pre rest e0. cbn [length for_loop].
      rewrite bind_assoc. rewrite <- !app_assoc.
      rewrite (bind_Ret _ _ _ _ _ (Hsk pre _ e0)).
      rewrite bind_assoc, (bind_Ret _ _ _ _ _ (Hsv (pre ++ kb) _ e0)).
      rewrite bind_ret_l, Hadd, Hrun, <- !app_assoc. reflexivity.
    + intros HX. apply andb_true_iff in HX as [X1 X2].
      specialize (Hxk X1). specialize (Hxv X2).
      rewrite (Hrx ltac:(now rewrite X1, X2)). lia.
Qed.

Lemma skip_fields_loop (fs : list (bool * rtype)) :
  Forall (fun f => skip_ok (snd f)) fs ->
  forallb (fun f => fst f && skippable (snd f)) fs = true ->
  forall enc sum,
    (fix fields_wire (fs : list (bool * rtype)) (bs : list byte) : Prop :=
       match fs with
       | [] => bs = []
       | f :: fs' =>
           if fst f
           then exists b1 b2,
                  bs = b1 ++ b2 /\ wire (snd f) b1 /\ fields_wire fs' b2
           else fields_wire fs' bs
       end) fs enc ->
    0 <= sum -> sum + len enc < 2 ^ 63 ->
    exists n,
      (forall pre rest e0,
         (fix fields_loop (fs : list (bool * rtype)) (sum : Z) : M Decoder.t Z :=
            match fs with
            | [] => ret sum
            | f :: fs' =>
                s <- Decoder.skipByType (snd f) ;;
                if s <? 0 then ret (-1) else fields_loop fs' (int_add sum s)
            end) fs sum (Decoder.cursor pre (enc ++ rest) e0)
         = Ret n (Decoder.cursor (pre ++ enc) rest e0)) /\
      sum <= n <= sum + len enc /\
      (forallb (fun f => exact_count (snd f)) fs = true -> n = sum + len enc).
Proof.
  induction 1 as [|[inc ft] fs Hf _ IH]; intros Hs enc sum Hw Hsum Hb.
  - subst enc. exists sum. unfold len. cbn [length].
    repeat split; try lia. intros pre rest e0. now rewrite app_nil_r.
  - cbn [forallb fst snd] in *. apply andb_true_iff in Hs as [Hs1 Hs2].
    apply andb_true_iff in Hs1 as [-> Hs1].
    destruct Hw as (b1 & b2 & -> & Hw1 & Hw2). rewrite len_app in Hb.
    pose proof (len_nonneg b1). pose proof (len_nonneg b2).
    destruct (Hf Hs1 b1 Hw1 ltac:(lia)) as (n1 & Hs & Hn1 & Hx1).
    assert (Hadd : int_add sum n1 = sum + n1) by (apply to_int_small; lia).
    destruct (IH Hs2 b2 (sum + n1) Hw2 ltac:(lia) ltac:(lia))
      as (n & Hrun & Hr & Hrx).
    exists n. rewrite len_app. repeat split; try lia.
    + intros pre rest e0.
      rewrite <- app_assoc, (bind_Ret _ _ _ _ _ (Hs pre _ e0)).
      destruct (Z.ltb_spec n1 0); [lia|]. rewrite Hadd, Hrun, <- app_assoc.
      reflexivity.
    + intros HX. apply andb_true_iff in HX as [X1 X2].
      specialize (Hx1 X1). specialize (Hrx X2). lia.
Qed.

Ltac skip_fixed :=
  intros _ enc Hw Hb; cbn [wire _fixTypeSize] in Hw;
  eexists; split; [|split; [|intros _; symmetry; exact Hw]];
  [intros pre rest e0; cbn [Decoder.skipByType _fixTypeSize];
   match goal with |- context [0 <? ?k] => change (0 <? k) with true end;
   cbv iota;
   rewrite (bind_Ret _ _ _ _ _ (Decoder_Skip_cursor pre enc rest e0 _ (eq_sym Hw)));
   reflexivity
  |rewrite Hw; lia].

(** On a well-formed encoding the skip engine passes exactly the encoding;
    the count it returns is never above the bytes passed and is equal to
    them on the shapes of [exact_count]. *)
Lemma skip_wire (ty : rtype) : skip_ok ty.
Proof.
  pattern ty. apply rtype_induction; clear ty;
    [intros ty|intros e IH|intros n e IH|intros k vt IHk IHv|intros fs IH|intros e IH].
  - destruct ty; try exact I; unfold skip_ok; try skip_fixed.
    + (* int *)
      intros _ enc Hw Hb. cbn [wire] in Hw. destruct Hw as (x & Hx & ->).
      destruct (Uvarint_Put_roundtrip x Hx) as (HU & _ & Hl & _).
      exists (len (PutUvarint x)). repeat split; try lia.
      intros pre rest e0. cbn [Decoder.skipByType _fixTypeSize].
      change (0 <? -1) with false. cbv iota. unfold Decoder.Varint.
      rewrite bind_assoc, (bind_Ret _ _ _ _ _ (HU pre rest e0)). reflexivity.
    + (* uint *)
      intros _ enc Hw Hb. cbn [wire] in Hw. destruct Hw as (x & Hx & ->).
      destruct (Uvarint_Put_roundtrip x Hx) as (HU & _ & Hl & _).
      exists (len (PutUvarint x)). repeat split; try lia.
      intros pre rest e0. cbn [Decoder.skipByType _fixTypeSize].
      change (0 <? -1) with false. cbv iota.
      rewrite (bind_Ret _ _ _ _ _ (HU pre rest e0)). reflexivity.
    + (* text *)
      intros _ enc Hw Hb. cbn [wire] in Hw. destruct Hw as (data & ->).
      rewrite len_app in Hb.
      pose proof (len_nonneg data). pose proof (len_nonneg (PutUvarint (len data))).
      assert (Hc : 0 <= len data < 2 ^ 63) by lia.
      exists (len data + len (PutUvarint (len data))). rewrite len_app.
      repeat split; try lia.
      intros pre rest e0. cbn [Decoder.skipByType _fixTypeSize].
      change (0 <? -1) with false. cbv iota.
      destruct (Decoder_Uvarint_Put (len data) pre (data ++ rest) e0 Hc)
        as (HU & Hi & _).
      rewrite <- app_assoc, (bind_Ret _ _ _ _ _ HU). cbv zeta. rewrite Hi.
      rewrite (bind_Ret _ _ _ _ _ (Decoder_Skip_cursor _ data rest e0 _ eq_refl)).
      unfold int_add. rewrite to_int_small by (rewrite pow63 in *; lia).
      rewrite <- app_assoc. reflexivity.
    + intros H. discriminate H.
  - intros Hs enc Hw Hb. cbn [skippable] in Hs. cbn [wire] in Hw.
    apply (skip_seq_wire (TSlice e) e enc); try assumption.
    + intros d. reflexivity.
    + intros bs. apply IH, Hs.
  - intros Hs enc Hw Hb. cbn [skippable] in Hs.
    apply andb_true_iff in Hs as [Hs _]. cbn [wire] in Hw.
    apply (skip_seq_wire (TArray n e) e enc); try assumption.
    + intros d. reflexivity.
    + intros bs. apply IH, Hs.
  - intros Hs enc Hw Hb. cbn [wire] in Hw. destruct Hw as (kvs & Hn & Hall & ->).
    cbn [skippable] in Hs.
    apply andb_true_iff in Hs as [Sk Sv]. rewrite len_app in Hb.
    pose proof (len_nonneg kvs).
    pose proof (len_nonneg (concat (map (fun p => fst p ++ snd p) kvs))).
    assert (Hcnt : 0 <= len kvs < 2 ^ 63) by lia.
    destruct (Decoder_Uvarint_Put (len kvs) [] [] LittleEndian Hcnt)
      as (_ & Hi & Hl & _).
    destruct (skip_map_loop k vt kvs IHk IHv Sk Sv Hall
                (len (PutUvarint (len kvs))) 0)
      as (n & Hrun & Hr & Hrx); [lia|lia|].
    exists n. rewrite len_app. split; [|split; [lia|exact Hrx]].
    intros pre rest e0. cbn [Decoder.skipByType _fixTypeSize].
    change (0 <? -1) with false. cbv iota.
    destruct (Decoder_Uvarint_Put (len kvs) pre
                (concat (map (fun p => fst p ++ snd p) kvs) ++ rest) e0 Hcnt)
      as (HU & _).
    rewrite <- app_assoc, (bind_Ret _ _ _ _ _ HU). cbv zeta.
    rewrite Hi, to_nat_len, Hrun, <- app_assoc. reflexivity.
  - intros Hs enc Hw Hb. cbn [skippable] in Hs. cbn [wire] in Hw.
    pose proof (len_nonneg enc).
    destruct (skip_fields_loop fs IH Hs enc 0 Hw)
      as (n & Hrun & Hr & Hrx); [lia|lia|].
    exists n. split; [|split; [lia|exact Hrx]].
    intros pre rest e0. cbn [Decoder.skipByType _fixTypeSize].
    change (0 <? -1) with false. cbv iota. apply Hrun.
  - intros H. discriminate H.
Qed.

(** ** The decoder on well-formed encodings *)

Lemma reads_reserve (e : Endian) (n : Z) : reads (Decoder.reserve n) e n.
Proof.
  intros enc Hn. exists enc. intros pre rest.
  apply Decoder_reserve_cursor. now symmetry.
Qed.

Lemma reads_ret {A} (e : Endian) (a : A) : reads (ret a) e 0.
Proof.
  intros enc Hn. apply len_zero_nil in Hn. subst enc. exists a.
  intros pre rest. now rewrite app_nil_r.
Qed.

Lemma reads_endian {A} (e : Endian) (f : Endian -> A) :
  reads (fun d => Ret (f (Decoder.endian d)) d) e 0.
Proof.
  intros enc Hn. apply len_zero_nil in Hn. subst enc. exists (f e).
  intros pre rest. now rewrite app_nil_r.
Qed.

Lemma reads_bind {A B} (e : Endian) (m : M Decoder.t A) (k : A -> M Decoder.t B)
    (n1 n2 : Z) :
  0 <= n1 -> 0 <= n2 ->
  reads m e n1 -> (forall a, reads (k a) e n2) -> reads (bind m k) e (n1 + n2).
Proof.
  intros H1 H2 Hm Hk enc Hn.
  assert (Hf : len (firstn (Z.to_nat n1) enc) = n1)
    by (unfold len in *; rewrite length_firstn; lia).
  assert (Hs : len (skipn (Z.to_nat n1) enc) = n2)
    by (unfold len in *; rewrite length_skipn; lia).
  destruct (Hm _ Hf) as [a Ha]. destruct (Hk a _ Hs) as [b Hb].
  exists b. intros pre rest.
  rewrite <- (firstn_skipn (Z.to_nat n1) enc) at 1.
  rewrite <- app_assoc, (bind_Ret _ _ _ _ _ (Ha pre _)), Hb, <- app_assoc.
  now rewrite firstn_skipn.
Qed.

Lemma reads_byte {B} (e : Endian) (f : Z -> B) :
  reads (b <- Decoder.reserve 1 ;; x <- first_byte b ;; ret (f x)) e 1.
Proof.
  intros enc Hn. destruct enc as [|b [|c enc]]; try (unfold len in Hn; cbn in Hn; lia).
  exists (f (byte_to_Z b)). intros pre rest.
  rewrite (bind_Ret _ _ _ _ _ (Decoder_reserve_cursor pre [b] rest e 1 eq_refl)).
  reflexivity.
Qed.

Lemma reads_Uint8 e : reads Decoder.Uint8 e 1.
Proof.
  intros enc Hn. destruct (reads_byte e (fun x => x) enc Hn) as [a Ha].
  exists a. intros pre rest. rewrite <- Ha. unfold Decoder.Uint8.
  apply bind_ext. intros b s. unfold bind, ret. destruct (first_byte b s); reflexivity.
Qed.

Lemma reads_Bool e : reads Decoder.Bool e 1.
Proof. apply (reads_byte e (fun x => negb (x =? 0))). Qed.

Lemma reads_Uint16 e : reads Decoder.Uint16 e 2.
Proof.
  apply (reads_bind e (Decoder.reserve 2) _ 2 0); try lia.
  - apply reads_reserve.
  - intros b. apply (reads_endian e (fun en => Uint16 en b)).
Qed.

Lemma reads_Uint32 e : reads Decoder.Uint32 e 4.
Proof.
  apply (reads_bind e (Decoder.reserve 4) _ 4 0); try lia.
  - apply reads_reserve.
  - intros b. apply (reads_endian e (fun en => Uint32 en b)).
Qed.

Lemma reads_Uint64 e : reads Decoder.Uint64 e 8.
Proof.
  apply (reads_bind e (Decoder.reserve 8) _ 8 0); try lia.
  - apply reads_reserve.
  - intros b. apply (reads_endian e (fun en => Uint64 en b)).
Qed.

Lemma reads_map {A B} (e : Endian) (m : M Decoder.t A) (f : A -> B) (n : Z) :
  0 <= n -> reads m e n -> reads (x <- m ;; ret (f x)) e n.
Proof.
  intros Hn Hm. replace n with (n + 0) by lia.
  apply reads_bind; try lia; [exact Hm|]. intros a. apply reads_ret.
Qed.

Lemma reads_pair e (m : M Decoder.t Z) (n : Z) :
  0 <= n -> reads m e n ->
  reads (re <- m ;; im <- m ;; ret (re, im)) e (n + n).
Proof.
  intros Hn Hm. apply reads_bind; try lia; [exact Hm|]. intros re.
  apply reads_map; assumption.
Qed.

Lemma fits_zero (ty : rtype) : fits ty (zero ty).
Proof.
  pattern ty. apply rtype_induction; clear ty;
    [intros ty|intros e IH|intros n e IH|intros k vt IHk IHv|intros fs IH|intros e IH];
    try exact I.
  - destruct ty; exact I.
  - cbn [fits zero]. exists (repeat (zero e) n). split; [reflexivity|].
    apply Forall_forall. intros x Hx. apply repeat_spec in Hx. now subst.
  - cbn [fits zero]. exists (map (fun f => zero (snd f)) fs). split; [reflexivity|].
    induction IH as [|f fs Hf _ IHfs]; cbn [map]; [exact I|]. split; assumption.
Qed.

Lemma Index_at {St} (mkV : list rvalue -> rvalue) (done todo : list rvalue)
    (x : rvalue) (st : St) :
  (forall l, elems (mkV l) = l) -> (forall l, Len (mkV l) = len l) ->
  Index (mkV (done ++ x :: todo)) (len done) st = Ret x st.
Proof.
  intros Hel HLen. unfold Index. rewrite HLen, Hel, len_app, len_cons.
  pose proof (len_nonneg done). pose proof (len_nonneg todo).
  destruct (Z.leb_spec 0 (len done)); [|lia].
  destruct (Z.ltb_spec (len done) (len done + (1 + len todo))); [|lia].
  cbn [andb]. rewrite to_nat_len, nth_error_app2, Nat.sub_diag by lia.
  reflexivity.
Qed.

Lemma set_nth_at {A} (done todo : list A) (x y : A) :
  set_nth (length done) y (done ++ x :: todo) = done ++ y :: todo.
Proof.
  induction done as [|z done IH]; cbn [length app set_nth]; [reflexivity|].
  now rewrite IH.
Qed.

Section SeqLoop.

Variable newPtr : rtype -> rvalue -> bool * rvalue.
Variable e0 : Endian.
Variable e : rtype.
Variable mkV : list rvalue -> rvalue.
Hypothesis mkV_elems : forall l, elems (mkV l) = l.
Hypothesis mkV_Len : forall l, Len (mkV l) = len l.
Hypothesis mkV_with : forall l l', with_elems (mkV l) l' = mkV l'.
Hypothesis dec_e : forall bs x,
  wire e bs -> len bs < 2 ^ 63 -> fits e x ->
  exists x', decodes newPtr e0 e x bs x'.
Hypothesis skip_e : forall bs,
  wire e bs -> len bs < 2 ^ 63 -> exists n, skips e bs n.

Lemma seq_body_skip cap i w bs n pre rest :
  cap <= i -> skips e bs n ->
  seq_body newPtr e cap i w (Decoder.cursor pre (bs ++ rest) e0)
  = Ret w (Decoder.cursor (pre ++ bs) rest e0).
Proof.
  intros Hi Hn. unfold seq_body. destruct (Z.ltb_spec i cap); [lia|].
  rewrite (bind_Ret _ _ _ _ _ (Hn pre rest e0)). reflexivity.
Qed.

Lemma seq_body_decode cap done x todo bs x' pre rest :
  len done < cap -> decodes newPtr e0 e x bs x' ->
  seq_body newPtr e cap (len done) (mkV (done ++ x :: todo))
    (Decoder.cursor pre (bs ++ rest) e0)
  = Ret (mkV (done ++ x' :: todo)) (Decoder.cursor (pre ++ bs) rest e0).
Proof.
  intros Hi Hd. unfold seq_body. destruct (Z.ltb_spec (len done) cap); [|lia].
  rewrite (bind_Ret _ _ _ _ _ (Index_at mkV done todo x _ mkV_elems mkV_Len)).
  rewrite (bind_Ret _ _ _ _ _ (Hd pre rest)).
  unfold ret, SetIndex. rewrite mkV_with, mkV_elems, to_nat_len, set_nth_at.
  reflexivity.
Qed.

Lemma seq_loop_skip (cap : Z) (w : rvalue) (bss : list (list byte)) :
  Forall (wire e) bss -> len (concat bss) < 2 ^ 63 ->
  forall i pre rest,
    cap <= i ->
    for_loop (length bss) i (seq_body newPtr e cap) w
      (Decoder.cursor pre (concat bss ++ rest) e0)
    = Ret w (Decoder.cursor (pre ++ concat bss) rest e0).
Proof.
  induction 1 as [|bs bss Hbs _ IH]; intros Hb i pre rest Hi.
  - cbn [length for_loop concat app]. now rewrite app_nil_r.
  - cbn [concat] in *. rewrite len_app in Hb.
    pose proof (len_nonneg bs). pose proof (len_nonneg (concat bss)).
    destruct (skip_e bs Hbs ltac:(lia)) as [n Hn].
    cbn [length]. rewrite for_loop_S, <- app_assoc.
    rewrite (bind_Ret _ _ _ _ _ (seq_body_skip cap i w bs n pre _ Hi Hn)).
    rewrite IH by lia. now rewrite <- app_assoc.
Qed.

(** The element loop of [value] on a slice or an array with [cap] slots:
    the slots are decoded from the encodings in order, the encodings beyond
    the capacity are skipped, all are passed. *)
Lemma value_seq_loop (bss : list (list byte)) :
  Forall (wire e) bss -> len (concat bss) < 2 ^ 63 ->
  forall done todo cap,
    Forall (fits e) todo -> cap = len done + len todo ->
    exists xs,
      length xs = Nat.min (length todo) (length bss) /\
      Forall2 (fun p x' => decodes newPtr e0 e (fst p) (snd p) x')
              (combine todo bss) xs /\
      forall pre rest,
        for_loop (length bss) (len done) (seq_body newPtr e cap) (mkV (done ++ todo))
          (Decoder.cursor pre (concat bss ++ rest) e0)
        = Ret (mkV (done ++ xs ++ skipn (length xs) todo))
              (Decoder.cursor (pre ++ concat bss) rest e0).
Proof.
  induction 1 as [|bs bss Hbs Hall IH]; intros Hb done todo cap Hfit Hcap.
  - exists []. rewrite Nat.min_0_r. split; [reflexivity|]. split.
    + rewrite combine_nil. constructor.
    + intros pre rest. cbn [length for_loop concat app skipn].
      now rewrite app_nil_r.
  - destruct todo as [|x todo].
    + (* beyond the capacity: skipped *)
      exists []. split; [reflexivity|]. split; [constructor|].
      intros pre rest. cbn [app skipn length].
      apply (seq_loop_skip cap (mkV (done ++ [])) (bs :: bss));
        [constructor; assumption|exact Hb|].
      unfold len in Hcap at 2. cbn [length] in Hcap. lia.
    + cbn [concat] in Hb. rewrite len_app in Hb.
      pose proof (len_nonneg bs). pose proof (len_nonneg (concat bss)).
      pose proof (len_nonneg todo).
      inversion Hfit as [|? ? Hx Hfit']; subst.
      destruct (dec_e bs x Hbs ltac:(lia) Hx) as [x' Hx'].
      destruct (IH ltac:(lia) (done ++ [x']) todo (len done + len (x :: todo)) Hfit')
        as (xs & Hlen & Hdec & Hrun).
      { unfold len. rewrite length_app. cbn [length]. lia. }
      exists (x' :: xs). cbn [length Nat.min combine]. split; [now rewrite Hlen|].
      split; [constructor; [exact Hx'|exact Hdec]|].
      intros pre rest. rewrite for_loop_S. cbn [concat]. rewrite <- app_assoc.
      assert (Hlt : len done < len done + len (x :: todo))
        by (rewrite len_cons; lia).
      rewrite (bind_Ret _ _ _ _ _
                 (seq_body_decode _ done x todo bs x' pre _ Hlt Hx')).
      replace (len done + 1) with (len (done ++ [x']))
        by (unfold len; rewrite length_app; cbn [length]; lia).
      replace (done ++ x' :: todo) with ((done ++ [x']) ++ todo)
        by (now rewrite <- app_assoc).
      rewrite Hrun, <- !app_assoc. reflexivity.
Qed.

End SeqLoop.

Lemma decode_map_loop newPtr e0 (kt vt : rtype)
    (kvs : list (list byte * list byte)) :
  decode_ok newPtr e0 kt -> decode_ok newPtr e0 vt ->
  skippable kt = true -> skippable vt = true ->
  Forall (fun p => wire kt (fst p) /\ wire vt (snd p)) kvs ->
  len (concat (map (fun p => fst p ++ snd p) kvs)) < 2 ^ 63 ->
  exists entries,
    forall i m0 pre rest,
      for_loop (length kvs) i
        (fun _ m =>
           '(key, _) <- Decoder.value newPtr kt (zero kt) ;;
           '(val, _) <- Decoder.value newPtr vt (zero vt) ;;
           ret (m ++ [(key, val)]))
        m0
        (Decoder.cursor pre
           (concat (map (fun p => fst p ++ snd p) kvs) ++ rest) e0)
      = Ret (m0 ++ entries)
            (Decoder.cursor
               (pre ++ concat (map (fun p => fst p ++ snd p) kvs)) rest e0).
Proof.
  intros IHk IHv Sk Sv. induction 1 as [|[kb vb] kvs [Hk Hv] _ IH]; intros Hb.
  - exists []. intros i m0 pre rest. cbn [length for_loop map concat app].
    now rewrite !app_nil_r.
  - cbn [map concat fst snd] in *. rewrite !len_app in Hb.
    pose proof (len_nonneg kb). pose proof (len_nonneg vb).
    pose proof (len_nonneg (concat (map (fun p => fst p ++ snd p) kvs))).
    destruct (IHk Sk kb Hk ltac:(lia) (zero kt) (fits_zero kt)) as [key Hkey].
    destruct (IHv Sv vb Hv ltac:(lia) (zero vt) (fits_zero vt)) as [val Hval].
    destruct (IH ltac:(lia)) as [entries Hrun].
    exists ((key, val) :: entries). intros i m0 pre rest.
    cbn [length]. rewrite for_loop_S, bind_assoc, <- !app_assoc.
    rewrite (bind_Ret _ _ _ _ _ (Hkey pre _)).
    rewrite bind_assoc, (bind_Ret _ _ _ _ _ (Hval (pre ++ kb) _)).
    rewrite bind_ret_l, Hrun, <- !app_assoc. reflexivity.
Qed.

Lemma decode_fields_loop newPtr e0 (fs : list (bool * rtype)) :
  Forall (fun f => decode_ok newPtr e0 (snd f)) fs ->
  forallb (fun f => fst f && skippable (snd f)) fs = true ->
  forall enc vs,
    (fix fields_wire (fs : list (bool * rtype)) (bs : list byte) : Prop :=
       match fs with
       | [] => bs = []
       | f :: fs' =>
           if fst f
           then exists b1 b2,
                  bs = b1 ++ b2 /\ wire (snd f) b1 /\ fields_wire fs' b2
           else fields_wire fs' bs
       end) fs enc ->
    (fix fields_fit (fs : list (bool * rtype)) (vs : list rvalue) : Prop :=
       match fs, vs with
       | [], _ => True
       | f :: fs', x :: vs' => fits (snd f) x /\ fields_fit fs' vs'
       | _ :: _, [] => False
       end) fs vs ->
    len enc < 2 ^ 63 ->
    exists vs',
      forall pre rest,
        (fix fields_loop (fs : list (bool * rtype)) (vs : list rvalue)
           : M Decoder.t (list rvalue) :=
           match fs with
           | [] => ret vs
           | f :: fs' =>
               match vs with
               | [] => panic PanicRuntime
               | x :: vs' =>
                   x' <- (if fst f
                          then '(x', _) <- Decoder.value newPtr (snd f) x ;; ret x'
                          else ret x) ;;
                   rest <- fields_loop fs' vs' ;;
                   ret (x' :: rest)
               end
           end) fs vs (Decoder.cursor pre (enc ++ rest) e0)
        = Ret vs' (Decoder.cursor (pre ++ enc) rest e0).
Proof.
  induction 1 as [|[inc ft] fs Hf _ IH]; intros Hs enc vs Hw Hfit Hb.
  - subst enc. exists vs. intros pre rest. now rewrite app_nil_r.
  - cbn [forallb fst snd] in *. apply andb_true_iff in Hs as [Hs1 Hs2].
    apply andb_true_iff in Hs1 as [-> Hs1].
    destruct Hw as (b1 & b2 & -> & Hw1 & Hw2). rewrite len_app in Hb.
    pose proof (len_nonneg b1). pose proof (len_nonneg b2).
    destruct vs as [|x vs]; [contradiction|]. destruct Hfit as [Hx Hfit].
    destruct (Hf Hs1 b1 Hw1 ltac:(lia) x Hx) as [x' Hx'].
    destruct (IH Hs2 b2 vs Hw2 Hfit ltac:(lia)) as [vs' Hrun].
    exists (x' :: vs'). intros pre rest.
    rewrite bind_assoc, <- app_assoc, (bind_Ret _ _ _ _ _ (Hx' pre _)).
    rewrite bind_ret_l, (bind_Ret _ _ _ _ _ (Hrun (pre ++ b1) rest)).
    rewrite <- app_assoc. reflexivity.
Qed.

Lemma boolArray_not_bool (ty e : rtype) (v : rvalue) (d : Decoder.t) :
  ty = TSlice e \/ (exists n, ty = TArray n e) -> is_Bool e = false ->
  Decoder.boolArray ty v d = Ret (-1, v) d.
Proof.
  intros [->|[n ->]] Hb; destruct e; try discriminate Hb; reflexivity.
Qed.

(** Decoding [N] encoded elements into an array of [L] slots: the first
    [min(L, N)] slots are decoded from the first encodings, the other slots
    keep their content, and all [N] encodings are passed. *)
Lemma value_array newPtr e0 (n : nat) (e : rtype) (l : list rvalue)
    (bss : list (list byte)) :
  decode_ok newPtr e0 e -> skippable e = true -> is_Bool e = false ->
  Forall (wire e) bss -> len bss < 2 ^ 63 ->
  len (PutUvarint (len bss) ++ concat bss) < 2 ^ 63 ->
  Forall (fits e) l ->
  exists xs,
    length xs = Nat.min (length l) (length bss) /\
    Forall2 (fun p x' => decodes newPtr e0 e (fst p) (snd p) x')
            (combine l bss) xs /\
    decodes newPtr e0 (TArray n e) (VArray l)
      (PutUvarint (len bss) ++ concat bss)
      (VArray (xs ++ skipn (length xs) l)).
Proof.
  intros IH Hs Hnb Hall Hn Hb Hfit. rewrite len_app in Hb.
  pose proof (len_nonneg bss). pose proof (len_nonneg (concat bss)).
  pose proof (len_nonneg (PutUvarint (len bss))).
  destruct (value_seq_loop newPtr e0 e VArray
              (fun _ => eq_refl) (fun _ => eq_refl) (fun _ _ => eq_refl)
              (fun bs x Hw Hlen Hx => IH Hs bs Hw Hlen x Hx)
              (fun bs Hw Hlen =>
                 match skip_wire e Hs bs Hw Hlen with
                 | ex_intro _ k (conj Hk _) => ex_intro _ k Hk
                 end)
              bss Hall ltac:(lia) [] l (len l) Hfit eq_refl)
    as (xs & Hlen & Hdec & Hrun).
  exists xs. split; [exact Hlen|]. split; [exact Hdec|].
  intros pre rest. cbn [Decoder.value].
  rewrite (bind_Ret _ _ _ _ _
             (boolArray_not_bool (TArray n e) e (VArray l) _
                (or_intror (ex_intro _ n eq_refl)) Hnb)).
  change (-1 <? 0) with true. cbv iota.
  destruct (Decoder_Uvarint_Put (len bss) pre (concat bss ++ rest) e0 ltac:(lia))
    as (HU & Hi & _).
  rewrite <- app_assoc, (bind_Ret _ _ _ _ _ HU). cbv zeta. rewrite bind_ret_l.
  rewrite Hi, to_nat_len.
  change (for_loop (length bss) 0 _ (VArray l))
    with (for_loop (length bss) (len (@nil rvalue))
            (seq_body newPtr e (Len (VArray l))) (VArray ([] ++ l))).
  cbn [Len]. rewrite (bind_Ret _ _ _ _ _ (Hrun _ _)), <- app_assoc.
  reflexivity.
Qed.

(** Decoding [N] encoded elements into a slice: a fresh slice of [N]
    elements, each decoded from its encoding into a zero value. *)
Lemma value_slice newPtr e0 (e : rtype) (v : rvalue) (bss : list (list byte)) :
  decode_ok newPtr e0 e -> skippable e = true -> is_Bool e = false ->
  Forall (wire e) bss -> len bss < 2 ^ 63 ->
  len (PutUvarint (len bss) ++ concat bss) < 2 ^ 63 ->
  exists xs,
    length xs = length bss /\
    decodes newPtr e0 (TSlice e) v (PutUvarint (len bss) ++ concat bss)
      (VSlice xs).
Proof.
  intros IH Hs Hnb Hall Hn Hb. rewrite len_app in Hb.
  pose proof (len_nonneg bss). pose proof (len_nonneg (concat bss)).
  pose proof (len_nonneg (PutUvarint (len bss))).
  assert (Hfit : Forall (fits e) (repeat (zero e) (length bss))).
  { apply Forall_forall. intros x Hx. apply repeat_spec in Hx. subst.
    apply fits_zero. }
  destruct (value_seq_loop newPtr e0 e VSlice
              (fun _ => eq_refl) (fun _ => eq_refl) (fun _ _ => eq_refl)
              (fun bs x Hw Hlen Hx => IH Hs bs Hw Hlen x Hx)
              (fun bs Hw Hlen =>
                 match skip_wire e Hs bs Hw Hlen with
                 | ex_intro _ k (conj Hk _) => ex_intro _ k Hk
                 end)
              bss Hall ltac:(lia) [] (repeat (zero e) (length bss))
              (len bss) Hfit)
    as (xs & Hlen & Hdec & Hrun).
  { unfold len. cbn [length]. now rewrite repeat_length. }
  rewrite repeat_length, Nat.min_id in Hlen.
  exists xs. split; [exact Hlen|].
  intros pre rest. cbn [Decoder.value].
  rewrite (bind_Ret _ _ _ _ _
             (boolArray_not_bool (TSlice e) e v _ (or_introl eq_refl) Hnb)).
  change (-1 <? 0) with true. cbv iota.
  destruct (Decoder_Uvarint_Put (len bss) pre (concat bss ++ rest) e0 ltac:(lia))
    as (HU & Hi & _).
  rewrite <- app_assoc, (bind_Ret _ _ _ _ _ HU). cbv zeta. rewrite Hi.
  unfold MakeSlice. destruct (Z.ltb_spec (len bss) 0); [lia|].
  rewrite bind_ret_l, to_nat_len.
  change (for_loop (length bss) 0 _ (VSlice (repeat (zero e) (length bss))))
    with (for_loop (length bss) (len (@nil rvalue))
            (seq_body newPtr e (Len (VSlice (repeat (zero e) (length bss)))))
            (VSlice ([] ++ repeat (zero e) (length bss)))).
  cbn [Len]. unfold len at 2. rewrite repeat_length. fold (len bss).
  rewrite (bind_Ret _ _ _ _ _ (Hrun _ _)), <- app_assoc.
  rewrite skipn_all2 by (rewrite repeat_length; lia).
  rewrite app_nil_r. reflexivity.
Qed.

Ltac decode_fixed lem :=
  intros _ enc Hw Hb v _; cbn [wire _fixTypeSize] in Hw;
  let a := fresh "a" in let Ha := fresh "Ha" in
  destruct (lem enc Hw) as [a Ha];
  eexists; intros pre rest; cbn [Decoder.value];
  rewrite (bind_Ret _ _ _ _ _ (Ha pre rest)); reflexivity.

Ltac decode_pair lem :=
  intros _ enc Hw Hb v _; cbn [wire _fixTypeSize] in Hw;
  let re := fresh "re" in let im := fresh "im" in let Ha := fresh "Ha" in
  destruct (lem enc Hw) as [[re im] Ha];
  eexists; intros pre rest; cbn [Decoder.value];
  rewrite (bind_Ret _ _ _ _ _ (Ha pre rest)); reflexivity.

(** On a well-formed encoding of its shape the decoder passes exactly the
    encoding and returns no error. *)
Lemma decode_wire newPtr e0 (ty : rtype) : decode_ok newPtr e0 ty.
Proof.
  pattern ty. apply rtype_induction; clear ty;
    [intros ty|intros e IH|intros n e IH|intros k vt IHk IHv|intros fs IH|intros e IH].
  - destruct ty; try exact I; unfold decode_ok.
    + decode_fixed (reads_Bool e0).
    + (* int *)
      intros _ enc Hw Hb v _. cbn [wire] in Hw. destruct Hw as (x & Hx & ->).
      destruct (Uvarint_Put_roundtrip x Hx) as (HU & _).
      exists (VInt (ToVarint x)). intros pre rest. cbn [Decoder.value].
      unfold Decoder.Int, Decoder.Varint.
      rewrite !bind_assoc, (bind_Ret _ _ _ _ _ (HU pre rest e0)). reflexivity.
    + decode_fixed (reads_map e0 _ (to_signed 8) 1 ltac:(lia) (reads_Uint8 e0)).
    + decode_fixed (reads_map e0 _ (to_signed 16) 2 ltac:(lia) (reads_Uint16 e0)).
    + decode_fixed (reads_map e0 _ (to_signed 32) 4 ltac:(lia) (reads_Uint32 e0)).
    + decode_fixed (reads_map e0 _ (to_signed 64) 8 ltac:(lia) (reads_Uint64 e0)).
    + (* uint *)
      intros _ enc Hw Hb v _. cbn [wire] in Hw. destruct Hw as (x & Hx & ->).
      destruct (Uvarint_Put_roundtrip x Hx) as (HU & _).
      exists (VUint x). intros pre rest. cbn [Decoder.value].
      unfold Decoder.Uint.
      rewrite !bind_assoc, (bind_Ret _ _ _ _ _ (HU pre rest e0)). reflexivity.
    + decode_fixed (reads_Uint8 e0).
    + decode_fixed (reads_Uint16 e0).
    + decode_fixed (reads_Uint32 e0).
    + decode_fixed (reads_Uint64 e0).
    + decode_fixed (reads_Uint32 e0).
    + decode_fixed (reads_Uint64 e0).
    + decode_pair (reads_pair e0 Decoder.Float32 4 ltac:(lia) (reads_Uint32 e0)).
    + decode_pair (reads_pair e0 Decoder.Float64 8 ltac:(lia) (reads_Uint64 e0)).
    + (* text *)
      intros _ enc Hw Hb v _. cbn [wire] in Hw. destruct Hw as (data & ->).
      rewrite len_app in Hb.
      pose proof (len_nonneg data). pose proof (len_nonneg (PutUvarint (len data))).
      exists (VString data). intros pre rest. cbn [Decoder.value].
      unfold Decoder.String.
      destruct (Decoder_Uvarint_Put (len data) pre (data ++ rest) e0 ltac:(lia))
        as (HU & Hi & _).
      rewrite bind_assoc, <- app_assoc, (bind_Ret _ _ _ _ _ HU). cbv zeta.
      rewrite Hi.
      rewrite (bind_Ret _ _ _ _ _ (Decoder_reserve_cursor _ data rest e0 _ eq_refl)).
      rewrite <- app_assoc. reflexivity.
    + intros H. discriminate H.
  - (* slice *)
    intros Hs enc Hw Hb v _. cbn [skippable] in Hs. cbn [wire] in Hw.
    destruct (is_Bool e) eqn:Eb.
    + destruct e; try discriminate Eb. destruct Hw as (c & data & Hc & Hd & ->).
      exists (if c =? 0 then v
              else VSlice (map VBool (unpack_bools data (Z.to_nat c)))).
      intros pre rest. cbn [Decoder.value]. unfold Decoder.boolArray.
      destruct (Decoder_Uvarint_Put c pre (data ++ rest) e0 Hc) as (HU & Hi & _).
      rewrite !bind_assoc, <- app_assoc, (bind_Ret _ _ _ _ _ HU). cbv zeta.
      rewrite Hi.
      destruct (bool_sequence_after_prefix c data rest (pre ++ PutUvarint c) e0
                  ltac:(lia) Hd) as [_ H2].
      rewrite (bind_Ret _ _ _ _ _ (H2 v)).
      destruct (sizeofBoolArray_small c Hc) as [_ Hpos].
      destruct (Z.ltb_spec (sizeofBoolArray c) 0); [lia|].
      rewrite <- app_assoc. reflexivity.
    + destruct Hw as (bss & Hn & Hall & ->).
      destruct (value_slice newPtr e0 e v bss IH Hs Eb Hall Hn Hb)
        as (xs & _ & Hdec).
      exists (VSlice xs). exact Hdec.
  - (* array *)
    intros Hs enc Hw Hb v Hfit. cbn [skippable] in Hs.
    apply andb_true_iff in Hs as [Hs Hnb]. apply negb_true_iff in Hnb.
    cbn [wire] in Hw. rewrite Hnb in Hw. destruct Hw as (bss & Hn & Hall & ->).
    cbn [fits] in Hfit. destruct Hfit as (l & -> & Hfit).
    destruct (value_array newPtr e0 n e l bss IH Hs Hnb Hall Hn Hb Hfit)
      as (xs & _ & _ & Hdec).
    eexists. exact Hdec.
  - (* map *)
    intros Hs enc Hw Hb v _. cbn [skippable] in Hs.
    apply andb_true_iff in Hs as [Sk Sv]. cbn [wire] in Hw.
    destruct Hw as (kvs & Hn & Hall & ->). rewrite len_app in Hb.
    pose proof (len_nonneg kvs).
    pose proof (len_nonneg (concat (map (fun p => fst p ++ snd p) kvs))).
    pose proof (len_nonneg (PutUvarint (len kvs))).
    destruct (decode_map_loop newPtr e0 k vt kvs IHk IHv Sk Sv Hall ltac:(lia))
      as [entries Hrun].
    exists (VMap entries). intros pre rest. cbn [Decoder.value].
    destruct (Decoder_Uvarint_Put (len kvs) pre
                (concat (map (fun p => fst p ++ snd p) kvs) ++ rest) e0 ltac:(lia))
      as (HU & Hi & _).
    rewrite <- app_assoc, (bind_Ret _ _ _ _ _ HU). cbv zeta.
    rewrite Hi, to_nat_len, (bind_Ret _ _ _ _ _ (Hrun 0 [] _ _)), <- app_assoc.
    reflexivity.
  - (* record *)
    intros Hs enc Hw Hb v Hfit. cbn [skippable] in Hs. cbn [wire] in Hw.
    cbn [fits] in Hfit. destruct Hfit as (vs & -> & Hfit).
    destruct (decode_fields_loop newPtr e0 fs IH Hs enc vs Hw Hfit Hb)
      as [vs' Hrun].
    exists (VStruct vs'). intros pre rest. cbn [Decoder.value struct_fields].
    rewrite (bind_Ret _ _ _ _ _ (Hrun pre rest)). reflexivity.
  - intros H. discriminate H.
Qed.

(** ** The skip engine against the decoder *)

(** On a well-formed encoding a fast-path case passes exactly the encoding,
    as [value] does on the same pointee. *)
Lemma fast_wire (newPtr : rtype -> rvalue -> bool * rvalue) (e : Endian)
    (ty : rtype) (m : M Decoder.t rvalue) (enc : list byte) (v v' : rvalue) :
  Decoder.fast ty = Some m -> wire ty enc ->
  decodes newPtr e ty v enc v' ->
  exists w, forall pre rest,
    m (Decoder.cursor pre (enc ++ rest) e)
    = Ret w (Decoder.cursor (pre ++ enc) rest e).
Proof.
  intros Hm Hw Hd.
  assert (Hsame : forall d d',
             same_decode (m d) (Decoder.value newPtr ty v d) ->
             Decoder.value newPtr ty v d = Ret (v', None) d' ->
             m d = Ret v' d').
  { intros d d' Hs Hv. unfold same_decode, rel_res in Hs. rewrite Hv in Hs.
    destruct (m d) as [a s1|p]; [|contradiction].
    destruct Hs as [Ha ->]. injection Ha as ->. reflexivity. }
  assert (Hcases : ty <> TSlice TBool \/ ty = TSlice TBool).
  { destruct ty; try (left; discriminate).
    destruct ty; try (left; discriminate). right. reflexivity. }
  destruct Hcases as [Hne| ->].
  - exists v'. intros pre rest. apply Hsame; [|apply Hd].
    apply (fast_value_cases newPtr ty m v _ Hm). exact Hne.
  - cbn [wire is_Bool] in Hw. destruct Hw as (c & data & Hc & Hlen & ->).
    exists (if c =? 0 then VSlice [] else v'). intros pre rest.
    rewrite <- app_assoc.
    destruct (Decoder_Uvarint_Put c pre (data ++ rest) e Hc) as (HU & Hti & _).
    destruct (fast_bool_slice_value newPtr m v _ _ _ _ Hm HU) as [Hpos Hzero].
    specialize (Hd pre rest). rewrite <- app_assoc in Hd.
    destruct (Z.eqb_spec c 0) as [->|Hnz].
    + destruct (Hzero Hti) as [Hm0 Hv0]. rewrite Hm0.
      rewrite Hv0 in Hd. f_equal. congruence.
    + apply Hsame; [apply Hpos; lia|exact Hd].
Qed.

(** X1: for every shape built from the fixed-size
    scalars, natural ints, text, sequences (a fixed-capacity bool array
    excepted), maps and records whose fields are all exported, containing no
    pointer, and for every well-formed encoding of that shape shorter than
    [2^63] bytes, the skip engine and [value] (into any destination fitting
    the shape) both move the cursor from the start of the encoding exactly
    to its end, whatever bytes precede and follow it; a fast-path case for
    the shape does the same.  The count the skip engine returns is not
    negative, and it is the number of bytes of the encoding on the shapes of
    [exact_count].  The stream decoder's skip engine and [value] do the same
    on the stream, with the same count and the same decoded value, on the
    shapes where both decoders run the same code. *)
Theorem skip_matches_decode (newPtr : rtype -> rvalue -> bool * rvalue)
    (e : Endian) (ty : rtype) (enc : list byte) (v : rvalue) :
  skippable ty = true -> wire ty enc -> len enc < 2 ^ 63 -> fits ty v ->
  exists n v',
    skips ty enc n /\
    decodes newPtr e ty v enc v' /\
    (forall m, Decoder.fast ty = Some m ->
       exists w, forall pre rest,
         m (Decoder.cursor pre (enc ++ rest) e)
         = Ret w (Decoder.cursor (pre ++ enc) rest e)) /\
    0 <= n /\
    (exact_count ty = true -> n = len enc) /\
    (skip_same ty = true -> common ty = true ->
     forall rest b, exists b1 b2,
       decoderReader.skipByType ty (decoderReader.mk (enc ++ rest) e b)
       = Ret n (decoderReader.mk rest e b1) /\
       decoderReader.value ty v (decoderReader.mk (enc ++ rest) e b)
       = Ret (v', None) (decoderReader.mk rest e b2)).
Proof.
  intros Hs Hw Hlen Hf.
  destruct (skip_wire ty Hs enc Hw Hlen) as (n & Hskip & Hn & Hex).
  destruct (decode_wire newPtr e ty Hs enc Hw Hlen v Hf) as (v' & Hdec).
  exists n, v'. split; [exact Hskip|]. split; [exact Hdec|].
  split; [intros m Hm; exact (fast_wire newPtr e ty m enc v v' Hm Hw Hdec)|].
  split; [lia|]. split; [exact Hex|].
  intros Hss Hc rest b.
  destruct (sim_transfer _ _ n enc rest e (sim_skipByType ty Hss)
              (Hskip [] rest e) b) as [b1 H1].
  destruct (sim_transfer _ _ (v', None) enc rest e (sim_value newPtr ty Hc v)
              (Hdec [] rest) b) as [b2 H2].
  exists b1, b2. split; [exact H1|exact H2].
Qed.

Lemma skip_matches_decode_witness :
  skippable (TSlice TString) = true /\
  wire (TSlice TString) [Byte.x02; Byte.x01; Byte.x61; Byte.x00] /\
  exists n v',
    skips (TSlice TString) [Byte.x02; Byte.x01; Byte.x61; Byte.x00] n /\
    decodes (fun _ v => (false, v)) BigEndian (TSlice TString) (VSlice [])
      [Byte.x02; Byte.x01; Byte.x61; Byte.x00] v'.
Proof.
  assert (Hw : wire (TSlice TString) [Byte.x02; Byte.x01; Byte.x61; Byte.x00]).
  { cbn [wire is_Bool]. exists [[Byte.x01; Byte.x61]; [Byte.x00]].
    split; [reflexivity|]. split; [|reflexivity].
    repeat constructor.
    - exists [Byte.x61]. reflexivity.
    - exists []. reflexivity. }
  split; [reflexivity|]. split; [exact Hw|].
  destruct (skip_matches_decode (fun _ v => (false, v)) BigEndian
              (TSlice TString) [Byte.x02; Byte.x01; Byte.x61; Byte.x00]
              (VSlice []) eq_refl Hw eq_refl I)
    as (n & v' & H1 & H2 & _).
  exists n, v'. split; [exact H1|exact H2].
Defined.

(** The skip engine has no pointer case: on the stream [01 00 00 00 09]
    the stream decoder's [value] decodes a [*int32] from the first four
    bytes, and its skip engine passes no byte and returns -1. *)
Example skip_has_no_pointer_case :
  decoderReader.value (TPtr TInt32) (VPtr None)
    (decoderReader.mk [Byte.x01; Byte.x00; Byte.x00; Byte.x00; Byte.x09]
       LittleEndian [])
  = Ret (VPtr (Some (VInt 1)), None)
        (decoderReader.mk [Byte.x09] LittleEndian
           [Byte.x01; Byte.x00; Byte.x00; Byte.x00]) /\
  decoderReader.skipByType (TPtr TInt32)
    (decoderReader.mk [Byte.x01; Byte.x00; Byte.x00; Byte.x00; Byte.x09]
       LittleEndian [])
  = Ret (-1)
        (decoderReader.mk [Byte.x01; Byte.x00; Byte.x00; Byte.x00; Byte.x09]
           LittleEndian []).
Proof. split; reflexivity. Qed.

(** On a sequence of fixed-width elements the skip engine returns
    [cnt * s], the length of the count left out: two [int16] are passed in
    five bytes and counted as four. *)
Example skip_count_leaves_prefix_out :
  Decoder.skipByType (TSlice TInt16)
    (Decoder.cursor []
       [Byte.x02; Byte.x01; Byte.x00; Byte.x02; Byte.x00; Byte.x09] LittleEndian)
  = Ret 4
        (Decoder.cursor [Byte.x02; Byte.x01; Byte.x00; Byte.x02; Byte.x00]
           [Byte.x09] LittleEndian).
Proof. reflexivity. Qed.

(** ** A sequence longer than its fixed-capacity destination *)



(** Five [int16] into a three-slot array: the first three values, and the
    cursor after all five. *)
Example five_into_three :
  Decoder.value (fun _ v => (false, v)) (TArray 3 TInt16)
    (VArray [VInt 0; VInt 0; VInt 0])
    (Decoder.cursor []
       [Byte.x05; Byte.x01; Byte.x00; Byte.x02; Byte.x00; Byte.x03; Byte.x00;
        Byte.x04; Byte.x00; Byte.x05; Byte.x00; Byte.xff] LittleEndian)
  = Ret (VArray [VInt 1; VInt 2; VInt 3], None)
        (Decoder.cursor
           [Byte.x05; Byte.x01; Byte.x00; Byte.x02; Byte.x00; Byte.x03; Byte.x00;
            Byte.x04; Byte.x00; Byte.x05; Byte.x00] [Byte.xff] LittleEndian).
Proof. reflexivity. Qed.

(** ** What every operation keeps *)

Section Preserves.
Context {St : Type} (step : St -> St -> Prop).
Hypothesis step_refl : forall s, step s s.
Hypothesis step_trans : forall a b c, step a b -> step b c -> step a c.

Lemma preserves_ret {A} (a : A) : preserves step (ret a).
Proof. intros s a' s' H. injection H as _ <-. apply step_refl. Qed.

Lemma preserves_panic {A} (p : panicval) : preserves step (panic (A := A) p).
Proof. intros s a s' H. discriminate H. Qed.

Lemma preserves_bind {A B} (m : M St A) (k : A -> M St B) :
  preserves step m -> (forall a, preserves step (k a)) ->
  preserves step (bind m k).
Proof.
  intros Hm Hk s b s' H. unfold bind in H.
  destruct (m s) as [a s1|p] eqn:E; [|discriminate H].
  exact (step_trans _ _ _ (Hm _ _ _ E) (Hk _ _ _ _ H)).
Qed.

Lemma preserves_for_loop {A} (n : nat) :
  forall i (body : Z -> A -> M St A) a,
    (forall j x, preserves step (body j x)) ->
    preserves step (for_loop n i body a).
Proof.
  induction n as [|n IH]; intros i body a Hb; cbn [for_loop].
  - apply preserves_ret.
  - apply preserves_bind; [apply Hb|]. intros a'. apply IH, Hb.
Qed.

Lemma preserves_skip_loop (n : nat) :
  forall (body : M St Z) sum,
    preserves step body -> preserves step (skip_loop n body sum).
Proof.
  induction n as [|n IH]; intros body sum Hb; cbn [skip_loop].
  - apply preserves_ret.
  - apply preserves_bind; [exact Hb|]. intros x.
    destruct (x <? 0); [apply preserves_ret|apply IH, Hb].
Qed.

Lemma preserves_first_byte (b : list byte) : preserves step (first_byte b).
Proof. destruct b; [apply preserves_panic|apply preserves_ret]. Qed.

Lemma preserves_Index (v : rvalue) (i : Z) : preserves step (Index v i).
Proof.
  unfold Index. destruct (_ && _); [|apply preserves_panic].
  destruct (nth_error _ _); [apply preserves_ret|apply preserves_panic].
Qed.

Lemma preserves_MakeSlice (e : rtype) (n : Z) : preserves step (MakeSlice e n).
Proof.
  unfold MakeSlice. destruct (n <? 0); [apply preserves_panic|apply preserves_ret].
Qed.

Lemma preserves_make {A} (n : Z) (x : A) : preserves step (make n x).
Proof.
  unfold make. destruct (n <? 0); [apply preserves_panic|apply preserves_ret].
Qed.

Lemma preserves_get {A} (f : St -> A) : preserves step (fun s => Ret (f s) s).
Proof. intros s a s' H. injection H as _ <-. apply step_refl. Qed.

End Preserves.

Lemma Decoder_step_refl (d : Decoder.t) : Decoder_step d d.
Proof.
  split; [reflexivity|]. destruct (Decoder.reader d) as [r|] eqn:E.
  - split; [reflexivity|]. split; [lia|]. exists [], r. split; reflexivity.
  - split; [reflexivity|]. split; [reflexivity|]. lia.
Qed.

Lemma Decoder_step_trans (a b c : Decoder.t) :
  Decoder_step a b -> Decoder_step b c -> Decoder_step a c.
Proof.
  unfold Decoder_step. intros [He1 H1] [He2 H2].
  split; [congruence|].
  destruct (Decoder.reader a) as [r|].
  - destruct H1 as (Hp & Hl & used & r' & -> & Hr). rewrite Hr in H2.
    destruct H2 as (Hp2 & Hl2 & used2 & r2 & -> & Hr2).
    split; [congruence|]. split; [lia|].
    exists (used ++ used2), r2. split; [now rewrite app_assoc|exact Hr2].
  - destruct H1 as (Hr & Hb & Hp). rewrite Hr in H2.
    destruct H2 as (Hr2 & Hb2 & Hp2). rewrite Hb in Hp2.
    split; [exact Hr2|]. split; [congruence|]. lia.
Qed.

Lemma decoderReader_step_refl (s : decoderReader.t) : decoderReader_step s s.
Proof. split; [reflexivity|]. split; [lia|]. exists []. reflexivity. Qed.

Lemma decoderReader_step_trans (a b c : decoderReader.t) :
  decoderReader_step a b -> decoderReader_step b c -> decoderReader_step a c.
Proof.
  intros (He1 & Hl1 & u1 & H1) (He2 & Hl2 & u2 & H2).
  split; [congruence|]. split; [lia|].
  exists (u1 ++ u2). rewrite H1, H2. now rewrite app_assoc.
Qed.

(** The stream hands over [size] bytes into a scratch buffer of at least
    that length. *)
Lemma scratch_length (got buff1 : list byte) (size : Z) :
  size <= len buff1 -> len got = size ->
  len (got ++ skipn (length got) buff1) = len buff1.
Proof.
  intros H1 H2. unfold len in *. rewrite length_app, length_skipn. lia.
Qed.

Lemma Decoder_reserve_step (size : Z) :
  preserves Decoder_step (Decoder.reserve size).
Proof.
  intros d a d' H. unfold Decoder.reserve in H. unfold Decoder_step.
  destruct (Decoder.reader d) as [r|] eqn:E.
  - destruct (size <? 0) eqn:Hneg; [discriminate H|]. apply Z.ltb_ge in Hneg.
    unfold Read in H.
    destruct (Z.ltb_spec (len (firstn (Z.to_nat size) r)) size) as [|Hgot];
      [discriminate H|].
    injection H as _ <-. cbn [Decoder.endian Decoder.pos Decoder.buff Decoder.reader].
    split; [reflexivity|]. split; [reflexivity|]. split.
    + assert (Hg : len (firstn (Z.to_nat size) r) = size).
      { unfold len in *. rewrite length_firstn in *. lia. }
      destruct (Z.gtb_spec size (len (Decoder.buff d))).
      * rewrite (scratch_length _ _ size); [| |exact Hg];
          unfold len in *; rewrite repeat_length; lia.
      * rewrite (scratch_length _ _ size); [lia|lia|exact Hg].
    + exists (firstn (Z.to_nat size) r), (skipn (Z.to_nat size) r).
      split; [symmetry; apply firstn_skipn|reflexivity].
  - unfold Decoder.coder_reserve in H.
    destruct (size <? 0) eqn:Hneg; [discriminate H|]. apply Z.ltb_ge in Hneg.
    destruct (Z.leb_spec (Decoder.pos d + size) (len (Decoder.buff d)));
      [|discriminate H].
    injection H as _ <-. cbn [Decoder.endian Decoder.pos Decoder.buff Decoder.reader].
    split; [reflexivity|]. split; [exact E|]. split; [reflexivity|]. lia.
Qed.

Lemma decoderReader_reserve_step (size : Z) :
  preserves decoderReader_step (decoderReader.reserve size).
Proof.
  intros d a d' H. unfold decoderReader.reserve in H. unfold decoderReader_step.
  destruct (size <? 0) eqn:Hneg; [discriminate H|]. apply Z.ltb_ge in Hneg.
  unfold Read in H.
  destruct (Z.ltb_spec (len (firstn (Z.to_nat size) (decoderReader.r d))) size)
    as [|Hgot]; [discriminate H|].
  injection H as _ <-.
  cbn [decoderReader.endian decoderReader.buff decoderReader.r].
  split; [reflexivity|]. split.
  - assert (Hg : len (firstn (Z.to_nat size) (decoderReader.r d)) = size).
    { unfold len in *. rewrite length_firstn in *. lia. }
    destruct (Z.gtb_spec size (len (decoderReader.buff d))).
    + rewrite (scratch_length _ _ size); [| |exact Hg];
        unfold len in *; rewrite repeat_length; lia.
    + rewrite (scratch_length _ _ size); [lia|lia|exact Hg].
  - exists (firstn (Z.to_nat size) (decoderReader.r d)).
    symmetry; apply firstn_skipn.
Qed.

(** One step of a proof that a composed run keeps [step]: [base] closes
    the runs already known to keep it. *)
Ltac pres_go step rfl trans base :=
  repeat first
    [ apply (preserves_ret step rfl)
    | apply (preserves_panic step)
    | apply (preserves_first_byte step rfl)
    | apply (preserves_Index step rfl)
    | apply (preserves_MakeSlice step rfl)
    | apply (preserves_make step rfl)
    | apply (preserves_get step rfl)
    | base
    | apply (preserves_bind step trans); [|intros ?]
    | apply (preserves_for_loop step rfl trans); intros ? ?
    | apply (preserves_skip_loop step rfl trans)
    | match goal with
      | |- preserves _ (if ?c then _ else _) => destruct c
      | |- preserves _ (match ?x with (_, _) => _ end) => destruct x
      end ].

Ltac dgo base :=
  pres_go Decoder_step Decoder_step_refl Decoder_step_trans base.

Lemma Decoder_Uint8_step : preserves Decoder_step Decoder.Uint8.
Proof. unfold Decoder.Uint8. dgo ltac:(apply Decoder_reserve_step). Qed.

Lemma Decoder_Bool_step : preserves Decoder_step Decoder.Bool.
Proof. unfold Decoder.Bool. dgo ltac:(apply Decoder_reserve_step). Qed.

Lemma Decoder_Uint16_step : preserves Decoder_step Decoder.Uint16.
Proof. unfold Decoder.Uint16. dgo ltac:(apply Decoder_reserve_step). Qed.

Lemma Decoder_Uint32_step : preserves Decoder_step Decoder.Uint32.
Proof. unfold Decoder.Uint32. dgo ltac:(apply Decoder_reserve_step). Qed.

Lemma Decoder_Uint64_step : preserves Decoder_step Decoder.Uint64.
Proof. unfold Decoder.Uint64. dgo ltac:(apply Decoder_reserve_step). Qed.

Lemma Decoder_Skip_step n : preserves Decoder_step (Decoder.Skip n).
Proof. unfold Decoder.Skip. dgo ltac:(apply Decoder_reserve_step). Qed.

Lemma Decoder_Uvarint_loop_step (n : nat) :
  forall i x bit, preserves Decoder_step (Decoder.Uvarint_loop n i x bit).
Proof.
  induction n as [|n IH]; intros i x bit; cbn [Decoder.Uvarint_loop].
  - dgo fail.
  - apply (preserves_bind _ Decoder_step_trans); [apply Decoder_Uint8_step|].
    intros b. cbv zeta. destruct (b <? 128); [dgo fail|apply IH].
Qed.

Lemma Decoder_Uvarint_step : preserves Decoder_step Decoder.Uvarint.
Proof. apply Decoder_Uvarint_loop_step. Qed.

Lemma Decoder_Varint_step : preserves Decoder_step Decoder.Varint.
Proof. unfold Decoder.Varint. dgo ltac:(apply Decoder_Uvarint_step). Qed.

Ltac dbase :=
  first [ apply Decoder_reserve_step | apply Decoder_Uint8_step
        | apply Decoder_Bool_step | apply Decoder_Uint16_step
        | apply Decoder_Uint32_step | apply Decoder_Uint64_step
        | apply Decoder_Skip_step | apply Decoder_Uvarint_step
        | apply Decoder_Varint_step ].

Lemma Decoder_String_step : preserves Decoder_step Decoder.String.
Proof. unfold Decoder.String. dgo dbase. Qed.

Lemma Decoder_scalars_step :
  preserves Decoder_step Decoder.Int8 /\ preserves Decoder_step Decoder.Int16 /\
  preserves Decoder_step Decoder.Int32 /\ preserves Decoder_step Decoder.Int64 /\
  preserves Decoder_step Decoder.Float32 /\ preserves Decoder_step Decoder.Float64 /\
  preserves Decoder_step Decoder.Complex64 /\
  preserves Decoder_step Decoder.Complex128 /\
  preserves Decoder_step Decoder.Int /\ preserves Decoder_step Decoder.Uint.
Proof.
  unfold Decoder.Int8, Decoder.Int16, Decoder.Int32, Decoder.Int64,
    Decoder.Complex64, Decoder.Complex128, Decoder.Float32, Decoder.Float64,
    Decoder.Int, Decoder.Uint.
  repeat apply conj; dgo dbase.
Qed.

Lemma Decoder_bool_step_step {D} (set : D -> Z -> bool -> M Decoder.t D) i st :
  (forall d j x, preserves Decoder_step (set d j x)) ->
  preserves Decoder_step (Decoder.bool_step set i st).
Proof.
  intros Hset. unfold Decoder.bool_step. destruct st as [b d]. cbv zeta.
  dgo ltac:(first [apply Decoder_reserve_step | apply Hset]).
Qed.

Lemma Decoder_boolArray_step ty v :
  preserves Decoder_step (Decoder.boolArray ty v).
Proof.
  assert (Hset : forall d j x, preserves Decoder_step (Decoder.set_bool_at d j x))
    by (intros; unfold Decoder.set_bool_at; dgo fail).
  unfold Decoder.boolArray.
  destruct ty as [| | | | | | | | | | | | | | | |e|n e| | | |];
    try solve [dgo fail];
    destruct e; try solve [dgo fail];
    dgo ltac:(first [apply Decoder_Uvarint_step
                    | apply Decoder_bool_step_step, Hset]).
Qed.

Lemma Decoder_skipByType_step : forall ty,
  preserves Decoder_step (Decoder.skipByType ty).
Proof.
  intros ty. pattern ty. apply rtype_induction; clear ty;
    [intros ty|intros e IH|intros n e IH|intros k v IHk IHv|intros fs IH|intros e IH].
  - destruct ty; try exact I; cbn [Decoder.skipByType _fixTypeSize];
      try change (0 <? -1) with false; cbv iota; dgo dbase.
  - cbn [Decoder.skipByType _fixTypeSize]. change (0 <? -1) with false. cbv iota.
    dgo ltac:(first [dbase | apply IH]).
  - cbn [Decoder.skipByType _fixTypeSize]. change (0 <? -1) with false. cbv iota.
    dgo ltac:(first [dbase | apply IH]).
  - cbn [Decoder.skipByType _fixTypeSize]. change (0 <? -1) with false. cbv iota.
    dgo ltac:(first [dbase | apply IHk | apply IHv]).
  - cbn [Decoder.skipByType _fixTypeSize]. change (0 <? -1) with false. cbv iota.
    generalize 0 at 2 as sum.
    induction IH as [|f fs Hf _ IHfs]; intros sum.
    + dgo fail.
    + apply (preserves_bind _ Decoder_step_trans); [apply Hf|]. intros x.
      destruct (x <? 0); [dgo fail|apply IHfs].
  - cbn [Decoder.skipByType _fixTypeSize]. dgo fail.
Qed.

Lemma Decoder_value_step newPtr : forall ty v,
  preserves Decoder_step (Decoder.value newPtr ty v).
Proof.
  intros ty. pattern ty. apply rtype_induction; clear ty;
    [intros ty|intros e IH|intros n e IH|intros k vt IHk IHv|intros fs IH|intros e IH].
  - pose proof Decoder_scalars_step as (?&?&?&?&?&?&?&?&?&?).
    destruct ty; try exact I; intros v; cbn [Decoder.value];
      try destruct (newPtr _ _) as [[] ?];
      dgo ltac:(first [dbase | assumption | apply Decoder_String_step]).
  - intros v. cbn [Decoder.value].
    dgo ltac:(first [dbase | apply Decoder_boolArray_step
                    | apply Decoder_skipByType_step | apply IH]).
  - intros v. cbn [Decoder.value].
    dgo ltac:(first [dbase | apply Decoder_boolArray_step
                    | apply Decoder_skipByType_step | apply IH]).
  - intros v. cbn [Decoder.value].
    dgo ltac:(first [dbase | apply IHk | apply IHv]).
  - intros v. cbn [Decoder.value].
    apply (preserves_bind _ Decoder_step_trans); [|intros; dgo fail].
    generalize (struct_fields v) as vs.
    induction IH as [|f fs Hf _ IHfs]; intros vs.
    + dgo fail.
    + destruct vs as [|x vs]; [dgo fail|].
      dgo ltac:(first [apply Hf | apply IHfs]).
  - intros v. cbn [Decoder.value].
    destruct (newPtr _ _) as [[] v1]; [|dgo fail].
    destruct v1 as [| | | | | | | | | | | |[p|]|]; try solve [dgo fail].
    dgo ltac:(apply IH).
Qed.

Lemma Decoder_fast_slice_step {A} (read : M Decoder.t A) (z : A) inj :
  preserves Decoder_step read ->
  preserves Decoder_step (Decoder.fast_slice read z inj).
Proof.
  intros Hr. unfold Decoder.fast_slice.
  dgo ltac:(first [apply Decoder_Uvarint_step | apply Hr]).
Qed.

Lemma Decoder_fast_step (ty : rtype) (m : M Decoder.t rvalue) :
  Decoder.fast ty = Some m -> preserves Decoder_step m.
Proof.
  pose proof Decoder_scalars_step as (?&?&?&?&?&?&?&?&?&?).
  intros Hm.
  destruct ty; try discriminate Hm;
    try (injection Hm as <-;
         dgo ltac:(first [dbase | assumption | apply Decoder_String_step]);
         fail).
  destruct ty; try discriminate Hm; injection Hm as <-;
    try (apply Decoder_fast_slice_step;
         first [dbase | assumption | apply Decoder_String_step]).
  dgo ltac:(first [apply Decoder_Uvarint_step
                  | apply Decoder_bool_step_step; intros; dgo fail]).
Qed.

Lemma Decoder_fastValue_step (x : iface) :
  preserves Decoder_step (Decoder.fastValue x).
Proof.
  unfold Decoder.fastValue. destruct x as [ty v|ty v]; [|dgo fail].
  destruct (Decoder.fast ty) as [m|] eqn:E; [|dgo fail].
  dgo ltac:(apply (Decoder_fast_step ty m E)).
Qed.

Lemma Decoder_Value_body_step newPtr (x : iface) :
  preserves Decoder_step (Decoder.Value_body newPtr x).
Proof.
  unfold Decoder.Value_body.
  apply (preserves_bind _ Decoder_step_trans); [apply Decoder_fastValue_step|].
  intros [ok x1]. destruct ok; [dgo fail|].
  destruct x as [ty v|ty v]; [|dgo fail].
  apply (preserves_bind _ Decoder_step_trans); [apply Decoder_value_step|].
  intros [v' err]. destruct v' as [| | | | | | | | | | | |[p|]|]; dgo fail.
Qed.

(** A step from a cursor over a buffer ends in a cursor over the same
    buffer, a prefix of the unread bytes passed. *)
Lemma Decoder_step_cursor pre bs e d' :
  Decoder_step (Decoder.cursor pre bs e) d' ->
  exists used rest, bs = used ++ rest /\ d' = Decoder.cursor (pre ++ used) rest e.
Proof.
  unfold Decoder_step, Decoder.cursor.
  cbn [Decoder.endian Decoder.reader Decoder.buff Decoder.pos].
  intros (He & Hr & Hb & Hp). rewrite len_app in Hp.
  pose proof (len_nonneg pre). pose proof (len_nonneg bs).
  exists (firstn (Z.to_nat (Decoder.pos d' - len pre)) bs),
         (skipn (Z.to_nat (Decoder.pos d' - len pre)) bs).
  split; [symmetry; apply firstn_skipn|].
  destruct d' as [b p e' r].
  cbn [Decoder.endian Decoder.reader Decoder.buff Decoder.pos] in *. subst.
  rewrite <- app_assoc, firstn_skipn. f_equal.
  rewrite len_app. unfold len in *. rewrite length_firstn. lia.
Qed.

(** X3: the buffer-backed decoder only moves forward.  Whenever [value],
    the skip engine, [boolArray], a fast-path case or the body of [Value]
    returns, on any shape, destination and input, the byte order is what it
    was; without a reader the buffer is what it was and [pos] has not moved
    back nor past the end of the buffer; with a reader [pos] has not moved,
    the scratch buffer has not shrunk and the reader has delivered a prefix
    of what it held.  From a cursor over a buffer such a run ends in a
    cursor over the same buffer with a prefix of the unread bytes passed. *)
Theorem Decoder_only_moves_forward (newPtr : rtype -> rvalue -> bool * rvalue)
    (ty : rtype) (v : rvalue) (x : iface) :
  preserves Decoder_step (Decoder.value newPtr ty v) /\
  preserves Decoder_step (Decoder.skipByType ty) /\
  preserves Decoder_step (Decoder.boolArray ty v) /\
  (forall m, Decoder.fast ty = Some m -> preserves Decoder_step m) /\
  preserves Decoder_step (Decoder.Value_body newPtr x) /\
  (forall d err x' d',
     Decoder.Value newPtr x d = Decoder.Returned err x' d' -> Decoder_step d d') /\
  (forall pre bs e d',
     Decoder_step (Decoder.cursor pre bs e) d' ->
     exists used rest,
       bs = used ++ rest /\ d' = Decoder.cursor (pre ++ used) rest e).
Proof.
  split; [apply Decoder_value_step|].
  split; [apply Decoder_skipByType_step|].
  split; [apply Decoder_boolArray_step|].
  split; [intros m; apply Decoder_fast_step|].
  split; [apply Decoder_Value_body_step|].
  split; [|intros pre bs e d'; apply Decoder_step_cursor].
  intros d err x' d' H. unfold Decoder.Value in H.
  destruct (Decoder.Value_body newPtr x d) as [[x1 err1] d1|p] eqn:E;
    [|discriminate H].
  injection H as _ _ <-. exact (Decoder_Value_body_step newPtr x _ _ _ E).
Qed.

(** ** The stream-backed decoder only moves forward *)

Ltac rgo base :=
  pres_go decoderReader_step decoderReader_step_refl decoderReader_step_trans base.

Lemma decoderReader_Uint8_step : preserves decoderReader_step decoderReader.Uint8.
Proof. unfold decoderReader.Uint8. rgo ltac:(apply decoderReader_reserve_step). Qed.

Lemma decoderReader_Bool_step : preserves decoderReader_step decoderReader.Bool.
Proof. unfold decoderReader.Bool. rgo ltac:(apply decoderReader_reserve_step). Qed.

Lemma decoderReader_Uint16_step : preserves decoderReader_step decoderReader.Uint16.
Proof. unfold decoderReader.Uint16. rgo ltac:(apply decoderReader_reserve_step). Qed.

Lemma decoderReader_Uint32_step : preserves decoderReader_step decoderReader.Uint32.
Proof. unfold decoderReader.Uint32. rgo ltac:(apply decoderReader_reserve_step). Qed.

Lemma decoderReader_Uint64_step : preserves decoderReader_step decoderReader.Uint64.
Proof. unfold decoderReader.Uint64. rgo ltac:(apply decoderReader_reserve_step). Qed.

Lemma decoderReader_Skip_step n : preserves decoderReader_step (decoderReader.Skip n).
Proof. unfold decoderReader.Skip. rgo ltac:(apply decoderReader_reserve_step). Qed.

Lemma decoderReader_Uvarint_loop_step (n : nat) :
  forall i x bit, preserves decoderReader_step (decoderReader.Uvarint_loop n i x bit).
Proof.
  induction n as [|n IH]; intros i x bit; cbn [decoderReader.Uvarint_loop].
  - rgo fail.
  - apply (preserves_bind _ decoderReader_step_trans); [apply decoderReader_Uint8_step|].
    intros b. cbv zeta. destruct (b <? 128); [rgo fail|apply IH].
Qed.

Lemma decoderReader_Uvarint_step : preserves decoderReader_step decoderReader.Uvarint.
Proof. apply decoderReader_Uvarint_loop_step. Qed.

Lemma decoderReader_Varint_step : preserves decoderReader_step decoderReader.Varint.
Proof. unfold decoderReader.Varint. rgo ltac:(apply decoderReader_Uvarint_step). Qed.

Ltac rbase :=
  first [ apply decoderReader_reserve_step | apply decoderReader_Uint8_step
        | apply decoderReader_Bool_step | apply decoderReader_Uint16_step
        | apply decoderReader_Uint32_step | apply decoderReader_Uint64_step
        | apply decoderReader_Skip_step | apply decoderReader_Uvarint_step
        | apply decoderReader_Varint_step ].

Lemma decoderReader_String_step : preserves decoderReader_step decoderReader.String.
Proof. unfold decoderReader.String. rgo rbase. Qed.

Lemma decoderReader_scalars_step :
  preserves decoderReader_step decoderReader.Int8 /\ preserves decoderReader_step decoderReader.Int16 /\
  preserves decoderReader_step decoderReader.Int32 /\ preserves decoderReader_step decoderReader.Int64 /\
  preserves decoderReader_step decoderReader.Float32 /\ preserves decoderReader_step decoderReader.Float64 /\
  preserves decoderReader_step decoderReader.Complex64 /\
  preserves decoderReader_step decoderReader.Complex128.
Proof.
  unfold decoderReader.Int8, decoderReader.Int16, decoderReader.Int32, decoderReader.Int64,
    decoderReader.Complex64, decoderReader.Complex128, decoderReader.Float32,
    decoderReader.Float64.
  repeat apply conj; rgo rbase.
Qed.

Lemma decoderReader_bool_step_step {D} (set : D -> Z -> bool -> M decoderReader.t D) i st :
  (forall d j x, preserves decoderReader_step (set d j x)) ->
  preserves decoderReader_step (decoderReader.bool_step set i st).
Proof.
  intros Hset. unfold decoderReader.bool_step. destruct st as [b d]. cbv zeta.
  rgo ltac:(first [apply decoderReader_reserve_step | apply Hset]).
Qed.

Lemma decoderReader_boolArray_step ty v :
  preserves decoderReader_step (decoderReader.boolArray ty v).
Proof.
  assert (Hset : forall d j x, preserves decoderReader_step (decoderReader.set_bool_at d j x))
    by (intros; unfold decoderReader.set_bool_at; rgo fail).
  unfold decoderReader.boolArray.
  destruct ty as [| | | | | | | | | | | | | | | |e|n e| | | |];
    try solve [rgo fail];
    destruct e; try solve [rgo fail];
    rgo ltac:(first [apply decoderReader_Uvarint_step
                    | apply decoderReader_bool_step_step, Hset]).
Qed.

Lemma decoderReader_skipByType_step : forall ty,
  preserves decoderReader_step (decoderReader.skipByType ty).
Proof.
  intros ty. pattern ty. apply rtype_induction; clear ty;
    [intros ty|intros e IH|intros n e IH|intros k v IHk IHv|intros fs IH|intros e IH].
  - destruct ty; try exact I; cbn [decoderReader.skipByType _fixTypeSize];
      try change (0 <? -1) with false; cbv iota; rgo rbase.
  - cbn [decoderReader.skipByType _fixTypeSize]. change (0 <? -1) with false. cbv iota.
    rgo ltac:(first [rbase | apply IH]).
  - cbn [decoderReader.skipByType _fixTypeSize]. change (0 <? -1) with false. cbv iota.
    rgo ltac:(first [rbase | apply IH]).
  - cbn [decoderReader.skipByType _fixTypeSize]. change (0 <? -1) with false. cbv iota.
    rgo ltac:(first [rbase | apply IHk | apply IHv]).
  - cbn [decoderReader.skipByType _fixTypeSize]. change (0 <? -1) with false. cbv iota.
    generalize 0 at 2 as sum.
    induction IH as [|f fs Hf _ IHfs]; intros sum.
    + rgo fail.
    + apply (preserves_bind _ decoderReader_step_trans); [apply Hf|]. intros x.
      destruct (x <? 0); [rgo fail|apply IHfs].
  - cbn [decoderReader.skipByType _fixTypeSize]. rgo fail.
Qed.

Lemma decoderReader_value_default_step dec ty v :
  (forall f p, dec = Some f -> preserves decoderReader_step (f p)) ->
  preserves decoderReader_step (decoderReader.value_default dec ty v).
Proof.
  intros Hdec. unfold decoderReader.value_default.
  destruct (decoderReader.newPtr ty v) as [[] v1]; [|rgo fail].
  destruct dec as [f|]; [|rgo fail].
  destruct v1 as [| | | | | | | | | | | |[p|]|]; try solve [rgo fail].
  rgo ltac:(apply (Hdec f p eq_refl)).
Qed.

Lemma decoderReader_value_step : forall ty v,
  preserves decoderReader_step (decoderReader.value ty v).
Proof.
  intros ty. pattern ty. apply rtype_induction; clear ty;
    [intros ty|intros e IH|intros n e IH|intros k vt IHk IHv|intros fs IH|intros e IH].
  - pose proof decoderReader_scalars_step as (?&?&?&?&?&?&?&?).
    destruct ty; try exact I; intros v; cbn [decoderReader.value];
      try (apply decoderReader_value_default_step; intros f p Hf;
           discriminate Hf);
      rgo ltac:(first [rbase | assumption | apply decoderReader_String_step]).
  - intros v. cbn [decoderReader.value].
    rgo ltac:(first [rbase | apply decoderReader_boolArray_step
                    | apply decoderReader_skipByType_step | apply IH]).
  - intros v. cbn [decoderReader.value].
    rgo ltac:(first [rbase | apply decoderReader_boolArray_step
                    | apply decoderReader_skipByType_step | apply IH]).
  - intros v. cbn [decoderReader.value].
    rgo ltac:(first [rbase | apply IHk | apply IHv]).
  - intros v. cbn [decoderReader.value].
    apply (preserves_bind _ decoderReader_step_trans); [|intros; rgo fail].
    generalize (struct_fields v) as vs.
    induction IH as [|f fs Hf _ IHfs]; intros vs.
    + rgo fail.
    + destruct vs as [|x vs]; [rgo fail|].
      rgo ltac:(first [apply Hf | apply IHfs]).
  - intros v. cbn [decoderReader.value].
    apply decoderReader_value_default_step. intros f p Hf.
    injection Hf as <-. apply IH.
Qed.

Lemma decoderReader_fast_slice_step {A} (read : M decoderReader.t A) (z : A) inj :
  preserves decoderReader_step read ->
  preserves decoderReader_step (decoderReader.fast_slice read z inj).
Proof.
  intros Hr. unfold decoderReader.fast_slice.
  rgo ltac:(first [apply decoderReader_Uvarint_step | apply Hr]).
Qed.

Lemma decoderReader_fast_step (ty : rtype) (m : M decoderReader.t rvalue) :
  decoderReader.fast ty = Some m -> preserves decoderReader_step m.
Proof.
  pose proof decoderReader_scalars_step as (?&?&?&?&?&?&?&?).
  intros Hm.
  destruct ty; try discriminate Hm;
    try (injection Hm as <-;
         rgo ltac:(first [rbase | assumption | apply decoderReader_String_step]);
         fail).
  destruct ty; try discriminate Hm; injection Hm as <-;
    try (apply decoderReader_fast_slice_step;
         first [rbase | assumption | apply decoderReader_String_step]).
  rgo ltac:(first [apply decoderReader_Uvarint_step
                  | apply decoderReader_bool_step_step; intros; rgo fail]).
Qed.

Lemma decoderReader_fastValue_step (x : iface) :
  preserves decoderReader_step (decoderReader.fastValue x).
Proof.
  unfold decoderReader.fastValue. destruct x as [ty v|ty v]; [|rgo fail].
  destruct (decoderReader.fast ty) as [m|] eqn:E; [|rgo fail].
  rgo ltac:(apply (decoderReader_fast_step ty m E)).
Qed.

Lemma decoderReader_Value_step (x : iface) :
  preserves decoderReader_step (decoderReader.Value x).
Proof.
  unfold decoderReader.Value.
  apply (preserves_bind _ decoderReader_step_trans);
    [apply decoderReader_fastValue_step|].
  intros [ok x1]. destruct ok; [rgo fail|].
  destruct x as [ty v|ty v]; [|rgo fail].
  apply (preserves_bind _ decoderReader_step_trans);
    [apply decoderReader_value_step|].
  intros [v' err]. rgo fail.
Qed.

(** X4: the stream-backed decoder only moves forward.  Whenever [value],
    the skip engine, [boolArray], a fast-path case or [Value] returns, on
    any shape, destination and stream, the byte order is what it was, the
    scratch buffer has not shrunk, and the bytes the stream held before are
    the bytes passed followed by the bytes it still holds: nothing is read
    twice and nothing is put back. *)
Theorem decoderReader_only_moves_forward (ty : rtype) (v : rvalue) (x : iface) :
  preserves decoderReader_step (decoderReader.value ty v) /\
  preserves decoderReader_step (decoderReader.skipByType ty) /\
  preserves decoderReader_step (decoderReader.boolArray ty v) /\
  (forall m, decoderReader.fast ty = Some m -> preserves decoderReader_step m) /\
  preserves decoderReader_step (decoderReader.Value x).
Proof.
  split; [apply decoderReader_value_step|].
  split; [apply decoderReader_skipByType_step|].
  split; [apply decoderReader_boolArray_step|].
  split; [intros m; apply decoderReader_fast_step|].
  apply decoderReader_Value_step.
Qed.

(** ** Where an error can come from *)

Section Yields.
Context {St A : Type} (P : A -> Prop).

Lemma yields_ret (a : A) : P a -> yields (St := St) P (ret a).
Proof. intros H s a' s' E. injection E as <- _. exact H. Qed.

Lemma yields_panic (p : panicval) : yields (St := St) P (panic p).
Proof. intros s a s' E. discriminate E. Qed.

Lemma yields_bind {B} (m : M St B) (k : B -> M St A) :
  (forall b, yields P (k b)) -> yields P (bind m k).
Proof.
  intros Hk s a s' E. unfold bind in E.
  destruct (m s) as [b s1|p]; [|discriminate E]. exact (Hk b _ _ _ E).
Qed.

End Yields.

(** A run that ends in [ret] on every path, [fin] proving the property
    of what is returned. *)
Ltac yields_go fin :=
  repeat first
    [ apply yields_ret; fin
    | apply yields_panic
    | apply yields_bind; intros ?
    | match goal with
      | |- yields _ (if ?c then _ else _) => destruct c
      | |- yields _ (match ?x with (_, _) => _ end) => destruct x
      end ].

(** X5: the reflective decoder reports an error only for the destination
    it is called on, and only when that is a pointer or a kind without a
    decode rule (in the stream decoder also a natural int or uint).  On
    every other shape a run that returns returns no error: the results of
    the nested calls on elements, keys, values and fields are dropped, so an
    element without a decode rule is left as it is and the decode goes on. *)
Theorem value_error_only_at_top (newPtr : rtype -> rvalue -> bool * rvalue)
    (ty : rtype) (v : rvalue) :
  (match ty with TPtr _ | TOther => False | _ => True end ->
   yields (fun r => snd r = None) (Decoder.value newPtr ty v)) /\
  (match ty with TPtr _ | TOther | TInt | TUint => False | _ => True end ->
   yields (fun r => snd r = None) (decoderReader.value ty v)) /\
  yields (fun r => snd r = None \/ snd r = Some ErrUnsupportedType)
    (decoderReader.value ty v).
Proof.
  split; [|split].
  - destruct ty; intros H; try contradiction; cbn [Decoder.value];
      yields_go reflexivity.
  - destruct ty; intros H; try contradiction; cbn [decoderReader.value];
      yields_go reflexivity.
  - revert v. pattern ty. apply rtype_induction; clear ty;
      [intros ty|intros e IH|intros n e IH|intros k vt IHk IHv|intros fs IH|intros e IH].
    + assert (Hd : forall t v, yields
                (fun r => snd r = None \/ snd r = Some ErrUnsupportedType)
                (decoderReader.value_default None t v)).
      { intros t v. unfold decoderReader.value_default.
        destruct (decoderReader.newPtr t v) as [[] v1].
        - apply yields_panic.
        - apply yields_ret. right. reflexivity. }
      destruct ty; try exact I; intros v; cbn [decoderReader.value];
        try apply Hd; yields_go ltac:(left; reflexivity).
    + intros v. cbn [decoderReader.value]. yields_go ltac:(left; reflexivity).
    + intros v. cbn [decoderReader.value]. yields_go ltac:(left; reflexivity).
    + intros v. cbn [decoderReader.value]. yields_go ltac:(left; reflexivity).
    + intros v. cbn [decoderReader.value]. yields_go ltac:(left; reflexivity).
    + intros v. cbn [decoderReader.value]. unfold decoderReader.value_default.
      destruct (decoderReader.newPtr (TPtr e) v) as [[] v1].
      * destruct v1 as [| | | | | | | | | | | |[p|]|]; try apply yields_panic.
        intros s a s' E. unfold bind in E.
        destruct (decoderReader.value e p s) as [[p' err] s1|q] eqn:E1;
          [|discriminate E].
        injection E as <- _. exact (IH p _ _ _ E1).
      * apply yields_ret. right. reflexivity.
Qed.

(** A slice of natural ints through the stream decoder: no error, the
    elements left at zero and only the count passed. *)
Example stream_int_slice_is_silent :
  decoderReader.Value (PtrTo (TSlice TInt) (VSlice []))
    (decoderReader.mk [Byte.x02; Byte.x05; Byte.x06] LittleEndian [])
  = Ret (PtrTo (TSlice TInt) (VSlice [VInt 0; VInt 0]), None)
        (decoderReader.mk [Byte.x05; Byte.x06] LittleEndian [Byte.x02]).
Proof. reflexivity. Qed.

(** ** Text *)

Lemma Decoder_String_Put (data pre rest : list byte) (e : Endian) :
  len data < 2 ^ 63 ->
  Decoder.String (Decoder.cursor pre (PutUvarint (len data) ++ data ++ rest) e)
  = Ret data (Decoder.cursor (pre ++ PutUvarint (len data) ++ data) rest e).
Proof.
  intros Hl. pose proof (len_nonneg data).
  destruct (Decoder_Uvarint_Put (len data) pre (data ++ rest) e ltac:(lia))
    as (HU & Hi & _).
  unfold Decoder.String. rewrite (bind_Ret _ _ _ _ _ HU). cbv zeta. rewrite Hi.
  rewrite (Decoder_reserve_cursor _ data rest e _ eq_refl), <- app_assoc.
  reflexivity.
Qed.




(** ** Record fields left out of the wire *)

Lemma bind_inv {St A B} (m : M St A) (k : A -> M St B) s b s' :
  bind m k s = Ret b s' ->
  exists a s1, m s = Ret a s1 /\ k a s1 = Ret b s'.
Proof.
  unfold bind. destruct (m s) as [a s1|p]; [|discriminate].
  intros H. exists a, s1. split; [reflexivity|exact H].
Qed.

(** What the field loop of [value] keeps, read off one unfolding of the
    loop: [loop] is the loop and [dec] the decoder of an included field. *)
Lemma fields_loop_kept {St} (dec : rtype -> rvalue -> M St rvalue)
    (loop : list (bool * rtype) -> list rvalue -> M St (list rvalue)) :
  (forall vs, loop [] vs = ret vs) ->
  (forall f fs, loop (f :: fs) [] = panic PanicRuntime) ->
  (forall f fs x vs,
     loop (f :: fs) (x :: vs)
     = (x' <- (if fst f then dec (snd f) x else ret x) ;;
        rest <- loop fs vs ;; ret (x' :: rest))) ->
  forall fs vs d out d',
    loop fs vs d = Ret out d' ->
    length out = length vs /\
    (forall i f, nth_error fs i = Some f -> fst f = false ->
                 nth_error out i = nth_error vs i) /\
    (forallb (fun f => negb (fst f)) fs = true -> out = vs /\ d' = d).
Proof.
  intros Hnil Hshort Hcons. induction fs as [|f fs IH]; intros vs d out d' H.
  - rewrite Hnil in H. injection H as <- <-.
    split; [reflexivity|]. split; [|intros _; split; reflexivity].
    intros [|i] f Hf; discriminate Hf.
  - destruct vs as [|x vs]; [rewrite Hshort in H; discriminate H|].
    rewrite Hcons in H.
    apply bind_inv in H as (x' & d1 & Hx & H).
    apply bind_inv in H as (rest & d2 & Hrest & H).
    injection H as <- <-.
    destruct (IH vs d1 rest d2 Hrest) as (Hlen & Hkeep & Hall).
    split; [cbn [length]; now rewrite Hlen|]. split.
    + intros [|i] g Hg Hfalse; cbn [nth_error] in *.
      * injection Hg as ->. rewrite Hfalse in Hx. injection Hx as -> _.
        reflexivity.
      * apply (Hkeep i g Hg Hfalse).
    + cbn [forallb]. intros Hb. apply andb_true_iff in Hb as [Hf Hb].
      apply negb_true_iff in Hf. rewrite Hf in Hx. injection Hx as -> ->.
      destruct (Hall Hb) as [-> ->]. split; reflexivity.
Qed.

(** X7: a record field that [validField] leaves out takes no byte and
    keeps its value.  When [value] returns from a record destination it
    returns no error and a record with as many fields, each excluded field
    as it was; a record whose fields are all excluded comes back unchanged
    with the cursor where it was.  Both decoders. *)
Theorem excluded_fields_are_kept (newPtr : rtype -> rvalue -> bool * rvalue)
    (fs : list (bool * rtype)) (vs : list rvalue) :
  (forall d v' err d',
     Decoder.value newPtr (TStruct fs) (VStruct vs) d = Ret (v', err) d' ->
     err = None /\
     exists vs',
       v' = VStruct vs' /\ length vs' = length vs /\
       (forall i f, nth_error fs i = Some f -> fst f = false ->
                    nth_error vs' i = nth_error vs i) /\
       (forallb (fun f => negb (fst f)) fs = true -> vs' = vs /\ d' = d)) /\
  (forall s v' err s',
     decoderReader.value (TStruct fs) (VStruct vs) s = Ret (v', err) s' ->
     err = None /\
     exists vs',
       v' = VStruct vs' /\ length vs' = length vs /\
       (forall i f, nth_error fs i = Some f -> fst f = false ->
                    nth_error vs' i = nth_error vs i) /\
       (forallb (fun f => negb (fst f)) fs = true -> vs' = vs /\ s' = s)).
Proof.
  split.
  - intros d v' err d' H. cbn [Decoder.value struct_fields] in H.
    apply bind_inv in H as (out & d1 & Hloop & H). injection H as <- <- <-.
    split; [reflexivity|]. exists out. split; [reflexivity|].
    revert Hloop.
    apply (fields_loop_kept
             (fun t x => '(x', _) <- Decoder.value newPtr t x ;; ret x'));
      [reflexivity|reflexivity|reflexivity].
  - intros s v' err s' H. cbn [decoderReader.value struct_fields] in H.
    apply bind_inv in H as (out & s1 & Hloop & H). injection H as <- <- <-.
    split; [reflexivity|]. exists out. split; [reflexivity|].
    revert Hloop.
    apply (fields_loop_kept
             (fun t x => '(x', _) <- decoderReader.value t x ;; ret x'));
      [reflexivity|reflexivity|reflexivity].
Qed.

(** A record with one excluded [int32] field: [value] passes no byte and
    the skip engine, which walks every field, passes four. *)
Example skip_walks_excluded_fields :
  Decoder.value (fun _ v => (false, v)) (TStruct [(false, TInt32)])
    (VStruct [VInt 7])
    (Decoder.cursor [] [Byte.x01; Byte.x00; Byte.x00; Byte.x00] LittleEndian)
  = Ret (VStruct [VInt 7], None)
        (Decoder.cursor [] [Byte.x01; Byte.x00; Byte.x00; Byte.x00] LittleEndian) /\
  Decoder.skipByType (TStruct [(false, TInt32)])
    (Decoder.cursor [] [Byte.x01; Byte.x00; Byte.x00; Byte.x00] LittleEndian)
  = Ret 4
        (Decoder.cursor [Byte.x01; Byte.x00; Byte.x00; Byte.x00] [] LittleEndian).
Proof. split; reflexivity. Qed.

(** ** The entry points on a well-formed encoding *)

Lemma fast_shared (ty : rtype) :
  common ty = true ->
  match Decoder.fast ty, decoderReader.fast ty with
  | Some _, Some _ | None, None => True
  | _, _ => False
  end.
Proof.
  destruct ty; try discriminate; try (intros _; exact I).
  destruct ty; try discriminate; intros _; exact I.
Qed.

(** X8: [Value] on a pointer to a destination of a shape the skip engine
    follows the decoder on, over a well-formed encoding of that shape
    shorter than [2^63] bytes, returns no error with the cursor exactly
    after the encoding, through the fast path when the shape has one and
    through [value] otherwise.  [Decoder.Value] enters [value] at the
    pointer, so for a shape without a fast path this asks that [newPtr]
    accepts the non-nil pointer as it is.  [decoderReader.Value] enters
    [value] at the pointee, and on the shapes both decoders have a rule for
    it stores the same value and leaves the same bytes unread.  A
    destination passed by value is refused with the non-pointer error and
    no byte is passed. *)
Theorem Value_decodes (newPtr : rtype -> rvalue -> bool * rvalue)
    (e : Endian) (ty : rtype) (enc : list byte) (v : rvalue) :
  skippable ty = true -> wire ty enc -> len enc < 2 ^ 63 -> fits ty v ->
  newPtr (TPtr ty) (VPtr (Some v)) = (true, VPtr (Some v)) ->
  exists v',
    (forall pre rest,
       Decoder.Value newPtr (PtrTo ty v) (Decoder.cursor pre (enc ++ rest) e)
       = Decoder.Returned None (PtrTo ty v')
           (Decoder.cursor (pre ++ enc) rest e)) /\
    (common ty = true ->
     forall rest b, exists b',
       decoderReader.Value (PtrTo ty v) (decoderReader.mk (enc ++ rest) e b)
       = Ret (PtrTo ty v', None) (decoderReader.mk rest e b')) /\
    (forall d,
       Decoder.Value newPtr (NonPtr ty v) d
       = Decoder.Returned (Some ErrNonPointer) (NonPtr ty v) d) /\
    (forall s,
       decoderReader.Value (NonPtr ty v) s
       = Ret (NonPtr ty v, Some ErrNonPointer) s).
Proof.
  intros Hs Hw Hlen Hf Hptr.
  destruct (decode_wire newPtr e ty Hs enc Hw Hlen v Hf) as (v' & Hdec).
  destruct (Decoder.fast ty) as [m1|] eqn:F1.
  - destruct (fast_wire newPtr e ty m1 enc v v' F1 Hw Hdec) as [w Hm].
    exists w. split; [|split; [|split; intros; reflexivity]].
    + intros pre rest.
      unfold Decoder.Value, Decoder.Value_body, Decoder.fastValue.
      rewrite F1. unfold bind at 1 2. rewrite Hm. reflexivity.
    + intros Hc rest b. pose proof (fast_shared ty Hc) as Hsh. rewrite F1 in Hsh.
      destruct (decoderReader.fast ty) as [m2|] eqn:F2; [|contradiction].
      destruct (sim_transfer m1 m2 w enc rest e (sim_fast ty m1 m2 F1 F2)
                  (Hm [] rest) b) as [b' Hb].
      exists b'. unfold decoderReader.Value, decoderReader.fastValue.
      rewrite F2. unfold bind at 1 2. rewrite Hb. reflexivity.
  - exists v'. split; [|split; [|split; intros; reflexivity]].
    + intros pre rest.
      unfold Decoder.Value, Decoder.Value_body, Decoder.fastValue.
      rewrite F1. rewrite bind_ret_l. cbn [Decoder.value]. rewrite Hptr.
      rewrite bind_assoc, (bind_Ret _ _ _ _ _ (Hdec pre rest)). reflexivity.
    + intros Hc rest b. pose proof (fast_shared ty Hc) as Hsh. rewrite F1 in Hsh.
      destruct (decoderReader.fast ty) as [m2|] eqn:F2; [contradiction|].
      destruct (sim_transfer _ _ (v', None) enc rest e (sim_value newPtr ty Hc v)
                  (Hdec [] rest) b) as [b' Hb].
      exists b'. unfold decoderReader.Value, decoderReader.fastValue.
      rewrite F2. rewrite bind_ret_l. rewrite (bind_Ret _ _ _ _ _ Hb).
      reflexivity.
Qed.

Lemma Value_decodes_witness :
  wire (TStruct [(true, TUint8); (true, TString)]) [Byte.x07; Byte.x01; Byte.x61] /\
  exists v',
    Decoder.Value
      (fun _ v => match v with VPtr (Some _) => (true, v) | _ => (false, v) end)
      (PtrTo (TStruct [(true, TUint8); (true, TString)])
             (VStruct [VUint 0; VString []]))
      (Decoder.cursor [] ([Byte.x07; Byte.x01; Byte.x61] ++ [Byte.xff]) BigEndian)
    = Decoder.Returned None
        (PtrTo (TStruct [(true, TUint8); (true, TString)]) v')
        (Decoder.cursor ([] ++ [Byte.x07; Byte.x01; Byte.x61]) [Byte.xff]
           BigEndian).
Proof.
  assert (Hw : wire (TStruct [(true, TUint8); (true, TString)])
                 [Byte.x07; Byte.x01; Byte.x61]).
  { cbn [wire fst snd]. exists [Byte.x07], [Byte.x01; Byte.x61].
    split; [reflexivity|]. split; [reflexivity|].
    exists [Byte.x01; Byte.x61], []. split; [reflexivity|].
    split; [exists [Byte.x61]; reflexivity|reflexivity]. }
  assert (Hf : fits (TStruct [(true, TUint8); (true, TString)])
                 (VStruct [VUint 0; VString []])).
  { cbn [fits]. exists [VUint 0; VString []]. repeat split. }
  split; [exact Hw|].
  destruct (Value_decodes
              (fun _ v => match v with VPtr (Some _) => (true, v) | _ => (false, v) end)
              BigEndian (TStruct [(true, TUint8); (true, TString)])
              [Byte.x07; Byte.x01; Byte.x61] (VStruct [VUint 0; VString []])
              eq_refl Hw eq_refl Hf eq_refl) as (v' & H & _).
  exists v'. exact (H [] [Byte.xff]).
Defined.

(** ** What a slice and a map are decoded to *)




(** Two entries with the same key: both reach [SetMapIndex], the later
    one last. *)
Example map_duplicate_key :
  Decoder.value (fun _ v => (false, v)) (TMap TUint8 TUint8) (VMap [])
    (Decoder.cursor [] [Byte.x02; Byte.x01; Byte.x0a; Byte.x01; Byte.x0b]
       LittleEndian)
  = Ret (VMap [(VUint 1, VUint 10); (VUint 1, VUint 11)], None)
        (Decoder.cursor [Byte.x02; Byte.x01; Byte.x0a; Byte.x01; Byte.x0b] []
           LittleEndian).
Proof. reflexivity. Qed.


(** ** What the slice fast paths store *)

(** The element loop of a [*[]T] fast path: each element is what the
    accessor reads from its encoding. *)
Lemma fast_slice_loop {A} (read : M Decoder.t A) (e0 : Endian)
    (encs : list (list byte)) (xs : list A) :
  Forall2 (fun enc x => forall pre rest,
             read (Decoder.cursor pre (enc ++ rest) e0)
             = Ret x (Decoder.cursor (pre ++ enc) rest e0)) encs xs ->
  forall done todo pre rest,
    length todo = length encs ->
    for_loop (length encs) (len done)
      (fun i d => x <- read ;; ret (set_nth (Z.to_nat i) x d)) (done ++ todo)
      (Decoder.cursor pre (concat encs ++ rest) e0)
    = Ret (done ++ xs) (Decoder.cursor (pre ++ concat encs) rest e0).
Proof.
  induction 1 as [|enc x encs xs Hx _ IH]; intros done todo pre rest Hl.
  - destruct todo; [|discriminate Hl].
    cbn [length for_loop concat app]. now rewrite !app_nil_r.
  - destruct todo as [|y todo]; [discriminate Hl|]. injection Hl as Hl.
    cbn [length concat]. rewrite for_loop_S, <- app_assoc.
    rewrite bind_assoc, (bind_Ret _ _ _ _ _ (Hx pre _)), bind_ret_l.
    rewrite to_nat_len, set_nth_at.
    replace (len done + 1) with (len (done ++ [x]))
      by (unfold len; rewrite length_app; cbn [length]; lia).
    replace (done ++ x :: todo) with ((done ++ [x]) ++ todo)
      by (now rewrite <- app_assoc).
    rewrite (IH (done ++ [x]) todo _ rest Hl), <- !app_assoc. reflexivity.
Qed.

Lemma fast_slice_elems {A} (read : M Decoder.t A) (z : A) (inj : A -> rvalue)
    (e0 : Endian) (encs : list (list byte)) (xs : list A) :
  Forall2 (fun enc x => forall pre rest,
             read (Decoder.cursor pre (enc ++ rest) e0)
             = Ret x (Decoder.cursor (pre ++ enc) rest e0)) encs xs ->
  len encs < 2 ^ 63 ->
  forall pre rest,
    Decoder.fast_slice read z inj
      (Decoder.cursor pre ((PutUvarint (len encs) ++ concat encs) ++ rest) e0)
    = Ret (VSlice (map inj xs))
          (Decoder.cursor (pre ++ PutUvarint (len encs) ++ concat encs) rest e0).
Proof.
  intros Hall Hn pre rest. pose proof (len_nonneg encs).
  destruct (Decoder_Uvarint_Put (len encs) pre (concat encs ++ rest) e0 ltac:(lia))
    as (HU & Hi & _).
  unfold Decoder.fast_slice.
  rewrite <- app_assoc, (bind_Ret _ _ _ _ _ HU). cbv zeta. rewrite Hi.
  unfold make. destruct (Z.ltb_spec (len encs) 0); [lia|].
  rewrite bind_ret_l, to_nat_len.
  rewrite (bind_Ret _ _ _ _ _
             (fast_slice_loop read e0 encs xs Hall [] (repeat z (length encs))
                _ rest (repeat_length _ _))).
  cbn [app]. rewrite <- app_assoc. reflexivity.
Qed.

(** The encoding of a sequence of texts: each its length and its bytes. *)
Lemma String_encodings (e0 : Endian) (ss : list (list byte)) :
  Forall (fun s => len s < 2 ^ 63) ss ->
  Forall2 (fun enc x => forall pre rest,
             Decoder.String (Decoder.cursor pre (enc ++ rest) e0)
             = Ret x (Decoder.cursor (pre ++ enc) rest e0))
          (map (fun s => PutUvarint (len s) ++ s) ss) ss.
Proof.
  induction 1 as [|s ss Hs _ IH]; cbn [map]; constructor; [|exact IH].
  intros pre rest. rewrite <- app_assoc. apply Decoder_String_Put, Hs.
Qed.

Lemma Uint8_encodings (e0 : Endian) (data : list byte) :
  Forall2 (fun enc x => forall pre rest,
             Decoder.Uint8 (Decoder.cursor pre (enc ++ rest) e0)
             = Ret x (Decoder.cursor (pre ++ enc) rest e0))
          (map (fun b => [b]) data) (map byte_to_Z data).
Proof.
  induction data as [|b data IH]; cbn [map]; constructor; [|exact IH].
  intros pre rest. apply Decoder_Uint8_cursor.
Qed.

Lemma len_map {A B} (f : A -> B) (l : list A) : len (map f l) = len l.
Proof. unfold len. now rewrite length_map. Qed.

Lemma concat_singletons {A} (l : list A) : concat (map (fun b => [b]) l) = l.
Proof. induction l as [|a l IH]; cbn [map concat app]; [|rewrite IH]; reflexivity. Qed.

(** X10: what the [*[]byte] and [*[]string] fast paths store.  From the
    minimal uvarint of the element count followed by the elements,
    [Value] on a [*[]uint8] stores exactly the bytes that follow the count,
    and [Value] on a [*[]string] stores the texts in order, each read from
    its own length and bytes; no error is returned and the cursor ends
    exactly after the encoding, in both decoders.  The reflective decoder
    [value] stores the same slices. *)
Theorem byte_and_text_slices (e : Endian) (pre rest : list byte) :
  (forall data,
     len data < 2 ^ 63 ->
     let enc := PutUvarint (len data) ++ data in
     let out := VSlice (map (fun b => VUint (byte_to_Z b)) data) in
     (forall newPtr x0,
        Decoder.Value newPtr (PtrTo (TSlice TUint8) x0)
          (Decoder.cursor pre (enc ++ rest) e)
        = Decoder.Returned None (PtrTo (TSlice TUint8) out)
            (Decoder.cursor (pre ++ enc) rest e)) /\
     (forall newPtr x0,
        Decoder.value newPtr (TSlice TUint8) x0
          (Decoder.cursor pre (enc ++ rest) e)
        = Ret (out, None) (Decoder.cursor (pre ++ enc) rest e)) /\
     (forall x0 b, exists b',
        decoderReader.Value (PtrTo (TSlice TUint8) x0)
          (decoderReader.mk (enc ++ rest) e b)
        = Ret (PtrTo (TSlice TUint8) out, None) (decoderReader.mk rest e b'))) /\
  (forall ss,
     len ss < 2 ^ 63 -> Forall (fun s => len s < 2 ^ 63) ss ->
     let enc := PutUvarint (len ss)
                ++ concat (map (fun s => PutUvarint (len s) ++ s) ss) in
     let out := VSlice (map VString ss) in
     (forall newPtr x0,
        Decoder.Value newPtr (PtrTo (TSlice TString) x0)
          (Decoder.cursor pre (enc ++ rest) e)
        = Decoder.Returned None (PtrTo (TSlice TString) out)
            (Decoder.cursor (pre ++ enc) rest e)) /\
     (forall newPtr x0,
        Decoder.value newPtr (TSlice TString) x0
          (Decoder.cursor pre (enc ++ rest) e)
        = Ret (out, None) (Decoder.cursor (pre ++ enc) rest e)) /\
     (forall x0 b, exists b',
        decoderReader.Value (PtrTo (TSlice TString) x0)
          (decoderReader.mk (enc ++ rest) e b)
        = Ret (PtrTo (TSlice TString) out, None) (decoderReader.mk rest e b'))).
Proof.
  assert (Hgen : forall ty m1 m2 enc out,
             Decoder.fast ty = Some m1 -> decoderReader.fast ty = Some m2 ->
             ty <> TSlice TBool ->
             (forall pre rest,
                m1 (Decoder.cursor pre (enc ++ rest) e)
                = Ret out (Decoder.cursor (pre ++ enc) rest e)) ->
             (forall newPtr x0,
                Decoder.Value newPtr (PtrTo ty x0)
                  (Decoder.cursor pre (enc ++ rest) e)
                = Decoder.Returned None (PtrTo ty out)
                    (Decoder.cursor (pre ++ enc) rest e)) /\
             (forall newPtr x0,
                Decoder.value newPtr ty x0 (Decoder.cursor pre (enc ++ rest) e)
                = Ret (out, None) (Decoder.cursor (pre ++ enc) rest e)) /\
             (forall x0 b, exists b',
                decoderReader.Value (PtrTo ty x0)
                  (decoderReader.mk (enc ++ rest) e b)
                = Ret (PtrTo ty out, None) (decoderReader.mk rest e b'))).
  { intros ty m1 m2 enc out F1 F2 Hne Hm. split; [|split].
    - intros newPtr x0.
      unfold Decoder.Value, Decoder.Value_body, Decoder.fastValue.
      rewrite F1. unfold bind at 1 2. rewrite Hm. reflexivity.
    - intros newPtr x0.
      pose proof (proj1 (fast_value_cases newPtr ty m1 x0
                           (Decoder.cursor pre (enc ++ rest) e) F1) Hne) as Hs.
      unfold same_decode, rel_res in Hs. rewrite Hm in Hs.
      destruct (Decoder.value newPtr ty x0 _) as [r d1|q]; [|contradiction].
      destruct Hs as [-> <-]. reflexivity.
    - intros x0 b.
      destruct (sim_transfer m1 m2 out enc rest e (sim_fast ty m1 m2 F1 F2)
                  (Hm [] rest) b) as [b' Hb].
      exists b'. unfold decoderReader.Value, decoderReader.fastValue.
      rewrite F2. unfold bind at 1 2. rewrite Hb. reflexivity. }
  split.
  - intros data Hl enc out.
    apply (Hgen (TSlice TUint8) _ _ enc out eq_refl eq_refl); [discriminate|].
    intros pre' rest'. subst enc out.
    pose proof (fast_slice_elems Decoder.Uint8 0 VUint e
                  (map (fun b => [b]) data) (map byte_to_Z data)
                  (Uint8_encodings e data)) as H.
    rewrite !len_map, concat_singletons, map_map in H. apply H, Hl.
  - intros ss Hn Hall enc out.
    apply (Hgen (TSlice TString) _ _ enc out eq_refl eq_refl); [discriminate|].
    intros pre' rest'. subst enc out.
    pose proof (fast_slice_elems Decoder.String [] VString e
                  (map (fun s => PutUvarint (len s) ++ s) ss) ss
                  (String_encodings e ss Hall)) as H.
    rewrite !len_map in H. apply H, Hn.
Qed.

Lemma byte_and_text_slices_witness :
  len [Byte.x0a; Byte.x0b; Byte.x0c] < 2 ^ 63 /\
  Decoder.Value (fun _ v => (false, v)) (PtrTo (TSlice TUint8) (VSlice []))
    (Decoder.cursor []
       ((PutUvarint (len [Byte.x0a; Byte.x0b; Byte.x0c])
         ++ [Byte.x0a; Byte.x0b; Byte.x0c]) ++ [Byte.xff]) LittleEndian)
  = Decoder.Returned None
      (PtrTo (TSlice TUint8)
         (VSlice (map (fun b => VUint (byte_to_Z b))
                      [Byte.x0a; Byte.x0b; Byte.x0c])))
      (Decoder.cursor
         ([] ++ PutUvarint (len [Byte.x0a; Byte.x0b; Byte.x0c])
          ++ [Byte.x0a; Byte.x0b; Byte.x0c]) [Byte.xff] LittleEndian).
Proof.
  assert (H : len [Byte.x0a; Byte.x0b; Byte.x0c] < 2 ^ 63) by reflexivity.
  split; [exact H|].
  exact (proj1 (proj1 (byte_and_text_slices LittleEndian [] [Byte.xff])
                  [Byte.x0a; Byte.x0b; Byte.x0c] H)
           (fun _ v => (false, v)) (VSlice [])).
Defined.

(** ** A bool sequence into a fixed-capacity array *)

Lemma set_nth_app_l {A} (k : nat) (x : A) (a b : list A) :
  (k < length a)%nat -> set_nth k x (a ++ b) = set_nth k x a ++ b.
Proof.
  revert k. induction a as [|y a IH]; intros [|k] H; cbn [length] in H;
    try lia; cbn [app set_nth]; [reflexivity|].
  f_equal. apply IH. lia.
Qed.

Lemma firstn_set_nth {A} (n k : nat) (x : A) (l : list A) :
  (k < n)%nat -> firstn n (set_nth k x l) = set_nth k x (firstn n l).
Proof.
  revert n k. induction l as [|y l IH]; intros [|n] [|k] H; try lia;
    cbn [set_nth firstn]; try reflexivity.
  f_equal. apply IH. lia.
Qed.

Lemma Index_array_map {St A} (inj : A -> rvalue) (d : list A) (i : Z) (st : St) :
  0 <= i < len d ->
  exists x, Index (VArray (map inj d)) i st = Ret (inj x) st.
Proof.
  intros Hi. unfold Index. cbn [Len elems]. unfold len in *.
  rewrite length_map.
  destruct (Z.leb_spec 0 i); [|lia].
  destruct (Z.ltb_spec i (Z.of_nat (length d))); [|lia].
  cbn [andb]. rewrite nth_error_map.
  destruct (nth_error d (Z.to_nat i)) as [x|] eqn:E.
  - exists x. reflexivity.
  - apply nth_error_None in E. lia.
Qed.

Lemma Index_array_out {St} (l : list rvalue) (i : Z) (st : St) :
  len l <= i -> Index (VArray l) i st = Panic PanicRuntime.
Proof.
  intros Hi. unfold Index. cbn [Len].
  destruct (Z.ltb_spec i (len l)); [lia|]. rewrite andb_false_r. reflexivity.
Qed.

(** The bool loop into an array, kept in step with the loop of the
    [*[]bool] fast path on a list [d] of [c] bools: the array holds [f d]. *)
Lemma bool_array_loop_rel (f : list bool -> list bool) (c cap : Z) (k : nat)
    (b : list byte) (d : list bool) (st : Decoder.t) :
  (forall j x d1, 0 <= j < cap -> len d1 = c ->
     f (set_nth (Z.to_nat j) x d1) = set_nth (Z.to_nat j) x (f d1)) ->
  (forall d1, len d1 = c -> cap <= len (f d1)) ->
  len d = c -> Z.of_nat k <= cap ->
  rel_res (fun (x : list byte * list bool) (y : list byte * rvalue) =>
             fst x = fst y /\ snd y = VArray (map VBool (f (snd x))) /\
             len (snd x) = c)
    (for_loop k 0
       (Decoder.bool_step (fun d i x => ret (set_nth (Z.to_nat i) x d))) (b, d) st)
    (for_loop k 0 (Decoder.bool_step Decoder.set_bool_at)
       (b, VArray (map VBool (f d))) st).
Proof.
  intros Hset Hcap Hlen Hk.
  pose proof (for_loop_rel
    (fun (j : Z) (x : list byte * list bool) (y : list byte * rvalue) =>
       fst x = fst y /\ snd y = VArray (map VBool (f (snd x))) /\
       len (snd x) = c)
    k 0
    (Decoder.bool_step (fun d i x => ret (set_nth (Z.to_nat i) x d)))
    (Decoder.bool_step Decoder.set_bool_at)
    (b, d) (b, VArray (map VBool (f d))) st) as Hloop.
  cbv beta in Hloop. apply Hloop; clear Hloop.
  - intros j [b1 d1] [b2 w] s0 Hj (Hb & Hw & Hl). cbn [fst snd] in *.
    subst b2 w. unfold Decoder.bool_step.
    apply rel_bind_same. intros b' s1.
    apply rel_bind_same. intros b0 s2.
    unfold Decoder.set_bool_at.
    destruct (Index_array_map (St := Decoder.t) VBool (f d1) j s2) as [x HI].
    { specialize (Hcap d1 Hl). lia. }
    unfold bind, ret. rewrite HI. unfold rel_res. cbn [fst snd].
    repeat split.
    + unfold SetIndex. cbn [elems with_elems].
      rewrite <- (map_set_nth VBool), Hset by lia. reflexivity.
    + unfold len in *. now rewrite set_nth_length.
  - cbn [fst snd]. repeat split. exact Hlen.
Qed.

Lemma for_loop_panic_at {St A} (k : nat) : forall m i (body : Z -> A -> M St A)
    a st a' st' p,
  for_loop k i body a st = Ret a' st' ->
  body (i + Z.of_nat k) a' st' = Panic p ->
  for_loop (k + S m) i body a st = Panic p.
Proof.
  induction k as [|k IH]; intros m i body a st a' st' p Hrun Hbody.
  - cbn [for_loop] in Hrun. injection Hrun as <- <-.
    cbn [Nat.add for_loop]. rewrite Z.add_0_r in Hbody.
    now rewrite (bind_Panic _ _ _ _ Hbody).
  - cbn [Nat.add]. rewrite for_loop_S in *.
    apply bind_inv in Hrun as (a1 & s1 & H1 & Hrun).
    rewrite (bind_Ret _ _ _ _ _ H1).
    apply (IH m (i + 1) body a1 s1 a' st' p Hrun).
    replace (i + 1 + Z.of_nat k) with (i + Z.of_nat (S k)) by lia. exact Hbody.
Qed.

(** Fetching the data byte of element [k]: a fresh byte when [k] is a
    multiple of 8, the byte held otherwise. *)
Lemma bool_fetch (data rest pre1 : list byte) (e : Endian) (k : nat) :
  (k / 8 < length data)%nat ->
  (if Z.of_nat (k mod 8) =? 0 then Decoder.reserve 1 else ret (held data k))
    (Decoder.cursor (pre1 ++ firstn ((k + 7) / 8) data)
       (skipn ((k + 7) / 8) data ++ rest) e)
  = Ret [nth (k / 8) data Byte.x00]
        (Decoder.cursor (pre1 ++ firstn ((S k + 7) / 8) data)
           (skipn ((S k + 7) / 8) data ++ rest) e).
Proof.
  intros Hc. destruct (Z.eqb_spec (Z.of_nat (k mod 8)) 0) as [E|E].
  - destruct (div8_aligned k ltac:(lia)) as [E1 E2]. rewrite E1, E2.
    rewrite (skipn_nth_cons (k / 8) data Byte.x00 Hc).
    rewrite (firstn_S_nth (k / 8) data Byte.x00 Hc).
    change ((nth (k / 8) data Byte.x00 :: skipn (S (k / 8)) data) ++ rest)
      with ([nth (k / 8) data Byte.x00] ++ skipn (S (k / 8)) data ++ rest).
    rewrite (Decoder_reserve_cursor _ [nth (k / 8) data Byte.x00] _ _ 1 eq_refl).
    rewrite <- app_assoc. reflexivity.
  - destruct (div8_inside k ltac:(lia)) as (E1 & E2 & E3 & E4).
    rewrite E1, E2. destruct k as [|k']; [contradiction|].
    cbn [held]. replace (S k' - 1)%nat with k' in E3 by lia.
    rewrite E3. reflexivity.
Qed.

(** The bool loop into an array of at least [c] slots. *)
Lemma bool_array_fits (c : nat) (dA : list bool) (data rest pre1 : list byte)
    (e : Endian) :
  (c <= length dA)%nat -> length data = ((c + 7) / 8)%nat ->
  exists b,
    for_loop c 0 (Decoder.bool_step Decoder.set_bool_at)
      ([], VArray (map VBool dA)) (Decoder.cursor pre1 (data ++ rest) e)
    = Ret (b, VArray (map VBool (unpack_bools data c ++ skipn c dA)))
          (Decoder.cursor (pre1 ++ data) rest e).
Proof.
  intros Hc Hdata.
  pose proof (fast_bool_loop data rest pre1 e (firstn c dA) c
                ltac:(rewrite length_firstn; lia) Hdata c (Nat.le_refl _))
    as Hfast.
  rewrite <- Hdata, firstn_all, skipn_all in Hfast. cbn [app] in Hfast.
  rewrite (skipn_all2 (firstn c dA)) in Hfast by (rewrite length_firstn; lia).
  rewrite app_nil_r in Hfast.
  pose proof (bool_array_loop_rel (fun d => d ++ skipn c dA) (Z.of_nat c)
                (Z.of_nat c) c [] (firstn c dA)
                (Decoder.cursor pre1 (data ++ rest) e)) as Hrel.
  cbv beta in Hrel. rewrite firstn_skipn in Hrel.
  lapply Hrel; [clear Hrel; intros Hrel|].
  2: { intros j x d1 Hj Hl. symmetry. apply set_nth_app_l. unfold len in Hl. lia. }
  lapply Hrel; [clear Hrel; intros Hrel|].
  2: { intros d1 Hl. rewrite len_app. pose proof (len_nonneg (skipn c dA)). lia. }
  specialize (Hrel ltac:(unfold len; rewrite length_firstn; lia) ltac:(lia)).
  unfold rel_res in Hrel. rewrite Hfast in Hrel.
  destruct (for_loop c 0 (Decoder.bool_step Decoder.set_bool_at) _ _)
    as [[b w] s|q]; [|contradiction].
  cbn [fst snd] in Hrel. destruct Hrel as [(_ & -> & _) <-].
  exists b. reflexivity.
Qed.

(** The bool loop into an array of fewer than [c] slots: the element past
    the last slot is an index out of range. *)
Lemma bool_array_overflows (c : nat) (dA : list bool) (data rest pre1 : list byte)
    (e : Endian) :
  (length dA < c)%nat -> length data = ((c + 7) / 8)%nat ->
  for_loop c 0 (Decoder.bool_step Decoder.set_bool_at)
    ([], VArray (map VBool dA)) (Decoder.cursor pre1 (data ++ rest) e)
  = Panic PanicRuntime.
Proof.
  intros Hc Hdata.
  pose proof (fast_bool_loop data rest pre1 e (dA ++ repeat false (c - (length dA))) c
                ltac:(rewrite length_app, repeat_length; lia) Hdata (length dA)
                ltac:(lia)) as Hfast.
  pose proof (bool_array_loop_rel (firstn (length dA)) (Z.of_nat c) (Z.of_nat (length dA)) (length dA) []
                (dA ++ repeat false (c - (length dA)))
                (Decoder.cursor pre1 (data ++ rest) e)) as Hrel.
  cbv beta in Hrel.
  rewrite firstn_app, Nat.sub_diag, firstn_all in Hrel. cbn [firstn] in Hrel.
  rewrite app_nil_r in Hrel.
  lapply Hrel; [clear Hrel; intros Hrel|].
  2: { intros j x d1 Hj Hl. apply firstn_set_nth. lia. }
  lapply Hrel; [clear Hrel; intros Hrel|].
  2: { intros d1 Hl. unfold len in *. rewrite length_firstn. lia. }
  specialize (Hrel ltac:(unfold len; rewrite length_app, repeat_length; lia)
                   ltac:(lia)).
  unfold rel_res in Hrel. rewrite Hfast in Hrel.
  destruct (for_loop (length dA) 0 (Decoder.bool_step Decoder.set_bool_at) _ _)
    as [[b w] s|q] eqn:Erun; [|contradiction].
  cbn [fst snd] in Hrel. destruct Hrel as [(<- & -> & _) <-].
  replace c with ((length dA) + S (c - (length dA) - 1))%nat by lia.
  apply (for_loop_panic_at (length dA) _ 0 _ _ _ _ _ _ Erun).
  unfold Decoder.bool_step. rewrite Z.add_0_l, Z.rem_mod_nonneg by lia.
  change 8 with (Z.of_nat 8) at 1 2. rewrite <- Nat2Z.inj_mod.
  rewrite (bind_Ret _ _ _ _ _
             (bool_fetch data rest pre1 e (length dA)
                ltac:(rewrite Hdata; apply ceil8_lt; lia))).
  cbn [first_byte]. rewrite bind_ret_l. cbv zeta.
  apply bind_Panic. unfold Decoder.set_bool_at. apply bind_Panic.
  apply Index_array_out. unfold len. rewrite length_map, length_firstn. lia.
Qed.

(** X11: a bool sequence into a fixed-capacity bool array.  [boolArray]
    does not check the capacity.  When the array has at least as many slots
    as the encoded count [c], its first [c] slots are set from the bits of
    the data bytes, the other slots keep their value, [value] returns no
    error and the cursor ends exactly after the data bytes.  When it has
    fewer, the element past the last slot is an index out of range: the
    surplus is not skipped, [boolArray] and [value] fault in both decoders,
    and [Decoder.Value] (when [newPtr] accepts the pointer) returns
    [io.ErrUnexpectedEOF]. *)
Theorem bool_array_capacity (c : Z) (data : list byte) (dA : list bool)
    (n : nat) (e : Endian) (pre rest : list byte) :
  0 <= c < 2 ^ 63 -> len data = (c + 7) / 8 ->
  let d := Decoder.cursor pre (PutUvarint c ++ data ++ rest) e in
  let v := VArray (map VBool dA) in
  (c <= len dA ->
   let out := VArray (map VBool (unpack_bools data (Z.to_nat c)
                                 ++ skipn (Z.to_nat c) dA)) in
   Decoder.boolArray (TArray n TBool) v d
   = Ret (sizeofBoolArray c, out)
         (Decoder.cursor (pre ++ PutUvarint c ++ data) rest e) /\
   forall newPtr,
     Decoder.value newPtr (TArray n TBool) v d
     = Ret (out, None) (Decoder.cursor (pre ++ PutUvarint c ++ data) rest e)) /\
  (len dA < c ->
   Decoder.boolArray (TArray n TBool) v d = Panic PanicRuntime /\
   (forall newPtr,
      Decoder.value newPtr (TArray n TBool) v d = Panic PanicRuntime) /\
   (forall b,
      decoderReader.value (TArray n TBool) v
        (decoderReader.mk (PutUvarint c ++ data ++ rest) e b)
      = Panic PanicRuntime) /\
   (forall newPtr,
      newPtr (TPtr (TArray n TBool)) (VPtr (Some v)) = (true, VPtr (Some v)) ->
      Decoder.Value newPtr (PtrTo (TArray n TBool) v) d
      = Decoder.Recovered ErrUnexpectedEOF)).
Proof.
  intros Hc Hdata d v. subst d v.
  destruct (Decoder_Uvarint_Put c pre (data ++ rest) e Hc) as (HU & Hi & _).
  assert (Hlen : length data = ((Z.to_nat c + 7) / 8)%nat).
  { apply Nat2Z.inj. rewrite Nat2Z.inj_div, Nat2Z.inj_add, Z2Nat.id by lia.
    exact Hdata. }
  split.
  - intros HL out.
    destruct (bool_array_fits (Z.to_nat c) dA data rest (pre ++ PutUvarint c) e
                ltac:(unfold len in HL; lia) Hlen) as [b Hrun].
    assert (HB : Decoder.boolArray (TArray n TBool) (VArray (map VBool dA))
                   (Decoder.cursor pre (PutUvarint c ++ data ++ rest) e)
                 = Ret (sizeofBoolArray c, out)
                       (Decoder.cursor (pre ++ PutUvarint c ++ data) rest e)).
    { unfold Decoder.boolArray. rewrite (bind_Ret _ _ _ _ _ HU). cbv zeta.
      rewrite Hi, bind_ret_l, (bind_Ret _ _ _ _ _ Hrun), <- app_assoc.
      reflexivity. }
    split; [exact HB|]. intros newPtr. cbn [Decoder.value].
    rewrite (bind_Ret _ _ _ _ _ HB).
    destruct (sizeofBoolArray_small c Hc) as [_ Hpos].
    destruct (Z.ltb_spec (sizeofBoolArray c) 0); [lia|reflexivity].
  - intros HL.
    assert (HB : forall pre0,
               Decoder.boolArray (TArray n TBool) (VArray (map VBool dA))
                 (Decoder.cursor pre0 (PutUvarint c ++ data ++ rest) e)
               = Panic PanicRuntime).
    { intros pre0.
      destruct (Decoder_Uvarint_Put c pre0 (data ++ rest) e Hc) as (HU0 & _).
      unfold Decoder.boolArray. rewrite (bind_Ret _ _ _ _ _ HU0). cbv zeta.
      rewrite Hi, bind_ret_l. apply bind_Panic.
      apply (bool_array_overflows (Z.to_nat c) dA data rest
               (pre0 ++ PutUvarint c) e ltac:(unfold len in HL; lia) Hlen). }
    assert (HV : forall newPtr pre0,
               Decoder.value newPtr (TArray n TBool) (VArray (map VBool dA))
                 (Decoder.cursor pre0 (PutUvarint c ++ data ++ rest) e)
               = Panic PanicRuntime).
    { intros newPtr pre0. cbn [Decoder.value]. apply bind_Panic, HB. }
    split; [apply HB|]. split; [intros newPtr; apply HV|]. split.
    + intros b.
      apply (sim_transfer_panic _ _ _ _ e
               (sim_value (fun _ x => (false, x)) (TArray n TBool) eq_refl
                  (VArray (map VBool dA)))
               (HV _ [])).
    + intros newPtr Hptr.
      unfold Decoder.Value, Decoder.Value_body, Decoder.fastValue.
      cbn [Decoder.fast]. rewrite bind_ret_l.
      change (Decoder.value newPtr (TPtr (TArray n TBool))
                (VPtr (Some (VArray (map VBool dA)))))
        with (let (ok, v1) := newPtr (TPtr (TArray n TBool))
                                (VPtr (Some (VArray (map VBool dA)))) in
              if ok then
                match v1 with
                | VPtr (Some p) =>
                    '(p', err) <- Decoder.value newPtr (TArray n TBool) p ;;
                    ret (VPtr (Some p'), err)
                | _ => panic PanicRuntime
                end
              else ret (VPtr (Some (VArray (map VBool dA))),
                        Some ErrUnsupportedType)).
      rewrite Hptr. rewrite bind_assoc, (bind_Panic _ _ _ _ (HV newPtr pre)).
      reflexivity.
Qed.

Lemma bool_array_capacity_witness :
  0 <= 3 < 2 ^ 63 /\ len [Byte.x05] = (3 + 7) / 8 /\
  3 <= len [false; false; false; true] /\
  Decoder.boolArray (TArray 4 TBool)
    (VArray (map VBool [false; false; false; true]))
    (Decoder.cursor [] (PutUvarint 3 ++ [Byte.x05] ++ [Byte.xff]) LittleEndian)
  = Ret (sizeofBoolArray 3,
         VArray (map VBool (unpack_bools [Byte.x05] (Z.to_nat 3)
                            ++ skipn (Z.to_nat 3) [false; false; false; true])))
        (Decoder.cursor ([] ++ PutUvarint 3 ++ [Byte.x05]) [Byte.xff]
           LittleEndian).
Proof.
  assert (H1 : 0 <= 3 < 2 ^ 63) by (split; [discriminate|reflexivity]).
  assert (H2 : len [Byte.x05] = (3 + 7) / 8) by reflexivity.
  assert (H3 : 3 <= len [false; false; false; true]) by discriminate.
  split; [exact H1|]. split; [exact H2|]. split; [exact H3|].
  exact (proj1 (proj1 (bool_array_capacity 3 [Byte.x05]
                         [false; false; false; true] 4 LittleEndian []
                         [Byte.xff] H1 H2) H3)).
Defined.

(** ** Every varint [Uvarint] accepts *)

Lemma varint_value_range (bs : list byte) :
  0 <= varint_value bs < 2 ^ (7 * len bs).
Proof.
  induction bs as [|b bs IH]; [cbn; lia|].
  cbn [varint_value].
  pose proof (byte_to_Z_range b). pose proof (len_nonneg bs).
  assert (Hl : 0 <= Z.land (byte_to_Z b) 127 < 128).
  { rewrite land_127 by lia. apply Z.mod_pos_bound. lia. }
  assert (E : 2 ^ (7 * len (b :: bs)) = 128 * 2 ^ (7 * len bs)).
  { rewrite len_cons. replace (7 * (1 + len bs)) with (7 + 7 * len bs) by lia.
    rewrite Z.pow_add_r by lia. reflexivity. }
  rewrite E. lia.
Qed.

Lemma Decoder_Uvarint_loop_groups (front : list byte) :
  forall n i acc bit b pre rest e,
    Forall (fun c => 128 <= byte_to_Z c) front ->
    byte_to_Z b < 128 ->
    (length front < n)%nat -> i + Z.of_nat n = 10 -> 0 <= i -> bit = 7 * i ->
    (i + len front = 9 -> byte_to_Z b <= 1) ->
    0 <= acc < 2 ^ bit ->
    Decoder.Uvarint_loop n i acc bit
      (Decoder.cursor pre (front ++ b :: rest) e)
    = Ret (acc + varint_value (front ++ [b]) * 2 ^ bit, i + len front + 1)
          (Decoder.cursor (pre ++ front ++ [b]) rest e).
Proof.
  induction front as [|c front IH];
    intros n i acc bit b pre rest e Hall Hb Hn Hi Hi0 Hbit Hlast Hacc;
    (destruct n as [|n]; [cbn [length] in Hn; lia|]).
  - (* the last byte *)
    pose proof (byte_to_Z_range b) as Hr.
    cbn [app Decoder.Uvarint_loop]. unfold bind.
    rewrite Decoder_Uint8_cursor. cbv zeta.
    destruct (Z.ltb_spec (byte_to_Z b) 128); [|lia].
    assert (Hi9 : i <= 9) by lia.
    assert (Hy : byte_to_Z b < 2 ^ (64 - bit)).
    { destruct (Z.eq_dec i 9) as [->|Hne].
      - subst bit. change (2 ^ (64 - 7 * 9)) with 2.
        specialize (Hlast eq_refl). lia.
      - assert (2 ^ 7 <= 2 ^ (64 - bit)) by (apply Z.pow_le_mono_r; lia).
        change (2 ^ 7) with 128 in *. lia. }
    destruct (varint_last acc (byte_to_Z b) bit ltac:(lia) Hacc ltac:(lia) Hy)
      as [E _].
    rewrite E. cbn [varint_value app]. rewrite land_127, Z.mod_small by lia.
    replace (byte_to_Z b + 128 * 0) with (byte_to_Z b) by lia.
    replace (i + len (@nil byte) + 1) with (i + 1)
      by (unfold len; cbn [length]; lia).
    destruct (Z.gtb_spec i 9); [lia|]. cbn [orb].
    destruct (Z.eqb_spec i 9) as [->|Hne]; cbn [andb]; [|reflexivity].
    destruct (Z.gtb_spec (byte_to_Z b) 1);
      [specialize (Hlast eq_refl); lia|reflexivity].
  - (* a continuation byte *)
    inversion Hall as [|? ? Hc Hall']; subst.
    pose proof (byte_to_Z_range c) as Hr. cbn [length] in Hn.
    rewrite len_cons in *. pose proof (len_nonneg front).
    assert (Hb56 : 0 <= 7 * i <= 56) by lia.
    assert (Hl : 0 <= Z.land (byte_to_Z c) 127 < 128).
    { rewrite land_127 by lia. apply Z.mod_pos_bound. lia. }
    assert (Hy : Z.land (byte_to_Z c) 127 < 2 ^ (64 - 7 * i)).
    { assert (2 ^ 7 <= 2 ^ (64 - 7 * i)) by (apply Z.pow_le_mono_r; lia).
      change (2 ^ 7) with 128 in *. lia. }
    destruct (varint_last acc (Z.land (byte_to_Z c) 127) (7 * i)
                ltac:(lia) Hacc Hl Hy) as [_ E].
    cbn [app].
    change (Decoder.Uvarint_loop (S n) i acc (7 * i)) with
      (b <- Decoder.Uint8 ;;
       let x := Z.lor acc (to_uint64 (Z.shiftl (Z.land b 127) (7 * i))) in
       if b <? 128 then
         if (i >? 9) || ((i =? 9) && (b >? 1))
         then ret (0, - (i + 1))
         else ret (x, i + 1)
       else Decoder.Uvarint_loop n (i + 1) x (7 * i + 7)).
    unfold bind at 1. rewrite Decoder_Uint8_cursor. cbv zeta.
    destruct (Z.ltb_spec (byte_to_Z c) 128); [lia|].
    rewrite E.
    assert (P : 0 < 2 ^ (7 * i)) by (apply Z.pow_pos_nonneg; lia).
    assert (E7 : 2 ^ (7 * i + 7) = 2 ^ (7 * i) * 128)
      by (rewrite Z.pow_add_r by lia; reflexivity).
    rewrite (IH n (i + 1) _ (7 * i + 7) b (pre ++ [c]) rest e Hall' Hb);
      try lia.
    + cbn [varint_value app]. rewrite <- app_assoc. cbn [app].
      rewrite E7.
      replace (acc + Z.land (byte_to_Z c) 127 * 2 ^ (7 * i)
               + varint_value (front ++ [b]) * (2 ^ (7 * i) * 128))
        with (acc + (Z.land (byte_to_Z c) 127
                     + 128 * varint_value (front ++ [b])) * 2 ^ (7 * i))
        by ring.
      replace (i + 1 + len front + 1) with (i + (1 + len front) + 1) by lia.
      reflexivity.
    + rewrite E7. nia.
Qed.

(** X12: every varint [Uvarint] accepts, minimal or not.  From up to nine
    bytes with the continuation bit followed by a byte without it (at most
    1 when it is the tenth), [Uvarint] returns the number the low 7 bits of
    the bytes stand for, least significant group first, and the number of
    bytes, and leaves the cursor after them, in both decoders.  Redundant
    continuation bytes are accepted: the varint need not be minimal. *)
Theorem Uvarint_accepts (front : list byte) (b : byte) (pre rest : list byte)
    (e : Endian) :
  Forall (fun c => 128 <= byte_to_Z c) front -> byte_to_Z b < 128 ->
  (length front <= 9)%nat -> (length front = 9%nat -> byte_to_Z b <= 1) ->
  Decoder.Uvarint (Decoder.cursor pre (front ++ b :: rest) e)
  = Ret (varint_value (front ++ [b]), len front + 1)
        (Decoder.cursor (pre ++ front ++ [b]) rest e) /\
  (forall sb, exists sb',
     decoderReader.Uvarint (decoderReader.mk (front ++ b :: rest) e sb)
     = Ret (varint_value (front ++ [b]), len front + 1)
           (decoderReader.mk rest e sb')).
Proof.
  intros Hall Hb Hn Hlast.
  assert (H : forall pre0,
             Decoder.Uvarint (Decoder.cursor pre0 (front ++ b :: rest) e)
             = Ret (varint_value (front ++ [b]), len front + 1)
                   (Decoder.cursor (pre0 ++ front ++ [b]) rest e)).
  { intros pre0. unfold Decoder.Uvarint. change (Z.to_nat MaxVarintLen64) with 10%nat.
    rewrite (Decoder_Uvarint_loop_groups front 10 0 0 0 b pre0 rest e Hall Hb).
    - change (2 ^ 0) with 1. rewrite Z.mul_1_r, !Z.add_0_l. reflexivity.
    - lia.
    - reflexivity.
    - lia.
    - reflexivity.
    - unfold len. intros H9. apply Hlast. lia.
    - change (2 ^ 0) with 1. lia. }
  split; [apply H|]. intros sb.
  replace (front ++ b :: rest) with ((front ++ [b]) ++ rest)
    by (now rewrite <- app_assoc).
  apply (sim_transfer _ _ _ _ rest e sim_Uvarint).
  rewrite <- app_assoc. apply (H []).
Qed.

Lemma Uvarint_accepts_witness :
  Forall (fun c => 128 <= byte_to_Z c) [Byte.x80; Byte.x80] /\
  Decoder.Uvarint
    (Decoder.cursor [] ([Byte.x80; Byte.x80] ++ Byte.x00 :: [Byte.x07])
       LittleEndian)
  = Ret (varint_value ([Byte.x80; Byte.x80] ++ [Byte.x00]),
         len [Byte.x80; Byte.x80] + 1)
        (Decoder.cursor ([] ++ [Byte.x80; Byte.x80] ++ [Byte.x00]) [Byte.x07]
           LittleEndian).
Proof.
  assert (H : Forall (fun c => 128 <= byte_to_Z c) [Byte.x80; Byte.x80])
    by (repeat constructor; discriminate).
  split; [exact H|].
  exact (proj1 (Uvarint_accepts [Byte.x80; Byte.x80] Byte.x00 [] [Byte.x07]
                  LittleEndian H eq_refl ltac:(cbn [length]; lia)
                  ltac:(intros C; discriminate C))).
Defined.

(** Zero padded to three bytes is still zero. *)
Example padded_zero :
  varint_value [Byte.x80; Byte.x80; Byte.x00] = 0 /\
  varint_value (PutUvarint 300) = 300.
Proof. split; reflexivity. Qed.

(** ** Framed runs *)

Lemma framed_ret {A} (a : A) : framed (ret a).
Proof.
  intros pre bs e a' d' H. injection H as <- <-.
  exists [], bs. split; [reflexivity|]. split; [now rewrite app_nil_r|].
  split.
  - intros pre' rest'. cbn [app]. now rewrite app_nil_r.
  - intros pre' t more Hu Hm. symmetry in Hu.
    apply app_eq_nil in Hu as [_ ->]. contradiction.
Qed.

Lemma framed_panic {A} (p : panicval) : framed (panic (A := A) p).
Proof. intros pre bs e a d' H. discriminate H. Qed.

Lemma framed_get {A} (f : Endian -> A) :
  framed (fun d => Ret (f (Decoder.endian d)) d).
Proof.
  intros pre bs e a d' H. injection H as <- <-.
  exists [], bs. split; [reflexivity|]. split; [now rewrite app_nil_r|].
  split.
  - intros pre' rest'. cbn [app]. now rewrite app_nil_r.
  - intros pre' t more Hu Hm. symmetry in Hu.
    apply app_eq_nil in Hu as [_ ->]. contradiction.
Qed.

Lemma app_split {A} (t more u1 u2 : list A) :
  t ++ more = u1 ++ u2 ->
  (exists m1, m1 <> [] /\ u1 = t ++ m1) \/
  (exists t2, t = u1 ++ t2 /\ u2 = t2 ++ more).
Proof.
  revert u1. induction t as [|x t IH]; intros u1 H.
  - destruct u1 as [|y u1].
    + right. exists []. split; [reflexivity|exact (eq_sym H)].
    + left. exists (y :: u1). split; [discriminate|reflexivity].
  - destruct u1 as [|y u1].
    + right. exists (x :: t). split; [reflexivity|exact (eq_sym H)].
    + cbn [app] in H. injection H as -> H.
      destruct (IH u1 H) as [(m1 & Hm & ->)|(t2 & -> & ->)].
      * left. exists m1. split; [exact Hm|reflexivity].
      * right. exists t2. split; reflexivity.
Qed.

Lemma framed_bind {A B} (m : M Decoder.t A) (k : A -> M Decoder.t B) :
  framed m -> (forall a, framed (k a)) -> framed (bind m k).
Proof.
  intros Hm Hk pre bs e b d'' H.
  apply bind_inv in H as (a & d1 & H1 & H2).
  destruct (Hm pre bs e a d1 H1) as (u1 & r1 & -> & -> & Hm2 & Hm3).
  destruct (Hk a (pre ++ u1) r1 e b d'' H2) as (u2 & r2 & -> & -> & Hk2 & Hk3).
  exists (u1 ++ u2), r2. split; [now rewrite app_assoc|].
  split; [now rewrite app_assoc|]. split.
  - intros pre' rest'. rewrite <- app_assoc.
    rewrite (bind_Ret _ _ _ _ _ (Hm2 pre' (u2 ++ rest'))), Hk2.
    now rewrite app_assoc.
  - intros pre' t more Hu Hne. symmetry in Hu.
    destruct (app_split t more u1 u2 Hu) as [(m1 & Hm1 & E)|(t2 & -> & E)].
    + apply bind_Panic. apply (Hm3 pre' t m1 E Hm1).
    + rewrite (bind_Ret _ _ _ _ _ (Hm2 pre' t2)).
      apply (Hk3 (pre' ++ u1) t2 more E Hne).
Qed.

Lemma framed_for_loop {A} (n : nat) :
  forall i (body : Z -> A -> M Decoder.t A) a,
    (forall j x, framed (body j x)) -> framed (for_loop n i body a).
Proof.
  induction n as [|n IH]; intros i body a Hb; cbn [for_loop].
  - apply framed_ret.
  - apply framed_bind; [apply Hb|]. intros a'. apply IH, Hb.
Qed.

Lemma framed_skip_loop (n : nat) :
  forall (body : M Decoder.t Z) sum,
    framed body -> framed (skip_loop n body sum).
Proof.
  induction n as [|n IH]; intros body sum Hb; cbn [skip_loop].
  - apply framed_ret.
  - apply framed_bind; [exact Hb|]. intros x.
    destruct (x <? 0); [apply framed_ret|apply IH, Hb].
Qed.

Lemma framed_first_byte (b : list byte) : framed (first_byte b).
Proof. destruct b; [apply framed_panic|apply framed_ret]. Qed.

Lemma framed_Index (v : rvalue) (i : Z) : framed (Index v i).
Proof.
  unfold Index. destruct (_ && _); [|apply framed_panic].
  destruct (nth_error _ _); [apply framed_ret|apply framed_panic].
Qed.

Lemma framed_MakeSlice (e : rtype) (n : Z) : framed (MakeSlice e n).
Proof.
  unfold MakeSlice. destruct (n <? 0); [apply framed_panic|apply framed_ret].
Qed.

Lemma framed_make {A} (n : Z) (x : A) : framed (make n x).
Proof.
  unfold make. destruct (n <? 0); [apply framed_panic|apply framed_ret].
Qed.

Lemma framed_reserve (n : Z) : framed (Decoder.reserve n).
Proof.
  intros pre bs e a d' H.
  destruct (Z.ltb_spec n 0) as [Hneg|Hpos].
  { rewrite Decoder_reserve_negative in H by (try reflexivity; lia).
    discriminate H. }
  destruct (Z.ltb_spec (len bs) n) as [Hshort|Hok].
  { rewrite Decoder_reserve_short in H by lia. discriminate H. }
  rewrite Decoder_reserve_firstn in H by lia. injection H as <- <-.
  exists (firstn (Z.to_nat n) bs), (skipn (Z.to_nat n) bs).
  split; [symmetry; apply firstn_skipn|]. split; [reflexivity|].
  assert (Hl : len (firstn (Z.to_nat n) bs) = n).
  { unfold len in *. rewrite length_firstn. lia. }
  split.
  - intros pre' rest'. apply Decoder_reserve_cursor. now rewrite Hl.
  - intros pre' t more Hu Hne. apply Decoder_reserve_short.
    rewrite <- Hl, Hu, len_app.
    destruct more; [contradiction|]. rewrite len_cons.
    pose proof (len_nonneg more). lia.
Qed.

(** One step of a proof that a composed run is framed. *)
Ltac framed_go base :=
  repeat first
    [ apply framed_ret
    | apply framed_panic
    | apply framed_first_byte
    | apply framed_Index
    | apply framed_MakeSlice
    | apply framed_make
    | apply framed_reserve
    | apply (framed_get (fun e => Uint16 e _))
    | apply (framed_get (fun e => Uint32 e _))
    | apply (framed_get (fun e => Uint64 e _))
    | base
    | apply framed_bind; [|intros ?]
    | apply framed_for_loop; intros ? ?
    | apply framed_skip_loop
    | match goal with
      | |- framed (if ?c then _ else _) => destruct c
      | |- framed (match ?x with (_, _) => _ end) => destruct x
      end ].

Lemma framed_Uint8 : framed Decoder.Uint8.
Proof. unfold Decoder.Uint8. framed_go fail. Qed.

Lemma framed_Bool : framed Decoder.Bool.
Proof. unfold Decoder.Bool. framed_go fail. Qed.

Lemma framed_Uint16 : framed Decoder.Uint16.
Proof. unfold Decoder.Uint16. framed_go fail. Qed.

Lemma framed_Uint32 : framed Decoder.Uint32.
Proof. unfold Decoder.Uint32. framed_go fail. Qed.

Lemma framed_Uint64 : framed Decoder.Uint64.
Proof. unfold Decoder.Uint64. framed_go fail. Qed.

Lemma framed_Skip n : framed (Decoder.Skip n).
Proof. unfold Decoder.Skip. framed_go fail. Qed.

Lemma framed_Uvarint_loop (n : nat) :
  forall i x bit, framed (Decoder.Uvarint_loop n i x bit).
Proof.
  induction n as [|n IH]; intros i x bit; cbn [Decoder.Uvarint_loop].
  - framed_go fail.
  - apply framed_bind; [apply framed_Uint8|].
    intros b. cbv zeta. destruct (b <? 128); [framed_go fail|apply IH].
Qed.

Lemma framed_Uvarint : framed Decoder.Uvarint.
Proof. apply framed_Uvarint_loop. Qed.

Lemma framed_Varint : framed Decoder.Varint.
Proof. unfold Decoder.Varint. framed_go ltac:(apply framed_Uvarint). Qed.

Ltac fbase :=
  first [ apply framed_Uint8 | apply framed_Bool | apply framed_Uint16
        | apply framed_Uint32 | apply framed_Uint64 | apply framed_Skip
        | apply framed_Uvarint | apply framed_Varint ].

Lemma framed_String : framed Decoder.String.
Proof. unfold Decoder.String. framed_go fbase. Qed.

Lemma framed_scalars :
  framed Decoder.Int8 /\ framed Decoder.Int16 /\ framed Decoder.Int32 /\
  framed Decoder.Int64 /\ framed Decoder.Float32 /\ framed Decoder.Float64 /\
  framed Decoder.Complex64 /\ framed Decoder.Complex128 /\
  framed Decoder.Int /\ framed Decoder.Uint.
Proof.
  unfold Decoder.Int8, Decoder.Int16, Decoder.Int32, Decoder.Int64,
    Decoder.Complex64, Decoder.Complex128, Decoder.Float32, Decoder.Float64,
    Decoder.Int, Decoder.Uint.
  repeat apply conj; framed_go fbase.
Qed.

Lemma framed_bool_step {D} (set : D -> Z -> bool -> M Decoder.t D) i st :
  (forall d j x, framed (set d j x)) -> framed (Decoder.bool_step set i st).
Proof.
  intros Hset. unfold Decoder.bool_step. destruct st as [b d]. cbv zeta.
  framed_go ltac:(apply Hset).
Qed.

Lemma framed_boolArray ty v : framed (Decoder.boolArray ty v).
Proof.
  assert (Hset : forall d j x, framed (Decoder.set_bool_at d j x))
    by (intros; unfold Decoder.set_bool_at; framed_go fail).
  unfold Decoder.boolArray.
  destruct ty as [| | | | | | | | | | | | | | | |e|n e| | | |];
    try solve [framed_go fail];
    destruct e; try solve [framed_go fail];
    framed_go ltac:(first [apply framed_Uvarint
                          | apply framed_bool_step, Hset]).
Qed.

Lemma framed_skipByType : forall ty, framed (Decoder.skipByType ty).
Proof.
  intros ty. pattern ty. apply rtype_induction; clear ty;
    [intros ty|intros e IH|intros n e IH|intros k v IHk IHv|intros fs IH|intros e IH].
  - destruct ty; try exact I; cbn [Decoder.skipByType _fixTypeSize];
      try change (0 <? -1) with false; cbv iota; framed_go fbase.
  - cbn [Decoder.skipByType _fixTypeSize]. change (0 <? -1) with false. cbv iota.
    framed_go ltac:(first [fbase | apply IH]).
  - cbn [Decoder.skipByType _fixTypeSize]. change (0 <? -1) with false. cbv iota.
    framed_go ltac:(first [fbase | apply IH]).
  - cbn [Decoder.skipByType _fixTypeSize]. change (0 <? -1) with false. cbv iota.
    framed_go ltac:(first [fbase | apply IHk | apply IHv]).
  - cbn [Decoder.skipByType _fixTypeSize]. change (0 <? -1) with false. cbv iota.
    generalize 0 at 2 as sum.
    induction IH as [|f fs Hf _ IHfs]; intros sum.
    + framed_go fail.
    + apply framed_bind; [apply Hf|]. intros x.
      destruct (x <? 0); [framed_go fail|apply IHfs].
  - cbn [Decoder.skipByType _fixTypeSize]. framed_go fail.
Qed.

Lemma framed_value newPtr : forall ty v, framed (Decoder.value newPtr ty v).
Proof.
  intros ty. pattern ty. apply rtype_induction; clear ty;
    [intros ty|intros e IH|intros n e IH|intros k vt IHk IHv|intros fs IH|intros e IH].
  - pose proof framed_scalars as (?&?&?&?&?&?&?&?&?&?).
    destruct ty; try exact I; intros v; cbn [Decoder.value];
      try destruct (newPtr _ _) as [[] ?];
      framed_go ltac:(first [fbase | assumption | apply framed_String]).
  - intros v. cbn [Decoder.value].
    framed_go ltac:(first [fbase | apply framed_boolArray
                          | apply framed_skipByType | apply IH]).
  - intros v. cbn [Decoder.value].
    framed_go ltac:(first [fbase | apply framed_boolArray
                          | apply framed_skipByType | apply IH]).
  - intros v. cbn [Decoder.value].
    framed_go ltac:(first [fbase | apply IHk | apply IHv]).
  - intros v. cbn [Decoder.value].
    apply framed_bind; [|intros; framed_go fail].
    generalize (struct_fields v) as vs.
    induction IH as [|f fs Hf _ IHfs]; intros vs.
    + framed_go fail.
    + destruct vs as [|x vs]; [framed_go fail|].
      framed_go ltac:(first [apply Hf | apply IHfs]).
  - intros v. cbn [Decoder.value].
    destruct (newPtr _ _) as [[] v1]; [|framed_go fail].
    destruct v1 as [| | | | | | | | | | | |[p|]|]; try solve [framed_go fail].
    framed_go ltac:(apply IH).
Qed.

Lemma framed_fast_slice {A} (read : M Decoder.t A) (z : A) inj :
  framed read -> framed (Decoder.fast_slice read z inj).
Proof.
  intros Hr. unfold Decoder.fast_slice.
  framed_go ltac:(first [apply framed_Uvarint | apply Hr]).
Qed.

Lemma framed_fast (ty : rtype) (m : M Decoder.t rvalue) :
  Decoder.fast ty = Some m -> framed m.
Proof.
  pose proof framed_scalars as (?&?&?&?&?&?&?&?&?&?).
  intros Hm.
  destruct ty; try discriminate Hm;
    try (injection Hm as <-;
         framed_go ltac:(first [fbase | assumption | apply framed_String]);
         fail).
  destruct ty; try discriminate Hm; injection Hm as <-;
    try (apply framed_fast_slice;
         first [fbase | assumption | apply framed_String]).
  framed_go ltac:(first [apply framed_Uvarint
                        | apply framed_bool_step; intros; framed_go fail]).
Qed.

(** X13: decoding is framed.  Whenever [value], the skip engine,
    [boolArray], a fast-path case, [Uvarint] or [String] returns from a
    cursor over a buffer, on any shape, destination and input, it has
    passed a prefix [used] of the unread bytes, and nothing else of the
    buffer mattered: from any cursor with [used] in front of it, whatever
    bytes precede and follow, it returns the same result having passed
    [used]; and from a cursor left with only a proper prefix of [used] it
    faults with [io.ErrUnexpectedEOF]. *)
Theorem decoding_is_framed (newPtr : rtype -> rvalue -> bool * rvalue)
    (ty : rtype) (v : rvalue) :
  framed (Decoder.value newPtr ty v) /\
  framed (Decoder.skipByType ty) /\
  framed (Decoder.boolArray ty v) /\
  (forall m, Decoder.fast ty = Some m -> framed m) /\
  framed Decoder.Uvarint /\
  framed Decoder.String.
Proof.
  split; [apply framed_value|]. split; [apply framed_skipByType|].
  split; [apply framed_boolArray|]. split; [intros m; apply framed_fast|].
  split; [apply framed_Uvarint|apply framed_String].
Qed.


(** ** Truncated input *)



(** ** [Uvarint] on any input *)

Lemma Decoder_Uvarint_loop_total (n : nat) : forall i x bit pre bs e,
  i + Z.of_nat n = 10 -> 0 <= i ->
  (forall v m d',
     Decoder.Uvarint_loop n i x bit (Decoder.cursor pre bs e) = Ret (v, m) d' ->
     exists used rest,
       bs = used ++ rest /\ d' = Decoder.cursor (pre ++ used) rest e /\
       ((1 <= len used <= Z.of_nat n /\ m = i + len used) \/
        (len used = Z.of_nat n /\ v = 0 /\ (m = 0 \/ m = - (i + len used))))) /\
  (forall p,
     Decoder.Uvarint_loop n i x bit (Decoder.cursor pre bs e) = Panic p ->
     p = PanicUnexpectedEOF /\ len bs < Z.of_nat n /\
     Forall (fun c => 128 <= byte_to_Z c) bs) /\
  (Z.of_nat n <= len bs ->
   exists r d', Decoder.Uvarint_loop n i x bit (Decoder.cursor pre bs e)
                = Ret r d').
Proof.
  induction n as [|n IH]; intros i x bit pre bs e Hi Hi0.
  - cbn [Decoder.Uvarint_loop]. unfold ret. split; [|split].
    + intros v m d' H. injection H as <- <- <-. exists [], bs.
      split; [reflexivity|]. split; [now rewrite app_nil_r|].
      right. unfold len. cbn [length]. repeat split. left. reflexivity.
    + intros p H. discriminate H.
    + intros _. eexists. eexists. reflexivity.
  - rewrite Decoder_Uvarint_loop_unfold. unfold bind at 1 2 3.
    destruct bs as [|b bs].
    { rewrite Decoder_Uint8_empty. split; [|split].
      - intros v m d' H. discriminate H.
      - intros p H. injection H as <-. split; [reflexivity|].
        split; [unfold len; cbn [length]; lia|constructor].
      - unfold len. cbn [length]. lia. }
    rewrite Decoder_Uint8_cursor. cbv zeta.
    destruct (Z.ltb_spec (byte_to_Z b) 128) as [Hlt|Hge].
    + assert (Hone : len [b] = 1) by reflexivity.
      split; [|split].
      * intros v m d' H. exists [b], bs. split; [reflexivity|].
        destruct ((i >? 9) || ((i =? 9) && (byte_to_Z b >? 1))) eqn:Ec;
          unfold ret in H; injection H as <- <- <-.
        -- split; [reflexivity|]. rewrite Hone.
           assert (Hn : n = 0%nat).
           { destruct (Z.gtb_spec i 9); [lia|].
             destruct (Z.eqb_spec i 9); [lia|discriminate Ec]. }
           subst n. right. repeat split. right. reflexivity.
        -- split; [reflexivity|]. rewrite Hone. left. split; [lia|reflexivity].
      * intros p H.
        destruct ((i >? 9) || ((i =? 9) && (byte_to_Z b >? 1))); discriminate H.
      * intros _.
        destruct ((i >? 9) || ((i =? 9) && (byte_to_Z b >? 1)));
          eexists; eexists; reflexivity.
    + destruct (IH (i + 1)
                  (Z.lor x (to_uint64 (Z.shiftl (Z.land (byte_to_Z b) 127) bit)))
                  (bit + 7) (pre ++ [b]) bs e ltac:(lia) ltac:(lia))
        as (HR & HP & HT).
      split; [|split].
      * intros v m d' H.
        destruct (HR v m d' H) as (used & rest & -> & -> & Hcase).
        exists (b :: used), rest. split; [reflexivity|].
        split; [now rewrite <- app_assoc|]. rewrite len_cons.
        destruct Hcase as [[Hl ->]|(Hl & -> & Hm)].
        -- left. split; lia.
        -- right. split; [lia|]. split; [reflexivity|].
           destruct Hm as [->| ->]; [left; reflexivity|right; lia].
      * intros p H. destruct (HP p H) as (-> & Hl & Hall).
        split; [reflexivity|]. rewrite len_cons.
        split; [lia|constructor; [lia|exact Hall]].
      * rewrite len_cons. intros Hl. apply HT. lia.
Qed.

(** X15: [Uvarint] on any input.  It passes at least 1 and at most 10
    bytes.  When it returns, the count is the number of bytes passed, or
    10 bytes were passed and it reports a failure (value 0, count 0 or
    -10).  It never fails to return when 10 bytes are left; it faults only
    with [io.ErrUnexpectedEOF], and only when fewer than 10 bytes are left
    and every one of them has the continuation bit.  The stream decoder
    faults and returns on the same inputs. *)
Theorem Uvarint_every_input (pre bs : list byte) (e : Endian) :
  (forall v m d',
     Decoder.Uvarint (Decoder.cursor pre bs e) = Ret (v, m) d' ->
     exists used rest,
       bs = used ++ rest /\ d' = Decoder.cursor (pre ++ used) rest e /\
       ((1 <= len used <= 10 /\ m = len used) \/
        (len used = 10 /\ v = 0 /\ (m = 0 \/ m = -10)))) /\
  (forall p,
     Decoder.Uvarint (Decoder.cursor pre bs e) = Panic p ->
     p = PanicUnexpectedEOF /\ len bs < 10 /\
     Forall (fun c => 128 <= byte_to_Z c) bs) /\
  (10 <= len bs ->
   exists r d', Decoder.Uvarint (Decoder.cursor pre bs e) = Ret r d') /\
  (forall sb,
     (forall p,
        decoderReader.Uvarint (decoderReader.mk bs e sb) = Panic p ->
        p = PanicUnexpectedEOF /\ len bs < 10 /\
        Forall (fun c => 128 <= byte_to_Z c) bs) /\
     (10 <= len bs ->
      exists r s', decoderReader.Uvarint (decoderReader.mk bs e sb) = Ret r s')).
Proof.
  assert (Hall : forall pre0,
    (forall v m d',
       Decoder.Uvarint (Decoder.cursor pre0 bs e) = Ret (v, m) d' ->
       exists used rest,
         bs = used ++ rest /\ d' = Decoder.cursor (pre0 ++ used) rest e /\
         ((1 <= len used <= 10 /\ m = len used) \/
          (len used = 10 /\ v = 0 /\ (m = 0 \/ m = -10)))) /\
    (forall p,
       Decoder.Uvarint (Decoder.cursor pre0 bs e) = Panic p ->
       p = PanicUnexpectedEOF /\ len bs < 10 /\
       Forall (fun c => 128 <= byte_to_Z c) bs) /\
    (10 <= len bs ->
     exists r d', Decoder.Uvarint (Decoder.cursor pre0 bs e) = Ret r d')).
  { intros pre0. unfold Decoder.Uvarint.
    change (Z.to_nat MaxVarintLen64) with 10%nat.
    destruct (Decoder_Uvarint_loop_total 10 0 0 0 pre0 bs e eq_refl
                ltac:(lia)) as (HR & HP & HT).
    split; [|split; [exact HP|exact HT]].
    intros v m d' H. destruct (HR v m d' H) as (used & rest & -> & -> & Hc).
    exists used, rest. split; [reflexivity|]. split; [reflexivity|].
    change (Z.of_nat 10) with 10 in Hc.
    destruct Hc as [[Hl ->]|(Hl & -> & Hm)].
    - left. split; [exact Hl|lia].
    - right. split; [exact Hl|]. split; [reflexivity|].
      destruct Hm as [->| ->]; [left; reflexivity|right; lia]. }
  destruct (Hall pre) as (H1 & H2 & H3).
  split; [exact H1|]. split; [exact H2|]. split; [exact H3|].
  intros sb. destruct (Hall []) as (_ & HP & HT).
  pose proof (sim_Uvarint (Decoder.cursor [] bs e) (decoderReader.mk bs e sb)
                (ex_intro _ [] eq_refl)) as Hs.
  unfold agree in Hs. split.
  - intros p Hp. rewrite Hp in Hs.
    destruct (Decoder.Uvarint (Decoder.cursor [] bs e)) as [r d'|q] eqn:E;
      [contradiction|].
    subst q. apply (HP p eq_refl).
  - intros Hl. destruct (HT Hl) as (r & d' & E). rewrite E in Hs.
    destruct (decoderReader.Uvarint (decoderReader.mk bs e sb)) as [r' s'|q];
      [|contradiction].
    exists r', s'. reflexivity.
Qed.

(** ** A count that does not fit an [int] *)

Lemma to_int_huge (c : Z) : 2 ^ 63 <= c < 2 ^ 64 -> to_int c = c - 2 ^ 64.
Proof.
  intros H. unfold to_int, to_signed. change (64 - 1) with 63.
  rewrite pow63, pow64 in *.
  replace (c + 9223372036854775808)
    with (c - 9223372036854775808 + 1 * 18446744073709551616) by lia.
  rewrite Z.mod_add by lia. rewrite Z.mod_small by lia. lia.
Qed.

(** X16: an element count of [2^63] or more, read as a uvarint and
    converted to [int], is negative.  A map is then decoded as empty and a
    fixed-capacity array of non-bool elements is left as it was, both
    without an error and with only the count passed; a slice of non-bool
    elements and the slice fast paths fault on making a slice of negative
    length, which [Decoder.Value] returns as [io.ErrUnexpectedEOF].  The
    skip engine passes only the count of a map or of a sequence of elements
    without a fixed size, and returns the length of the count. *)
Theorem count_beyond_int (c : Z) (pre rest : list byte) (e : Endian) :
  2 ^ 63 <= c < 2 ^ 64 ->
  let d := Decoder.cursor pre (PutUvarint c ++ rest) e in
  let d' := Decoder.cursor (pre ++ PutUvarint c) rest e in
  (forall newPtr kt vt v,
     Decoder.value newPtr (TMap kt vt) v d = Ret (VMap [], None) d') /\
  (forall newPtr n el v,
     is_Bool el = false ->
     Decoder.value newPtr (TArray n el) v d = Ret (v, None) d') /\
  (forall newPtr el v,
     is_Bool el = false ->
     Decoder.value newPtr (TSlice el) v d = Panic PanicRuntime) /\
  (forall el m,
     Decoder.fast (TSlice el) = Some m -> m d = Panic PanicRuntime) /\
  (forall newPtr el m v,
     Decoder.fast (TSlice el) = Some m ->
     Decoder.Value newPtr (PtrTo (TSlice el) v) d
     = Decoder.Recovered ErrUnexpectedEOF) /\
  (forall kt vt,
     Decoder.skipByType (TMap kt vt) d = Ret (len (PutUvarint c)) d') /\
  (forall el,
     _fixTypeSize el <= 0 ->
     Decoder.skipByType (TSlice el) d = Ret (len (PutUvarint c)) d').
Proof.
  intros Hc d d'. subst d d'.
  assert (Hc64 : 0 <= c < 2 ^ 64) by (rewrite pow63 in Hc; lia).
  destruct (Uvarint_Put_roundtrip c Hc64) as (HU & _).
  specialize (HU pre rest e).
  pose proof (to_int_huge c Hc) as Hi.
  assert (Hneg : to_int c < 0) by (rewrite Hi; lia).
  assert (Hnat : Z.to_nat (to_int c) = 0%nat) by lia.
  assert (HF : forall el m, Decoder.fast (TSlice el) = Some m ->
             m (Decoder.cursor pre (PutUvarint c ++ rest) e)
             = Panic PanicRuntime).
  { intros el m Hm.
    destruct el; try discriminate Hm; injection Hm as <-;
      unfold Decoder.fast_slice;
      rewrite (bind_Ret _ _ _ _ _ HU); cbv zeta; unfold make;
      destruct (Z.ltb_spec (to_int c) 0); try lia; reflexivity. }
  split; [|split; [|split; [|split; [|split; [|split]]]]].
  - intros newPtr kt vt v. cbn [Decoder.value].
    rewrite (bind_Ret _ _ _ _ _ HU). cbv zeta. rewrite Hnat. reflexivity.
  - intros newPtr n el v Hb. cbn [Decoder.value].
    rewrite (bind_Ret _ _ _ _ _
               (boolArray_not_bool (TArray n el) el v _
                  (or_intror (ex_intro _ n eq_refl)) Hb)).
    change (-1 <? 0) with true. cbv iota.
    rewrite (bind_Ret _ _ _ _ _ HU). cbv zeta. rewrite Hnat. reflexivity.
  - intros newPtr el v Hb. cbn [Decoder.value].
    rewrite (bind_Ret _ _ _ _ _
               (boolArray_not_bool (TSlice el) el v _ (or_introl eq_refl) Hb)).
    change (-1 <? 0) with true. cbv iota.
    rewrite (bind_Ret _ _ _ _ _ HU). cbv zeta. unfold MakeSlice.
    destruct (Z.ltb_spec (to_int c) 0); [reflexivity|lia].
  - exact HF.
  - intros newPtr el m v Hm.
    unfold Decoder.Value, Decoder.Value_body, Decoder.fastValue.
    rewrite Hm. unfold bind at 1 2. rewrite (HF el m Hm). reflexivity.
  - intros kt vt. cbn [Decoder.skipByType _fixTypeSize].
    change (0 <? -1) with false. cbv iota.
    rewrite (bind_Ret _ _ _ _ _ HU). cbv zeta. rewrite Hnat. reflexivity.
  - intros el Hel. cbn [Decoder.skipByType _fixTypeSize].
    change (0 <? -1) with false. cbv iota.
    rewrite (bind_Ret _ _ _ _ _ HU). cbv zeta.
    destruct (Z.ltb_spec 0 (_fixTypeSize el)); [lia|].
    rewrite Hnat. reflexivity.
Qed.

Lemma count_beyond_int_witness :
  2 ^ 63 <= 2 ^ 63 < 2 ^ 64 /\
  Decoder.value (fun _ x => (false, x)) (TMap TString TInt32)
    (VMap [(VString [], VInt 1)])
    (Decoder.cursor [] (PutUvarint (2 ^ 63) ++ [Byte.x01]) LittleEndian)
  = Ret (VMap [], None)
        (Decoder.cursor ([] ++ PutUvarint (2 ^ 63)) [Byte.x01] LittleEndian).
Proof.
  assert (H : 2 ^ 63 <= 2 ^ 63 < 2 ^ 64)
    by (split; [discriminate|reflexivity]).
  split; [exact H|].
  exact (proj1 (count_beyond_int (2 ^ 63) [] [Byte.x01] LittleEndian H)
           (fun _ x => (false, x)) TString TInt32 (VMap [(VString [], VInt 1)])).
Defined.

(** ** Fewer encoded elements than slots, and records field by field *)






(** ** The scratch buffer of the stream decoder *)

Lemma agree_same_outcome {A} (x : res Decoder.t A) (y1 y2 : res decoderReader.t A) :
  agree x y1 -> agree x y2 -> same_outcome y1 y2.
Proof.
  unfold agree, same_outcome.
  destruct x as [a d|p], y1 as [a1 s1|p1], y2 as [a2 s2|p2];
    try contradiction.
  - intros [-> [pre1 H1]] [-> [pre2 H2]]. split; [reflexivity|].
    rewrite H1 in H2. apply cursor_inj in H2 as (_ & H2 & H3).
    split; [symmetry; exact H2|symmetry; exact H3].
  - intros -> ->. reflexivity.
Qed.

Lemma sim_same_outcome {A} (m1 : M Decoder.t A) (m2 : M decoderReader.t A)
    (r : Reader) (e : Endian) (b1 b2 : list byte) :
  sim m1 m2 ->
  same_outcome (m2 (decoderReader.mk r e b1)) (m2 (decoderReader.mk r e b2)).
Proof.
  intros Hs.
  apply (agree_same_outcome (m1 (Decoder.cursor [] r e)));
    apply Hs; exists []; reflexivity.
Qed.

(** X19: the scratch buffer of the stream decoder is staging only.  Two
    stream decoders over the same stream with the same byte order, whatever
    their scratch buffers hold, end alike: the same result with the same
    bytes left on the stream, or the same fault.  This holds for [Uvarint],
    [String], [boolArray], every fast-path case, [value] on the shapes both
    decoders have a rule for, and the skip engine on the shapes where the
    two skip engines are the same code. *)
Theorem scratch_is_staging_only (ty : rtype) (v : rvalue) (r : Reader)
    (e : Endian) (b1 b2 : list byte) :
  let s1 := decoderReader.mk r e b1 in
  let s2 := decoderReader.mk r e b2 in
  same_outcome (decoderReader.Uvarint s1) (decoderReader.Uvarint s2) /\
  same_outcome (decoderReader.String s1) (decoderReader.String s2) /\
  same_outcome (decoderReader.boolArray ty v s1)
               (decoderReader.boolArray ty v s2) /\
  (forall m, decoderReader.fast ty = Some m -> same_outcome (m s1) (m s2)) /\
  (common ty = true ->
   same_outcome (decoderReader.value ty v s1) (decoderReader.value ty v s2)) /\
  (skip_same ty = true ->
   same_outcome (decoderReader.skipByType ty s1)
                (decoderReader.skipByType ty s2)).
Proof.
  intros s1 s2. subst s1 s2.
  split; [apply (sim_same_outcome _ _ r e b1 b2 sim_Uvarint)|].
  split; [apply (sim_same_outcome _ _ r e b1 b2 sim_String)|].
  split; [apply (sim_same_outcome _ _ r e b1 b2 (sim_boolArray ty v))|].
  split; [|split].
  - intros m2 Hm2.
    assert (Hm1 : exists m1, Decoder.fast ty = Some m1).
    { destruct ty; try discriminate Hm2; try (eexists; reflexivity).
      destruct ty; try discriminate Hm2; eexists; reflexivity. }
    destruct Hm1 as [m1 Hm1].
    apply (sim_same_outcome m1 m2 r e b1 b2 (sim_fast ty m1 m2 Hm1 Hm2)).
  - intros Hc.
    apply (sim_same_outcome _ _ r e b1 b2
             (sim_value (fun _ x => (false, x)) ty Hc v)).
  - intros Hs. apply (sim_same_outcome _ _ r e b1 b2 (sim_skipByType ty Hs)).
Qed.

(** ** [reserve] on a stream *)




(** ** The scalar accessors *)

Lemma to_signed_cases (w x : Z) :
  0 < w -> 0 <= x < 2 ^ w ->
  to_signed w x = (if x <? 2 ^ (w - 1) then x else x - 2 ^ w) /\
  - 2 ^ (w - 1) <= to_signed w x < 2 ^ (w - 1).
Proof.
  intros Hw Hx. unfold to_signed.
  assert (Hp : 2 ^ w = 2 * 2 ^ (w - 1)).
  { replace w with (1 + (w - 1)) at 1 by lia.
    rewrite Z.pow_add_r by lia. reflexivity. }
  assert (0 < 2 ^ (w - 1)) by (apply Z.pow_pos_nonneg; lia).
  destruct (Z.ltb_spec x (2 ^ (w - 1))).
  - rewrite Z.mod_small by lia. lia.
  - replace (x + 2 ^ (w - 1)) with (x - 2 ^ (w - 1) + 1 * 2 ^ w) by lia.
    rewrite Z.mod_add by lia. rewrite Z.mod_small by lia. lia.
Qed.

Lemma Decoder_fixed_read (n : Z) (f : Endian -> list byte -> Z)
    (bs pre rest : list byte) (e : Endian) :
  len bs = n ->
  (b <- Decoder.reserve n ;; fun d => Ret (f (Decoder.endian d) b) d)
    (Decoder.cursor pre (bs ++ rest) e)
  = Ret (f e bs) (Decoder.cursor (pre ++ bs) rest e).
Proof.
  intros Hn.
  rewrite (bind_Ret _ _ _ _ _
             (Decoder_reserve_cursor pre bs rest e n (eq_sym Hn))).
  reflexivity.
Qed.

Lemma Decoder_fixed_short {A} (n : Z) (k : list byte -> M Decoder.t A)
    (bs pre : list byte) (e : Endian) :
  len bs < n ->
  (b <- Decoder.reserve n ;; k b) (Decoder.cursor pre bs e)
  = Panic PanicUnexpectedEOF.
Proof. intros Hn. apply bind_Panic, Decoder_reserve_short, Hn. Qed.

(** X21: the scalar accessors of the buffer-backed decoder.  [Bool] takes
    one byte and is true when it is not zero; [Uint8] is the byte;
    [Uint16], [Uint32], [Uint64] are the byte order's reading of the next
    2, 4 and 8 bytes; the signed accessors are the two's complement of the
    unsigned ones, in the range of their width; [Float32] and [Float64] take
    the bit pattern of [Uint32] and [Uint64]; [Complex64] and [Complex128]
    take the real part first and the imaginary part after it.  Each passes
    exactly its width, and faults with [io.ErrUnexpectedEOF] when fewer
    bytes are left than the first read asks for. *)
Theorem scalar_accessors (pre rest : list byte) (e : Endian) :
  (forall b,
     Decoder.Bool (Decoder.cursor pre (b :: rest) e)
     = Ret (negb (byte_to_Z b =? 0)) (Decoder.cursor (pre ++ [b]) rest e) /\
     Decoder.Uint8 (Decoder.cursor pre (b :: rest) e)
     = Ret (byte_to_Z b) (Decoder.cursor (pre ++ [b]) rest e) /\
     Decoder.Int8 (Decoder.cursor pre (b :: rest) e)
     = Ret (if byte_to_Z b <? 128 then byte_to_Z b else byte_to_Z b - 256)
           (Decoder.cursor (pre ++ [b]) rest e)) /\
  (forall bs, len bs = 2 ->
     Decoder.Uint16 (Decoder.cursor pre (bs ++ rest) e)
     = Ret (Uint16 e bs) (Decoder.cursor (pre ++ bs) rest e) /\
     Decoder.Int16 (Decoder.cursor pre (bs ++ rest) e)
     = Ret (to_signed 16 (Uint16 e bs)) (Decoder.cursor (pre ++ bs) rest e)) /\
  (forall bs, len bs = 4 ->
     Decoder.Uint32 (Decoder.cursor pre (bs ++ rest) e)
     = Ret (Uint32 e bs) (Decoder.cursor (pre ++ bs) rest e) /\
     Decoder.Int32 (Decoder.cursor pre (bs ++ rest) e)
     = Ret (to_signed 32 (Uint32 e bs)) (Decoder.cursor (pre ++ bs) rest e) /\
     Decoder.Float32 (Decoder.cursor pre (bs ++ rest) e)
     = Ret (Uint32 e bs) (Decoder.cursor (pre ++ bs) rest e)) /\
  (forall bs, len bs = 8 ->
     Decoder.Uint64 (Decoder.cursor pre (bs ++ rest) e)
     = Ret (Uint64 e bs) (Decoder.cursor (pre ++ bs) rest e) /\
     Decoder.Int64 (Decoder.cursor pre (bs ++ rest) e)
     = Ret (to_signed 64 (Uint64 e bs)) (Decoder.cursor (pre ++ bs) rest e) /\
     Decoder.Float64 (Decoder.cursor pre (bs ++ rest) e)
     = Ret (Uint64 e bs) (Decoder.cursor (pre ++ bs) rest e)) /\
  (forall re im, len re = 4 -> len im = 4 ->
     Decoder.Complex64 (Decoder.cursor pre ((re ++ im) ++ rest) e)
     = Ret (Uint32 e re, Uint32 e im)
           (Decoder.cursor (pre ++ re ++ im) rest e)) /\
  (forall re im, len re = 8 -> len im = 8 ->
     Decoder.Complex128 (Decoder.cursor pre ((re ++ im) ++ rest) e)
     = Ret (Uint64 e re, Uint64 e im)
           (Decoder.cursor (pre ++ re ++ im) rest e)) /\
  (forall w x, 0 < w -> 0 <= x < 2 ^ w ->
     to_signed w x = (if x <? 2 ^ (w - 1) then x else x - 2 ^ w) /\
     - 2 ^ (w - 1) <= to_signed w x < 2 ^ (w - 1)) /\
  (forall bs,
     (len bs < 1 ->
      Decoder.Bool (Decoder.cursor pre bs e) = Panic PanicUnexpectedEOF /\
      Decoder.Int8 (Decoder.cursor pre bs e) = Panic PanicUnexpectedEOF) /\
     (len bs < 2 ->
      Decoder.Int16 (Decoder.cursor pre bs e) = Panic PanicUnexpectedEOF) /\
     (len bs < 4 ->
      Decoder.Int32 (Decoder.cursor pre bs e) = Panic PanicUnexpectedEOF /\
      Decoder.Float32 (Decoder.cursor pre bs e) = Panic PanicUnexpectedEOF /\
      Decoder.Complex64 (Decoder.cursor pre bs e) = Panic PanicUnexpectedEOF) /\
     (len bs < 8 ->
      Decoder.Int64 (Decoder.cursor pre bs e) = Panic PanicUnexpectedEOF /\
      Decoder.Float64 (Decoder.cursor pre bs e) = Panic PanicUnexpectedEOF /\
      Decoder.Complex128 (Decoder.cursor pre bs e) = Panic PanicUnexpectedEOF)).
Proof.
  split; [|split; [|split; [|split; [|split; [|split; [|split]]]]]].
  - intros b. pose proof (byte_to_Z_range b) as Hr.
    assert (HU := Decoder_Uint8_cursor pre b rest e).
    split; [|split; [exact HU|]].
    + unfold Decoder.Bool. change (b :: rest) with ([b] ++ rest).
      rewrite (bind_Ret _ _ _ _ _
                 (Decoder_reserve_cursor pre [b] rest e 1 eq_refl)).
      reflexivity.
    + unfold Decoder.Int8. rewrite (bind_Ret _ _ _ _ _ HU). unfold ret.
      destruct (to_signed_cases 8 (byte_to_Z b) eq_refl
                  ltac:(change (2 ^ 8) with 256; lia)) as [-> _].
      reflexivity.
  - intros bs Hl.
    assert (HU := Decoder_fixed_read 2 Uint16 bs pre rest e Hl).
    split; [exact HU|]. unfold Decoder.Int16.
    rewrite (bind_Ret _ _ _ _ _ HU). reflexivity.
  - intros bs Hl.
    assert (HU := Decoder_fixed_read 4 Uint32 bs pre rest e Hl).
    split; [exact HU|]. split; [|exact HU]. unfold Decoder.Int32.
    rewrite (bind_Ret _ _ _ _ _ HU). reflexivity.
  - intros bs Hl.
    assert (HU := Decoder_fixed_read 8 Uint64 bs pre rest e Hl).
    split; [exact HU|]. split; [|exact HU]. unfold Decoder.Int64.
    rewrite (bind_Ret _ _ _ _ _ HU). reflexivity.
  - intros re im Hre Him. unfold Decoder.Complex64, Decoder.Float32.
    rewrite <- app_assoc.
    rewrite (bind_Ret _ _ _ _ _
               (Decoder_fixed_read 4 Uint32 re pre (im ++ rest) e Hre)).
    rewrite (bind_Ret _ _ _ _ _
               (Decoder_fixed_read 4 Uint32 im (pre ++ re) rest e Him)).
    unfold ret. rewrite <- app_assoc. reflexivity.
  - intros re im Hre Him. unfold Decoder.Complex128, Decoder.Float64.
    rewrite <- app_assoc.
    rewrite (bind_Ret _ _ _ _ _
               (Decoder_fixed_read 8 Uint64 re pre (im ++ rest) e Hre)).
    rewrite (bind_Ret _ _ _ _ _
               (Decoder_fixed_read 8 Uint64 im (pre ++ re) rest e Him)).
    unfold ret. rewrite <- app_assoc. reflexivity.
  - exact to_signed_cases.
  - intros bs. split; [|split; [|split]]; intros Hl.
    + split; [apply Decoder_fixed_short, Hl|].
      apply bind_Panic. apply Decoder_fixed_short, Hl.
    + apply bind_Panic. apply Decoder_fixed_short, Hl.
    + split; [|split].
      * apply bind_Panic. apply Decoder_fixed_short, Hl.
      * apply Decoder_fixed_short, Hl.
      * apply bind_Panic. apply Decoder_fixed_short, Hl.
    + split; [|split].
      * apply bind_Panic. apply Decoder_fixed_short, Hl.
      * apply Decoder_fixed_short, Hl.
      * apply bind_Panic. apply Decoder_fixed_short, Hl.
Qed.

(** The byte [ff] is [-1] as an [int8], and [01 02] is 258 in big-endian
    order and 513 in little-endian order. *)
Example scalar_readings :
  Decoder.Int8 (Decoder.cursor [] [Byte.xff] BigEndian)
  = Ret (-1) (Decoder.cursor [Byte.xff] [] BigEndian) /\
  Decoder.Uint16 (Decoder.cursor [] [Byte.x01; Byte.x02] BigEndian)
  = Ret 258 (Decoder.cursor [Byte.x01; Byte.x02] [] BigEndian) /\
  Decoder.Uint16 (Decoder.cursor [] [Byte.x01; Byte.x02] LittleEndian)
  = Ret 513 (Decoder.cursor [Byte.x01; Byte.x02] [] LittleEndian).
Proof. repeat split. Qed.
